(** * PythonUtils: orchestration layer ([algorithm.py]) and criteria ([metrics.py])

    A shallow embedding of [BaseAlg] (optimizer construction with the
    two-time-scale rule, checkpoint save / load with the parameter-name
    reconciliation, scheduler stepping) and of the criterion registry with the
    LPIPS input normalisation.

    Conventions of the embedding.
    - A Python [dict] / [OrderedDict] is an association list in insertion
      order without duplicate keys ([Py.dict]); subscripting, assignment and
      [pop] are [Py.getitem], [Py.setitem], [Py.pop].
    - A raised exception is the [Raise] outcome of [Py.result]; where the
      source mutates [self] before raising, the state reached is returned next
      to the outcome.
    - A Python [float] is a binary64 number ([PrimFloat.float]).
    - Objects of torch (modules, optimizers, schedulers, the LPIPS network) are
      opaque handles reached only through the methods the source calls on
      them; those methods are parameters of the development. *)

From Stdlib Require Import List String Ascii Bool ZArith Lia FinFun.
From Stdlib Require Import PrimFloat FloatOps SpecFloat.
From Stdlib Require Import Uint63.
Import ListNotations.
Local Open Scope string_scope.
Local Open Scope list_scope.

Set Implicit Arguments.
Local Set Warnings "-register-all".

(* ================================================================== *)
(** * Python values, exceptions and dictionaries                        *)
(* ================================================================== *)

Module Py.

(** The exceptions the modelled code can raise. *)
Inductive exn : Type :=
| FileNotFoundError (path : string)
| KeyError (key : string)
| IndexError
| UnboundLocalError (var : string)
| AssertionError (msg : string)
| AttributeError
| TypeError
| ValueError
| OverflowError
| RuntimeError.

Inductive result (A : Type) : Type :=
| Ok (a : A)
| Raise (e : exn).
Arguments Ok {A} a.
Arguments Raise {A} e.

Definition bind {A B} (r : result A) (k : A -> result B) : result B :=
  match r with
  | Ok a => k a
  | Raise e => Raise e
  end.

Definition is_ok {A} (r : result A) : bool :=
  match r with Ok _ => true | Raise _ => false end.

(** ** Strings *)

(** [s[n:]] *)
Fixpoint slice_from (n : nat) (s : string) : string :=
  match n, s with
  | O, _ => s
  | S n', String _ t => slice_from n' t
  | S _, EmptyString => EmptyString
  end.

(** [needle in hay] on strings: substring containment. *)
Fixpoint contains (needle hay : string) : bool :=
  String.prefix needle hay
  || match hay with
     | EmptyString => false
     | String _ t => contains needle t
     end.

(** ** Insertion-ordered dictionaries with string keys *)

Definition dict (V : Type) : Type := list (string * V).

Definition keys {V} (d : dict V) : list string := map fst d.

Fixpoint get {V} (d : dict V) (k : string) : option V :=
  match d with
  | [] => None
  | (k', v) :: d' => if String.eqb k' k then Some v else get d' k
  end.

(** [d[k]] *)
Definition getitem {V} (d : dict V) (k : string) : result V :=
  match get d k with
  | Some v => Ok v
  | None => Raise (KeyError k)
  end.

(** [d[k] = v]: an existing key keeps its position, a new key goes last. *)
Fixpoint setitem {V} (d : dict V) (k : string) (v : V) : dict V :=
  match d with
  | [] => [(k, v)]
  | (k', v') :: d' =>
      if String.eqb k' k then (k', v) :: d' else (k', v') :: setitem d' k v
  end.

Fixpoint remove {V} (d : dict V) (k : string) : dict V :=
  match d with
  | [] => []
  | (k', v') :: d' =>
      if String.eqb k' k then d' else (k', v') :: remove d' k
  end.

(** [d.pop(k)] *)
Definition pop {V} (d : dict V) (k : string) : result (V * dict V) :=
  match get d k with
  | Some v => Ok (v, remove d k)
  | None => Raise (KeyError k)
  end.

(** [k in d] *)
Definition mem {V} (d : dict V) (k : string) : bool :=
  match get d k with Some _ => true | None => false end.

(** ** Configuration values

    The option bags handed to the orchestrator are nested dictionaries of
    scalars, as a configuration loader produces them. *)
Inductive value : Type :=
| VNone
| VBool (b : bool)
| VInt (z : Z)
| VFloat (f : float)
| VStr (s : string)
| VDict (d : list (string * value)).

(** Truth value of an object in a condition. *)
Definition truthy (v : value) : bool :=
  match v with
  | VNone => false
  | VBool b => b
  | VInt z => negb (Z.eqb z 0)
  | VFloat f => negb (PrimFloat.eqb f 0%float)
  | VStr s => negb (String.eqb s "")
  | VDict d => match d with [] => false | _ => true end
  end.

(** [v[k]] on a configuration value. *)
Definition subscript (v : value) (k : string) : result value :=
  match v with
  | VDict d => getitem d k
  | _ => Raise TypeError
  end.

(** [v[k] = x] on a configuration value. *)
Definition assign (v : value) (k : string) (x : value) : result value :=
  match v with
  | VDict d => Ok (VDict (setitem d k x))
  | _ => Raise TypeError
  end.

(** Conversion of an [int] to a [float]: nearest binary64 number, ties to
    even; an integer beyond the binary64 range raises. *)
Definition float_of_int (z : Z) : result float :=
  let f := SF2Prim (binary_normalize prec emax z 0 false) in
  if PrimFloat.is_infinity f then Raise OverflowError else Ok f.

(** The left operand of [x / 2.] and [x * 2.] as a float. *)
Definition as_float (v : value) : result float :=
  match v with
  | VFloat f => Ok f
  | VInt z => float_of_int z
  | VBool b => Ok (if b then 1%float else 0%float)
  | _ => Raise TypeError
  end.

(** [v / d] and [v * d] for a non-zero float literal [d]. *)
Definition truediv (v : value) (d : float) : result value :=
  bind (as_float v) (fun f => Ok (VFloat (f / d)%float)).

Definition mul (v : value) (d : float) : result value :=
  bind (as_float v) (fun f => Ok (VFloat (f * d)%float)).

End Py.

Import Py.


Notation "x <- c ;; k" := (Py.bind c (fun x => k))
  (at level 61, c at next level, right associativity).

(** ** Code that mutates state and may raise

    An [action S A] runs from a state of type [S]; it ends with a value or an
    exception, and with the state that was reached at that point. *)

Definition action (S A : Type) : Type := S -> result A * S.

Definition ret {S A} (a : A) : action S A := fun s => (Ok a, s).

Definition throw {S A} (e : exn) : action S A := fun s => (Raise e, s).

Definition lift {S A} (r : result A) : action S A := fun s => (r, s).

Definition abind {S A B} (c : action S A) (k : A -> action S B) : action S B :=
  fun s =>
    match c s with
    | (Ok a, s') => k a s'
    | (Raise e, s') => (Raise e, s')
    end.

Definition gets {S A} (f : S -> A) : action S A := fun s => (Ok (f s), s).

Definition modify {S} (f : S -> S) : action S unit := fun s => (Ok tt, f s).

Notation "x <~ c ;; k" := (abind c (fun x => k))
  (at level 61, c at next level, right associativity).
Notation "c ;;; k" := (abind c (fun _ => k))
  (at level 61, right associativity).

(** [for x in xs: body(x)] *)
Fixpoint for_each {S X} (xs : list X) (body : X -> action S unit) : action S unit :=
  match xs with
  | [] => ret tt
  | x :: xs' => body x ;;; for_each xs' body
  end.

(** An attribute of [self] that exists only once its [create_*] method ran. *)
Definition attr {A} (field : option A) : result A :=
  match field with
  | Some a => Ok a
  | None => Raise AttributeError
  end.

(* ================================================================== *)
(** * [algorithm.py]: the handles owned by [BaseAlg]                     *)
(* ================================================================== *)

(** What a checkpoint record holds under a key: the iteration counter or a
    state dictionary, whose entries (tensors, counters, parameter groups) are
    opaque values of type [T]. *)
Inductive obj (T : Type) : Type :=
| OInt (i : Z)
| OState (sd : dict T).
Arguments OInt {T} i.
Arguments OState {T} sd.

(** A module, optimizer or scheduler of torch: [h.state_dict()] and
    [h.load_state_dict(o)].  A load that raises leaves the handle as it was
    in this model; no statement depends on a handle after a failed load. *)
Class Stateful (T H : Type) : Type := {
  state_dict : H -> dict T;
  load_state_dict : H -> obj T -> result H
}.

(** A learning-rate scheduler: [s.step()] moves its step counter by one. *)
Class Scheduler (T H : Type) : Type := {
  sched_stateful :: Stateful T H;
  step : H -> H;
  step_count : H -> Z;
  step_count_step : forall s, step_count (step s) = (step_count s + 1)%Z
}.

(** [self]: [self.model.module_lst], [self.optim_lst], [self.sched_lst].
    [BaseAlg.__init__] sets none of them; each exists after its [create_*]
    method. *)
Record alg (Mod Opt Sch : Type) : Type := {
  module_lst : option (dict Mod);
  optim_lst : option (dict Opt);
  sched_lst : option (dict Sch)
}.
Arguments Build_alg {Mod Opt Sch}.

Definition set_module_lst {Mod Opt Sch} (d : dict Mod) (self : alg Mod Opt Sch) : alg Mod Opt Sch :=
  {| module_lst := Some d; optim_lst := optim_lst self; sched_lst := sched_lst self |}.

Definition set_optim_lst {Mod Opt Sch} (d : dict Opt) (self : alg Mod Opt Sch) : alg Mod Opt Sch :=
  {| module_lst := module_lst self; optim_lst := Some d; sched_lst := sched_lst self |}.

Definition set_sched_lst {Mod Opt Sch} (d : dict Sch) (self : alg Mod Opt Sch) : alg Mod Opt Sch :=
  {| module_lst := module_lst self; optim_lst := optim_lst self; sched_lst := Some d |}.

(* ================================================================== *)
(** * Checkpoint files                                                  *)
(* ================================================================== *)

(** A file written by [torch.save]: complete, or cut short. *)
Inductive file (T : Type) : Type :=
| Truncated
| Saved (states : dict (obj T)).
Arguments Truncated {T}.
Arguments Saved {T} states.

Definition filesystem (T : Type) : Type := dict (file T).

(** The steps by which a file comes to exist at a path. *)
Inductive fs_op (T : Type) : Type :=
| OpenWrite (path : string)
| WriteRecord (path : string) (states : dict (obj T))
| Rename (src dst : string).
Arguments OpenWrite {T} path.
Arguments WriteRecord {T} path states.
Arguments Rename {T} src dst.

Definition fs_step {T} (fs : filesystem T) (op : fs_op T) : filesystem T :=
  match op with
  | OpenWrite p => setitem fs p Truncated
  | WriteRecord p states => setitem fs p (Saved states)
  | Rename src dst =>
      match get fs src with
      | Some f => setitem (remove fs src) dst f
      | None => fs
      end
  end.

Definition fs_run {T} (ops : list (fs_op T)) (fs : filesystem T) : filesystem T :=
  fold_left fs_step ops fs.

(** [torch.save(states, path)]: opens [path] itself for writing, then writes
    the serialized record into it. *)
Definition torch_save {T} (states : dict (obj T)) (path : string) : list (fs_op T) :=
  [OpenWrite path; WriteRecord path states].

(** [torch.load(path)].  A file that was cut short makes it raise; which
    exception depends on where the file was cut ([EOFError] for the empty
    file left right after the open, [RuntimeError] further on), and the
    one [Truncated] of the model stands for all of them: no statement
    below depends on which exception it is. *)
Definition torch_load {T} (fs : filesystem T) (path : string) : result (dict (obj T)) :=
  match get fs path with
  | None => Raise (FileNotFoundError path)
  | Some Truncated => Raise RuntimeError
  | Some (Saved states) => Ok states
  end.

(** The file systems a crash can leave behind while [ops] run: one per
    number of steps completed. *)
Definition crash_states {T} (ops : list (fs_op T)) (fs : filesystem T)
  : list (filesystem T) :=
  map (fun n => fs_run (firstn n ops) fs) (seq 0 (Datatypes.S (List.length ops))).

(* ================================================================== *)
(** * [BaseAlg.load_state]                                              *)
(* ================================================================== *)

(** [state_dict.keys()] and [state_dict.items()] *)
Definition obj_items {T} (o : obj T) : result (dict T) :=
  match o with
  | OState sd => Ok sd
  | OInt _ => Raise AttributeError
  end.

(** [list(state_dict.keys())[0]] *)
Definition first_key {T} (sd : dict T) : result string :=
  match sd with
  | [] => Raise IndexError
  | (k, _) :: _ => Ok k
  end.

(** Lines 165-168: [new_state_dict[k[7:]] = v] for every item. *)
Definition remove_module {T} (sd : dict T) : dict T :=
  fold_left (fun new_state_dict kv => setitem new_state_dict (slice_from 7 (fst kv)) (snd kv))
            sd [].

(** Lines 171-174: [new_state_dict['module.' + k] = v] for every item. *)
Definition add_module {T} (sd : dict T) : dict T :=
  fold_left (fun new_state_dict kv => setitem new_state_dict ("module." ++ fst kv) (snd kv))
            sd [].

(** Lines 164-177: the object handed to [load_state_dict] of the module. *)
Definition module_state_to_load {T} (if_dist : bool) (state_dict : obj T)
  : result (obj T) :=
  sd <- obj_items state_dict ;;
  k0 <- first_key sd ;;
  if contains "module." k0 && if_dist then
    Ok (OState (remove_module sd))
  else if negb (contains "module." k0) && if_dist then
    Ok (OState (add_module sd))
  else
    Ok state_dict.

Section LoadSave.
Context {T Mod Opt Sch : Type}.
Context {HM : Stateful T Mod} {HO : Stateful T Opt} {HS : Stateful T Sch}.

(** [bundle[item_name].load_state_dict(o)], the handle updated in place. *)
Definition load_into {H} {HH : Stateful T H} (bundle : dict H)
    (item_name : string) (o : obj T) : result (dict H) :=
  h <- getitem bundle item_name ;;
  h' <- load_state_dict h o ;;
  Ok (setitem bundle item_name h').

(** The body of the loop of [load_state], lines 159-187. *)
Definition load_item (states : dict (obj T)) (if_dist : bool)
    (load_item : string) : action (alg Mod Opt Sch) unit :=
  state_dict <~ lift (getitem states load_item) ;;
  if contains "module_" load_item then
    let item_name := slice_from 7 load_item in
    to_load <~ lift (module_state_to_load if_dist state_dict) ;;
    mods <~ (fun self => (attr (module_lst self), self)) ;;
    mods' <~ lift (load_into mods item_name to_load) ;;
    modify (set_module_lst mods')
  else if contains "optim_" load_item then
    let item_name := slice_from 6 load_item in
    optims <~ (fun self => (attr (optim_lst self), self)) ;;
    optims' <~ lift (load_into optims item_name state_dict) ;;
    modify (set_optim_lst optims')
  else if contains "sched_" load_item then
    let item_name := slice_from 6 load_item in
    scheds <~ (fun self => (attr (sched_lst self), self)) ;;
    scheds' <~ lift (load_into scheds item_name state_dict) ;;
    modify (set_sched_lst scheds')
  else
    ret tt.

Definition load_state (fs : filesystem T) (ckp_load_path : string)
    (load_item_lst : list string) (if_dist : bool) : action (alg Mod Opt Sch) (obj T) :=
  states <~ lift (torch_load fs ckp_load_path) ;;
  for_each load_item_lst (load_item states if_dist) ;;;
  lift (getitem states "iter").

(* ================================================================== *)
(** * [BaseAlg.save_state]                                              *)
(* ================================================================== *)

(** One of the three loops of lines 197-203:
    [states[f'{tag}{name}'] = bundle[name].state_dict()] for every name. *)
Definition add_states {H} {HH : Stateful T H} (tag : string) (bundle : dict H)
    (states : dict (obj T)) : result (dict (obj T)) :=
  fold_left
    (fun acc name =>
       states <- acc ;;
       h <- getitem bundle name ;;
       Ok (setitem states (tag ++ name) (OState (state_dict h))))
    (keys bundle) (Ok states).

(** The record built by lines 196-203. *)
Definition save_record (self : alg Mod Opt Sch) (iter : Z) (if_sched : bool)
  : result (dict (obj T)) :=
  let states := [("iter", OInt iter)] in
  mods <- attr (module_lst self) ;;
  states <- add_states "module_" mods states ;;
  optims <- attr (optim_lst self) ;;
  states <- add_states "optim_" optims states ;;
  if if_sched then
    scheds <- attr (sched_lst self) ;;
    add_states "sched_" scheds states
  else
    Ok states.

(** The file-system steps of [save_state]: those of the one call of
    [torch.save] in line 204. *)
Definition save_state_ops (self : alg Mod Opt Sch) (ckp_save_path : string) (iter : Z)
    (if_sched : bool) : result (list (fs_op T)) :=
  states <- save_record self iter if_sched ;;
  Ok (torch_save states ckp_save_path).

Definition save_state (self : alg Mod Opt Sch) (ckp_save_path : string) (iter : Z)
    (if_sched : bool) : action (filesystem T) unit :=
  fun fs =>
    match save_state_ops self ckp_save_path iter if_sched with
    | Ok ops => (Ok tt, fs_run ops fs)
    | Raise e => (Raise e, fs)
    end.

End LoadSave.

(* ================================================================== *)
(** * [BaseAlg.update_lr]                                               *)
(* ================================================================== *)

Section UpdateLr.
Context {T Mod Opt Sch : Type} {HS : Scheduler T Sch}.

(** [for sched_item in self.sched_lst: self.sched_lst[sched_item].step()] *)
Definition step_all (scheds : dict Sch) : result (dict Sch) :=
  fold_left
    (fun acc sched_item =>
       scheds <- acc ;;
       s <- getitem scheds sched_item ;;
       Ok (setitem scheds sched_item (step s)))
    (keys scheds) (Ok scheds).

Definition update_lr : action (alg Mod Opt Sch) unit :=
  scheds <~ (fun self => (attr (sched_lst self), self)) ;;
  scheds' <~ lift (step_all scheds) ;;
  modify (set_sched_lst scheds').

(** [k] calls of [update_lr] in a row. *)
Fixpoint update_lr_times (k : nat) : action (alg Mod Opt Sch) unit :=
  match k with
  | O => ret tt
  | S k' => update_lr ;;; update_lr_times k'
  end.

End UpdateLr.

(* ================================================================== *)
(** * [BaseAlg.create_optimizer]                                        *)
(* ================================================================== *)

Section CreateOptimizer.
Context {Params Mod Opt Sch : Type}.

(** [return_optimizer(name=..., params=..., opts=...)] of [deep_learning],
    which is not among these sources: the constructor call is a parameter. *)
Variable return_optimizer : value -> Params -> value -> result Opt.

(** What a call of [create_optimizer] works on: [self], the caller's
    [opts_dict] (mutated in place; nested dictionaries are held by value, so
    two entries sharing one options object are outside this model) and the
    local variable [new_lr], unbound until first assigned. *)
Record frame : Type := {
  self : alg Mod Opt Sch;
  opts_dict : dict value;
  new_lr : option value
}.

Definition set_self (f : alg Mod Opt Sch -> alg Mod Opt Sch) (fr : frame) : frame :=
  {| self := f (self fr); opts_dict := opts_dict fr; new_lr := new_lr fr |}.

Definition set_opts_dict (d : dict value) (fr : frame) : frame :=
  {| self := self fr; opts_dict := d; new_lr := new_lr fr |}.

Definition set_new_lr (x : value) (fr : frame) : frame :=
  {| self := self fr; opts_dict := opts_dict fr; new_lr := Some x |}.

(** Reading the local [new_lr]. *)
Definition read_new_lr : action frame value :=
  fun fr =>
    match new_lr fr with
    | Some x => (Ok x, fr)
    | None => (Raise (UnboundLocalError "new_lr"), fr)
    end.

(** [opts_dict[optim_item][field]] *)
Definition entry_field (optim_item field : string) : action frame value :=
  fun fr =>
    (entry <- getitem (opts_dict fr) optim_item ;; subscript entry field, fr).

(** Lines 93-97, run when the rule is on; the right-hand side [new_lr] of the
    assignment is evaluated before its target. *)
Definition adjust_lr (lr : value) (optim_item : string) : action frame unit :=
  (if String.eqb optim_item "gen" then
     x <~ lift (truediv lr 2) ;; modify (set_new_lr x)
   else if String.eqb optim_item "dis" then
     x <~ lift (mul lr 2) ;; modify (set_new_lr x)
   else ret tt) ;;;
  x <~ read_new_lr ;;
  opts <~ entry_field optim_item "opts" ;;
  opts' <~ lift (assign opts "lr" x) ;;
  entry <~ (fun fr => (getitem (opts_dict fr) optim_item, fr)) ;;
  entry' <~ lift (assign entry "opts" opts') ;;
  (fun fr => (Ok tt, set_opts_dict (setitem (opts_dict fr) optim_item entry') fr)).

(** The body of the loop, lines 92-105; [ttur] is [Some lr] when the rule is
    on ([if_ttur] true, [lr] bound) and [None] when it is off. *)
Definition build_optimizer (ttur : option value) (params_lst : dict Params)
    (optim_item : string) : action frame unit :=
  match ttur with
  | Some lr => adjust_lr lr optim_item
  | None => ret tt
  end ;;;
  name <~ entry_field optim_item "type" ;;
  params <~ lift (getitem params_lst optim_item) ;;
  opts <~ entry_field optim_item "opts" ;;
  optim <~ lift (return_optimizer name params opts) ;;
  optims <~ (fun fr => (attr (optim_lst (self fr)), fr)) ;;
  modify (set_self (set_optim_lst (setitem optims optim_item optim))).

(** Lines 84-88. *)
Definition read_ttur : action frame (option value) :=
  opts_ttur <~ (fun fr =>
                  match pop (opts_dict fr) "TTUR" with
                  | Ok (v, d) => (Ok v, set_opts_dict d fr)
                  | Raise e => (Raise e, fr)
                  end) ;;
  flag <~ lift (subscript opts_ttur "if_ttur") ;;
  if truthy flag then
    lr <~ lift (subscript opts_ttur "lr") ;;
    ret (Some lr)
  else
    ret None.

Definition create_optimizer_body (params_lst : dict Params) : action frame unit :=
  ttur <~ read_ttur ;;
  modify (set_self (set_optim_lst [])) ;;;
  items <~ gets (fun fr => keys (opts_dict fr)) ;;
  for_each items (build_optimizer ttur params_lst).

(** [self.create_optimizer(params_lst, opts_dict)]: the outcome, [self] and
    the caller's [opts_dict] afterwards. *)
Definition create_optimizer (slf : alg Mod Opt Sch) (params_lst : dict Params)
    (opts : dict value) : result unit * alg Mod Opt Sch * dict value :=
  let '(r, fr) :=
    create_optimizer_body params_lst
      {| self := slf; opts_dict := opts; new_lr := None |} in
  (r, self fr, opts_dict fr).

End CreateOptimizer.

(** The optimizers of [self] after [create_optimizer]. *)
Definition built {Mod Opt Sch} (out : result unit * alg Mod Opt Sch * dict value)
  : dict Opt :=
  match optim_lst (snd (fst out)) with
  | Some d => d
  | None => []
  end.

(* ================================================================== *)
(** * [metrics.py]: arrays and tensors                                  *)
(* ================================================================== *)

(** A cv2-loaded image: a [numpy] array of dtype [uint8] and shape
    [(H, W, C)], its pixels (each in 0..255) in row-major order. *)
Record ndarray_u8 : Type := {
  im_H : nat;
  im_W : nat;
  im_C : nat;
  im_data : list Z
}.

(** The floating dtypes of torch with their precision and exponent bound. *)
Inductive float_dtype : Type := float16 | bfloat16 | float32 | float64.

Definition fmt_prec (dt : float_dtype) : Z :=
  match dt with float16 => 11 | bfloat16 => 8 | float32 => 24 | float64 => 53 end%Z.

Definition fmt_emax (dt : float_dtype) : Z :=
  match dt with float16 => 16 | bfloat16 => 128 | float32 => 128 | float64 => 1024 end%Z.

(** A floating tensor: dtype, shape and elements in row-major order, each a
    number of the format of the dtype. *)
Record tensor : Type := {
  t_dtype : float_dtype;
  t_shape : list nat;
  t_data : list spec_float
}.

(** The two representations [forward] is documented for. *)
Inductive input : Type :=
| PixelArray (a : ndarray_u8)
| FloatTensor (t : tensor).

(** What [_preprocess] returns: [None], a tensor, or (when a pixel array goes
    through the tensor branch) a [numpy] array of dtype [float64]. *)
Inductive prepared : Type :=
| PNone
| PTensor (t : tensor)
| PArray64 (shape : list nat) (data : list float).

(** Rounding of a binary64 number to the format of [dt]. *)
Definition round_to (dt : float_dtype) (f : float) : spec_float :=
  match Prim2SF f with
  | S754_finite s m e => binary_round (fmt_prec dt) (fmt_emax dt) s m e
  | x => x
  end.

Definition pixel_to_float (v : Z) : float := of_uint63 (Uint63.of_Z v).

(** [inp[:, :, ::-1]] on the row-major data of an [(H, W, C)] array. *)
Definition reverse_channels (C : nat) (data : list Z) : list Z :=
  map (fun i => nth ((i / C) * C + (C - 1 - i mod C)) data 0%Z)
      (seq 0 (List.length data)).

(** [im / (255. / 2.) - 1.] on one pixel value, in binary64. *)
Definition scale_pixel (v : Z) : float :=
  (pixel_to_float v / (255 / 2) - 1)%float.

(** [im[..., np.newaxis].transpose(3, 2, 0, 1)]: from [(H, W, C, 1)] to
    [(1, C, H, W)], on row-major data. *)
Definition to_bchw {A} (H W C : nat) (default : A) (data : list A) : list A :=
  map (fun i =>
         let c := i / (H * W) in
         let h := (i / W) mod H in
         let w := i mod W in
         nth ((h * W + w) * C + c) data default)
      (seq 0 (C * H * W)).

(** [x * 2. - 1.] on an element of a tensor of dtype [dt]. *)
Definition scale_element (dt : float_dtype) (x : spec_float) : spec_float :=
  let p := fmt_prec dt in
  let e := fmt_emax dt in
  SFsub p e (SFmul p e x (binary_normalize p e 2 0 false))
        (binary_normalize p e 1 0 false).

(** [LPIPS._preprocess(inp, mode)], lines 55-65. *)
Definition _preprocess (inp : input) (mode : string) : result prepared :=
  if String.eqb mode "im" then
    match inp with
    | PixelArray a =>
        let im := reverse_channels (im_C a) (im_data a) in
        let im := map scale_pixel im in
        let im := to_bchw (im_H a) (im_W a) (im_C a) 0%float im in
        Ok (PTensor {| t_dtype := float32;
                       t_shape := [1; im_C a; im_H a; im_W a];
                       t_data := map (round_to float32) im |})
    | FloatTensor t =>
        (* a torch tensor takes no negative slice step *)
        if Nat.ltb (List.length (t_shape t)) 3 then Raise IndexError
        else Raise ValueError
    end
  else if String.eqb mode "tensor" then
    match inp with
    | FloatTensor t =>
        Ok (PTensor {| t_dtype := t_dtype t;
                       t_shape := t_shape t;
                       t_data := map (scale_element (t_dtype t)) (t_data t) |})
    | PixelArray a =>
        Ok (PArray64 [im_H a; im_W a; im_C a]
                     (map (fun v => (pixel_to_float v * 2 - 1)%float) (im_data a)))
    end
  else
    Ok PNone.

(** [ref.dtype == np.uint8] *)
Definition dtype_is_uint8 (x : input) : bool :=
  match x with
  | PixelArray _ => true
  | FloatTensor _ => false
  end.

(** Lines 71-73 of [LPIPS.forward]: the mode, taken from [ref], and the two
    objects handed to the network. *)
Definition kernel_inputs (ref im : input) : result (prepared * prepared) :=
  let mode := if dtype_is_uint8 ref then "im" else "tensor" in
  ref' <- _preprocess ref mode ;;
  im' <- _preprocess im mode ;;
  Ok (ref', im').

(* ================================================================== *)
(** * [metrics.py]: the criteria and their registry                     *)
(* ================================================================== *)

Definition crit_lst : list string := ["PSNR"; "LPIPS"].

Section Criteria.

(** The network of the [lpips] package and the calls made on it:
    [lpips.LPIPS(net=..., spatial=...)], [.cuda()], [.forward(ref, im)] and
    [.item()] on what [forward] returns. *)
Variables Net Score : Type.
Variable lpips_LPIPS : value -> value -> result Net.
Variable cuda : Net -> result Net.
Variable lpips_forward : Net -> prepared -> prepared -> result Score.
Variable item : Score -> result float.

Record PSNR : Type := { psnr_lsb : bool }.

Record LPIPS : Type := { lpips_fn : Net; lpips_lsb : bool }.

(** An instance of one of the classes named in [crit_lst]. *)
Inductive criterion : Type :=
| IsPSNR (c : PSNR)
| IsLPIPS (c : LPIPS).

(** The attribute [lsb] ("lower is better"). *)
Definition lsb (c : criterion) : bool :=
  match c with
  | IsPSNR c => psnr_lsb c
  | IsLPIPS c => lpips_lsb c
  end.

(** [PSNR] called with keyword arguments [kwargs]: [__init__] takes none. *)
Definition PSNR_init (kwargs : dict value) : result PSNR :=
  match kwargs with
  | [] => Ok {| psnr_lsb := false |}
  | _ :: _ => Raise TypeError
  end.

(** A keyword argument, or the default of its parameter. *)
Definition kwarg (kwargs : dict value) (name : string) (default : value) : value :=
  match get kwargs name with
  | Some v => v
  | None => default
  end.

(** [LPIPS] called with keyword arguments [kwargs]; the parameters are
    [net=alex], [if_spatial=False], [if_cuda=True]. *)
Definition LPIPS_init (kwargs : dict value) : result LPIPS :=
  if forallb (fun k => existsb (String.eqb k) ["net"; "if_spatial"; "if_cuda"])
             (keys kwargs)
  then
    let net := kwarg kwargs "net" (VStr "alex") in
    let if_spatial := kwarg kwargs "if_spatial" (VBool false) in
    let if_cuda := kwarg kwargs "if_cuda" (VBool true) in
    fn <- lpips_LPIPS net if_spatial ;;
    fn <- (if truthy if_cuda then cuda fn else Ok fn) ;;
    Ok {| lpips_fn := fn; lpips_lsb := true |}
  else
    Raise TypeError.

(** [globals()[name]] for a name of [crit_lst], called with [kwargs]. *)
Definition crit_func_cls (name : string) (kwargs : dict value) : result criterion :=
  if String.eqb name "PSNR" then
    c <- PSNR_init kwargs ;; Ok (IsPSNR c)
  else if String.eqb name "LPIPS" then
    c <- LPIPS_init kwargs ;; Ok (IsLPIPS c)
  else
    Raise (KeyError name).

(** [return_crit_func(name, opts)], lines 11-17. *)
Definition return_crit_func (name : string) (opts : value) : result criterion :=
  if existsb (String.eqb name) crit_lst then
    match opts with
    | VNone => crit_func_cls name []
    | VDict kwargs => crit_func_cls name kwargs
    | _ => Raise TypeError
    end
  else
    Raise (AssertionError "NOT SUPPORTED YET!").

(** [LPIPS.forward(ref, im)], lines 67-75. *)
Definition forward (slf : LPIPS) (ref im : input) : result float :=
  p <- kernel_inputs ref im ;;
  lpips_score <- lpips_forward (lpips_fn slf) (fst p) (snd p) ;;
  item lpips_score.

End Criteria.

(* ================================================================== *)
(** * Notions used to state the properties                              *)
(* ================================================================== *)

(** ** Checkpoint items *)

Inductive bundle_kind : Type := KModule | KOptim | KSched.

(** The bundle and the component name [load_state] derives from an item
    name: the first of the three tokens the name contains decides, and a
    fixed number of leading characters is dropped. *)
Definition code_target (load_item : string) : option (bundle_kind * string) :=
  if contains "module_" load_item then Some (KModule, slice_from 7 load_item)
  else if contains "optim_" load_item then Some (KOptim, slice_from 6 load_item)
  else if contains "sched_" load_item then Some (KSched, slice_from 6 load_item)
  else None.

(** The reading of the specification, "dispatches on its prefix": the bundle
    is the one whose token the item name starts with. *)
Definition spec_target (load_item : string) : option (bundle_kind * string) :=
  if String.prefix "module_" load_item then Some (KModule, slice_from 7 load_item)
  else if String.prefix "optim_" load_item then Some (KOptim, slice_from 6 load_item)
  else if String.prefix "sched_" load_item then Some (KSched, slice_from 6 load_item)
  else None.

Definition has_entry {H} (bundle : option (dict H)) (name : string) : bool :=
  match bundle with
  | Some d => mem d name
  | None => false
  end.

(** Whether the live bundle of that kind owns a component of that name. *)
Definition bundle_has {Mod Opt Sch} (slf : alg Mod Opt Sch)
    (target : bundle_kind * string) : bool :=
  match fst target with
  | KModule => has_entry (module_lst slf) (snd target)
  | KOptim => has_entry (optim_lst slf) (snd target)
  | KSched => has_entry (sched_lst slf) (snd target)
  end.

(** ** Saved records *)

(** The entries one loop of [save_state] adds for a bundle. *)
Definition saved_entries {T H} {HH : Stateful T H} (tag : string)
    (bundle : dict H) : dict (obj T) :=
  map (fun kv => ((tag ++ fst kv)%string, OState (state_dict (snd kv)))) bundle.

(** ** Scheduler stepping *)

(** An entry of the scheduler mapping after [n] steps of its scheduler. *)
Definition stepped {T Sch} {HS : Scheduler T Sch} (n : nat) (kv : string * Sch)
  : string * Sch :=
  (fst kv, Nat.iter n step (snd kv)).

(** Whether [self] has the bundle of that kind at all. *)
Definition bundle_defined {Mod Opt Sch} (slf : alg Mod Opt Sch)
    (kind : bundle_kind) : bool :=
  match kind with
  | KModule => match module_lst slf with Some _ => true | None => false end
  | KOptim => match optim_lst slf with Some _ => true | None => false end
  | KSched => match sched_lst slf with Some _ => true | None => false end
  end.

(** ** Crash atomicity of a save *)

Definition is_truncated {T} (fs : filesystem T) (path : string) : bool :=
  match get fs path with
  | Some Truncated => true
  | _ => false
  end.

(** No crash while [ops] run leaves a truncated file at [path]. *)
Definition crash_atomic {T} (ops : list (fs_op T)) (fs : filesystem T)
    (path : string) : bool :=
  forallb (fun fs' => negb (is_truncated fs' path)) (crash_states ops fs).

Definition renames {T} (op : fs_op T) : bool :=
  match op with
  | Rename _ _ => true
  | _ => false
  end.

(** The save the specification describes: write to a temporary location,
    then rename onto the destination. *)
Definition spec_atomic_save {T} (states : dict (obj T)) (tmp path : string)
  : list (fs_op T) :=
  torch_save states tmp ++ [Rename tmp path].

(** ** The two-time-scale rule *)

(** The value of [new_lr] after the item [k], from its value before. *)
Definition rate (L : float) (k : string) (cur : option value) : option value :=
  if String.eqb k "gen" then Some (VFloat (L / 2)%float)
  else if String.eqb k "dis" then Some (VFloat (L * 2)%float)
  else cur.

Definition rate_after (L : float) (pre : list string) (cur : option value)
  : option value :=
  fold_left (fun cur k => rate L k cur) pre cur.

(** The last item named [gen] or [dis] in a list of items. *)
Definition last_gen_dis (pre : list string) : option string :=
  find (fun k => String.eqb k "gen" || String.eqb k "dis") (rev pre).

(** The options a constructor receives for item [k]: untouched when the rule
    is off, with [lr] overwritten by the current [new_lr] when it is on. *)
Definition passed_opts (ttur : option float) (k : string) (cur : option value)
    (opts : value) : option value :=
  match ttur with
  | None => Some opts
  | Some L =>
      match rate L k cur, opts with
      | Some x, VDict op => Some (VDict (setitem op "lr" x))
      | _, _ => None
      end
  end.

(** The value of [new_lr] when an item is reached after the items [pre]. *)
Definition new_lr_before (ttur : option float) (pre : list string)
    (cur : option value) : option value :=
  match ttur with
  | Some L => rate_after L pre cur
  | None => cur
  end.

(** An options object with its [lr] overwritten by [x]. *)
Definition with_lr (x : value) (own : value) : option value :=
  match own with
  | VDict op => Some (VDict (setitem op "lr" x))
  | _ => None
  end.

(** The optimizer [o] of component [k] is the one [return_optimizer] built
    from the [type] and the parameters of [k] and from the options [p] that
    [passed] makes of the own options of [k] in the caller's [opts]; [p] is
    also what the caller's options hold for [k] afterwards ([opts']). *)
Definition constructed_from {Params Opt}
    (return_optimizer : value -> Params -> value -> result Opt)
    (params_lst : dict Params) (opts opts' : dict value) (k : string)
    (passed : value -> option value) (o : Opt) : Prop :=
  exists entry ty ps own p entry',
    get opts k = Some entry
    /\ subscript entry "type" = Ok ty
    /\ subscript entry "opts" = Ok own
    /\ get params_lst k = Some ps
    /\ passed own = Some p
    /\ return_optimizer ty ps p = Ok o
    /\ get opts' k = Some entry'
    /\ subscript entry' "opts" = Ok p.

(** ** The documented normalisation of the LPIPS inputs *)

(** What the specification asks for each input on its own: a pixel array is
    reordered to RGB and mapped by [value/127.5 - 1], a floating tensor is
    mapped by [2*value - 1]. *)
Definition spec_normalize (inp : input) : result prepared :=
  match inp with
  | PixelArray _ => _preprocess inp "im"
  | FloatTensor _ => _preprocess inp "tensor"
  end.

(** The pixel [a[h, w, c]] of an image. *)
Definition pixel (a : ndarray_u8) (h w c : nat) : Z :=
  nth ((h * im_W a + w) * im_C a + c) (im_data a) 0%Z.

(** The element [t[0, c, h, w]] of a tensor of shape [(1, C, H, W)]. *)
Definition element (t : tensor) (H W c h w : nat) : spec_float :=
  nth ((c * H + h) * W + w) (t_data t) S754_nan.

(** [t] is the image [a] normalised as documented: a [float32] tensor of
    shape [(1, C, H, W)] whose channel [c] holds channel [C - 1 - c] of the
    image (BGR read as RGB), each pixel value [v] mapped to
    [v / 127.5 - 1]. *)
Definition normalised_image (a : ndarray_u8) (t : tensor) : Prop :=
  t_dtype t = float32
  /\ t_shape t = [1; im_C a; im_H a; im_W a]
  /\ List.length (t_data t) = im_C a * im_H a * im_W a
  /\ (List.length (im_data a) = im_H a * im_W a * im_C a ->
      forall c h w, c < im_C a -> h < im_H a -> w < im_W a ->
        element t (im_H a) (im_W a) c h w
        = round_to float32
            (pixel_to_float (pixel a h w (im_C a - 1 - c)) / 127.5 - 1)%float).

(** The numbers 2 and 1 in the format of a dtype. *)
Definition two_of (dt : float_dtype) : spec_float :=
  binary_normalize (fmt_prec dt) (fmt_emax dt) 2 0 false.

Definition one_of (dt : float_dtype) : spec_float :=
  binary_normalize (fmt_prec dt) (fmt_emax dt) 1 0 false.

(** The tensor [t] with every element [x] mapped to [x * 2 - 1], computed in
    the format of its dtype. *)
Definition scaled_tensor (t : tensor) : tensor :=
  {| t_dtype := t_dtype t;
     t_shape := t_shape t;
     t_data := map (fun x =>
                      SFsub (fmt_prec (t_dtype t)) (fmt_emax (t_dtype t))
                        (SFmul (fmt_prec (t_dtype t)) (fmt_emax (t_dtype t))
                           x (two_of (t_dtype t)))
                        (one_of (t_dtype t)))
                   (t_data t) |}.

(* ================================================================== *)
(** * Handles used in the examples                                      *)
(* ================================================================== *)

Definition same_keys {A B} (d : dict A) (sd : dict B) : bool :=
  forallb (mem sd) (keys d) && forallb (mem d) (keys sd).

(** A module as torch loads one: [load_state_dict] is strict, the keys of
    the mapping have to be exactly the parameter names of the module.  On
    a mismatch torch copies the parameters whose names do match before it
    raises; the model leaves the module as it was, which is the same
    whenever no name matches, as at every failing load evaluated below. *)
Record strict_module : Type := { parameters : dict Z }.

Definition strict_load (m : strict_module) (o : obj Z) : result strict_module :=
  match o with
  | OState sd =>
      if same_keys (parameters m) sd then
        Ok {| parameters :=
                map (fun kv => (fst kv, match get sd (fst kv) with
                                        | Some v => v
                                        | None => snd kv
                                        end))
                    (parameters m) |}
      else Raise RuntimeError
  | OInt _ => Raise TypeError
  end.

#[global] Instance strict_module_stateful : Stateful Z strict_module := {
  state_dict := parameters;
  load_state_dict := strict_load
}.

(** An optimizer that keeps whatever state dictionary it is given. *)
Record plain_optim : Type := { optim_state : dict Z }.

#[global] Instance plain_optim_stateful : Stateful Z plain_optim := {
  state_dict := optim_state;
  load_state_dict := fun _ o =>
    match o with
    | OState sd => Ok {| optim_state := sd |}
    | OInt _ => Raise TypeError
    end
}.

(** A scheduler reduced to its step counter. *)
Record counting_sched : Type := { last_epoch : Z }.

#[global] Instance counting_sched_stateful : Stateful Z counting_sched := {
  state_dict := fun s => [("last_epoch", last_epoch s)];
  load_state_dict := fun s o =>
    match o with
    | OState sd => Ok {| last_epoch := match get sd "last_epoch" with
                                        | Some n => n
                                        | None => last_epoch s
                                        end |}
    | OInt _ => Raise TypeError
    end
}.

#[global] Instance counting_sched_scheduler : Scheduler Z counting_sched := {
  sched_stateful := counting_sched_stateful;
  step := fun s => {| last_epoch := last_epoch s + 1 |};
  step_count := last_epoch;
  step_count_step := fun s => eq_refl
}.

(** A constructor that records what it is called with. *)
Definition record_optimizer (name : value) (params : nat) (opts : value)
  : result (value * nat * value) :=
  Ok (name, params, opts).

(** ** Inputs of the examples *)

(** A module wrapped for distributed training: every parameter name carries
    the token. *)
Definition wrapped_gen : strict_module :=
  {| parameters := [("module.weight", 1%Z); ("module.bias", 2%Z)] |}.

(** The same module, not wrapped. *)
Definition plain_gen : strict_module :=
  {| parameters := [("weight", 1%Z); ("bias", 2%Z)] |}.

Definition example_alg (gen : strict_module)
  : alg strict_module plain_optim counting_sched :=
  {| module_lst := Some [("gen", gen)];
     optim_lst := Some [("gen", {| optim_state := [("momentum", 3%Z)] |})];
     sched_lst := Some [("gen", {| last_epoch := 4%Z |})] |}.

Definition all_items : list string := ["module_gen"; "optim_gen"; "sched_gen"].

(** A stand-in for the network of the [lpips] package: it records how it
    was built and whether it was moved to the GPU; its [forward] hands back
    the two objects it receives. *)
Record probe_net : Type := {
  probe_net_name : value;
  probe_spatial : value;
  probe_on_cuda : bool
}.

Definition probe_LPIPS (net spatial : value) : result probe_net :=
  Ok {| probe_net_name := net; probe_spatial := spatial; probe_on_cuda := false |}.

Definition probe_cuda (n : probe_net) : result probe_net :=
  Ok {| probe_net_name := probe_net_name n; probe_spatial := probe_spatial n;
        probe_on_cuda := true |}.

Definition probe_forward (n : probe_net) (ref im : prepared)
  : result (prepared * prepared) :=
  Ok (ref, im).

Definition probe_item (score : prepared * prepared) : result float :=
  Ok 0.5%float.

(** A 1 x 2 image in BGR order and a [float32] tensor of shape (3, 1, 2). *)
Definition sample_image : ndarray_u8 :=
  {| im_H := 1; im_W := 2; im_C := 3;
     im_data := [0; 51; 255; 102; 153; 204]%Z |}.

Definition sample_tensor : tensor :=
  {| t_dtype := float32; t_shape := [3; 1; 2];
     t_data := map (round_to float32)
                   [0; 0.25; 0.5; 0.75; 1; 0.125]%float |}.

Definition probe_lpips : LPIPS probe_net :=
  {| lpips_fn := {| probe_net_name := VStr "alex"; probe_spatial := VBool false;
                    probe_on_cuda := true |};
     lpips_lsb := true |}.

(** An older checkpoint already at the path of the next save. *)
Definition old_checkpoint : filesystem Z :=
  [("ckp.pt", Saved [("iter", OInt 1)]); ("log.txt", Saved [])].

(** A checkpoint saved without schedulers. *)
Definition partial_checkpoint : filesystem Z :=
  [("ckp.pt", Saved [("iter", OInt 5);
                     ("module_gen", OState [("weight", 7%Z); ("bias", 8%Z)]);
                     ("optim_gen", OState [("momentum", 9%Z)])])].

(** [example_alg] without its optimizer. *)
Definition no_optim_alg : alg strict_module plain_optim counting_sched :=
  {| module_lst := Some [("gen", plain_gen)];
     optim_lst := Some [];
     sched_lst := Some [("gen", {| last_epoch := 4%Z |})] |}.

(** A checkpoint holding the state of an optimizer named [module_a], and an
    orchestrator that owns no optimizer but a module named [odule_a]. *)
Definition stray_checkpoint : filesystem Z :=
  [("ckp.pt", Saved [("iter", OInt 0);
                     ("optim_module_a", OState [("w", 1%Z)])])].

Definition stray_alg (w : Z) : alg strict_module plain_optim counting_sched :=
  {| module_lst := Some [("odule_a", {| parameters := [("w", w)] |})];
     optim_lst := Some [];
     sched_lst := Some [] |}.

(** An orchestrator that owns an optimizer named [module_a], beside its
    module [gen]. *)
Definition owner_alg : alg strict_module plain_optim counting_sched :=
  {| module_lst := Some [("gen", plain_gen)];
     optim_lst := Some [("module_a", {| optim_state := [("w", 1%Z)] |})];
     sched_lst := Some [] |}.

(** Optimizer options: a [TTUR] entry and one entry per listed component,
    each with its own learning rate 1. *)
Definition optimizer_entry : value :=
  VDict [("type", VStr "Adam");
         ("opts", VDict [("lr", VFloat 1); ("betas", VStr "0.9, 0.999")])].

Definition optimizer_opts (if_ttur : bool) (components : list string)
  : dict value :=
  ("TTUR", VDict [("if_ttur", VBool if_ttur); ("lr", VFloat 0.5)])
  :: map (fun k => (k, optimizer_entry)) components.

Definition optimizer_params : dict nat := [("gen", 1); ("dis", 2); ("aux", 3)].

Definition no_alg : alg unit (value * nat * value) unit :=
  {| module_lst := None; optim_lst := None; sched_lst := None |}.

(* ================================================================== *)
(** * The other [create_*] methods of [BaseAlg]                         *)
(* ================================================================== *)

(** The loop shared by [create_loss_func], [create_scheduler] and
    [create_criterion]: [for k in ks: d[k] = make(k)], where building the
    value does not read [d]. *)
Definition build_dict {V} (make : string -> result V) (ks : list string)
  : action (dict V) unit :=
  for_each ks (fun k => v <~ lift (make k) ;; modify (fun d => setitem d k v)).

(** [opts_dict[k][field]] *)
Definition option_field (opts_dict : dict value) (k field : string) : result value :=
  entry <- getitem opts_dict k ;; subscript entry field.

Section CreateLoss.

(** [return_loss_func(name=..., opts=...)] of [deep_learning] and [.cuda()]
    on what it returns. *)
Variable LossFn : Type.
Variable return_loss_func : string -> value -> result LossFn.
Variable loss_cuda : LossFn -> result LossFn.

(** An entry of [self.loss_lst]. *)
Record loss_entry : Type := { loss_weight : value; loss_fn : LossFn }.

(** Lines 63-69: the entry stored for [loss_name]. *)
Definition loss_entry_for (opts_dict : dict value) (if_use_cuda : bool)
    (loss_name : string) : result loss_entry :=
  opts <- option_field opts_dict loss_name "opts" ;;
  loss_func <- return_loss_func loss_name opts ;;
  loss_func <- (if if_use_cuda then loss_cuda loss_func else Ok loss_func) ;;
  weight <- option_field opts_dict loss_name "weight" ;;
  Ok {| loss_weight := weight; loss_fn := loss_func |}.

(** [self.create_loss_func(opts_dict, if_use_cuda)]: the outcome and
    [self.loss_lst] afterwards. *)
Definition create_loss_func (opts_dict : dict value) (if_use_cuda : bool)
  : result unit * dict loss_entry :=
  build_dict (loss_entry_for opts_dict if_use_cuda) (keys opts_dict) [].

End CreateLoss.

Section CreateScheduler.
Context {Mod Opt Sch : Type}.

(** [return_scheduler(name=..., optim=..., opts=...)] of [deep_learning]. *)
Variable return_scheduler : value -> Opt -> value -> result Sch.

(** Lines 118-123: the scheduler built for [sched_item]. *)
Definition scheduler_for (optim_lst : dict Opt) (opts_dict : dict value)
    (sched_item : string) : result Sch :=
  name <- option_field opts_dict sched_item "type" ;;
  optim <- getitem optim_lst sched_item ;;
  opts <- option_field opts_dict sched_item "opts" ;;
  return_scheduler name optim opts.

(** [self.create_scheduler(optim_lst, opts_dict)] *)
Definition create_scheduler (optim_lst : dict Opt) (opts_dict : dict value)
  : action (alg Mod Opt Sch) unit :=
  modify (set_sched_lst []) ;;;
  for_each (keys opts_dict)
    (fun sched_item =>
       sched <~ lift (scheduler_for optim_lst opts_dict sched_item) ;;
       scheds <~ (fun slf => (attr (sched_lst slf), slf)) ;;
       modify (set_sched_lst (setitem scheds sched_item sched))).

End CreateScheduler.

Section CreateCriterion.
Variable Net : Type.
Variable lpips_LPIPS : value -> value -> result Net.
Variable cuda : Net -> result Net.

(** An entry of [self.crit_lst]. *)
Record crit_entry : Type := { crit_fn : criterion Net; crit_unit : value }.

(** Lines 137-142: the entry stored for [crit_item]. *)
Definition crit_entry_for (opts_dict : dict value) (crit_item : string)
  : result crit_entry :=
  opts <- option_field opts_dict crit_item "opts" ;;
  fn <- return_crit_func lpips_LPIPS cuda crit_item opts ;;
  unit <- option_field opts_dict crit_item "unit" ;;
  Ok {| crit_fn := fn; crit_unit := unit |}.

(** [self.create_criterion(opts_dict)]: the outcome and [self.crit_lst]
    afterwards. *)
Definition create_criterion (opts_dict : dict value)
  : result unit * dict crit_entry :=
  build_dict (crit_entry_for opts_dict) (keys opts_dict) [].

End CreateCriterion.

(* ================================================================== *)
(** * [set_train_mode], [set_eval_mode] and [create_model]              *)
(* ================================================================== *)

(** A module of torch as far as its mode goes: [m.train()] and [m.eval()]
    set the flag [m.training]. *)
Class Trainable (M : Type) : Type := {
  module_train : M -> M;
  module_eval : M -> M;
  training : M -> bool;
  training_train : forall m, training (module_train m) = true;
  training_eval : forall m, training (module_eval m) = false
}.

(** [for mod_key in module_lst: module_lst[mod_key].method()], for a method
    that changes the module in place. *)
Definition call_all {M} (method : M -> M) (mods : dict M) : result (dict M) :=
  fold_left
    (fun acc mod_key =>
       mods <- acc ;;
       m <- getitem mods mod_key ;;
       Ok (setitem mods mod_key (method m)))
    (keys mods) (Ok mods).

Section Modes.
Context {Mod Opt Sch : Type} {HT : Trainable Mod}.

Definition set_mode (method : Mod -> Mod) : action (alg Mod Opt Sch) unit :=
  mods <~ (fun slf => (attr (module_lst slf), slf)) ;;
  mods' <~ lift (call_all method mods) ;;
  modify (set_module_lst mods').

Definition set_train_mode : action (alg Mod Opt Sch) unit := set_mode module_train.

Definition set_eval_mode : action (alg Mod Opt Sch) unit := set_mode module_eval.

End Modes.

Section CreateModel.
Context {Mod Opt Sch : Type}.

(** The constructor of the model (what counts of the model is its
    [module_lst]) and the three calls of lines 28-30: [.cuda()],
    [nn.SyncBatchNorm.convert_sync_batchnorm] and [DDP]. *)
Variable model_cls : bool -> value -> result (dict Mod).
Variables to_cuda convert_sync_batchnorm DDP : Mod -> result Mod.

(** [module_lst[mod_item] = f(module_lst[mod_item])].  Line 28 drops what
    [.cuda()] returns, but [.cuda()] moves the module in place and returns
    it, so the entry holds the moved module all the same. *)
Definition update_module (f : Mod -> result Mod) (mod_item : string)
  : action (alg Mod Opt Sch) unit :=
  mods <~ (fun slf => (attr (module_lst slf), slf)) ;;
  m <~ lift (getitem mods mod_item) ;;
  m' <~ lift (f m) ;;
  modify (set_module_lst (setitem mods mod_item m')).

(** The body of the loop, lines 28-30. *)
Definition wrap_module (mod_item : string) : action (alg Mod Opt Sch) unit :=
  update_module to_cuda mod_item ;;;
  update_module convert_sync_batchnorm mod_item ;;;
  update_module DDP mod_item.

(** [self.create_model(model_cls, if_train, opts_dict)] *)
Definition create_model (if_train : bool) (opts_dict : value)
  : action (alg Mod Opt Sch) unit :=
  mods <~ lift (model_cls if_train opts_dict) ;;
  modify (set_module_lst mods) ;;;
  for_each (keys mods) wrap_module.

End CreateModel.

(* ================================================================== *)
(** * Further notions used to state properties                          *)
(* ================================================================== *)

(** The value of the last entry of [sd] whose key is renamed to [k']. *)
Fixpoint last_value {V} (rename : string -> string) (sd : dict V) (k' : string)
  : option V :=
  match sd with
  | [] => None
  | (k, v) :: sd' =>
      match last_value rename sd' k' with
      | Some v' => Some v'
      | None => if String.eqb (rename k) k' then Some v else None
      end
  end.

(** A float lies between -1 and 1. *)
Definition in_unit_range (f : float) : bool :=
  PrimFloat.leb (-1)%float f && PrimFloat.leb f 1%float.

(** The three calls of [create_model] in a row. *)
Definition wrapped_by {Mod} (to_cuda convert_sync_batchnorm DDP : Mod -> result Mod)
    (m : Mod) : result Mod :=
  m1 <- to_cuda m ;; m2 <- convert_sync_batchnorm m1 ;; DDP m2.

(** ** Handles and inputs of the further examples *)

(** A module reduced to its mode flag and to a record of the wrappers
    applied to it. *)
Record mode_module : Type := { is_training : bool; wrappers : list string }.

#[global] Instance mode_module_trainable : Trainable mode_module := {
  module_train := fun m => {| is_training := true; wrappers := wrappers m |};
  module_eval := fun m => {| is_training := false; wrappers := wrappers m |};
  training := is_training;
  training_train := fun m => eq_refl;
  training_eval := fun m => eq_refl
}.

Definition add_wrapper (w : string) (m : mode_module) : result mode_module :=
  Ok {| is_training := is_training m; wrappers := wrappers m ++ [w] |}.

Definition two_modules : dict mode_module :=
  [("gen", {| is_training := true; wrappers := [] |});
   ("dis", {| is_training := false; wrappers := [] |})].

Definition mode_alg : alg mode_module plain_optim counting_sched :=
  {| module_lst := Some two_modules; optim_lst := None; sched_lst := None |}.

(** Constructors that record what they are called with. *)
Definition record_loss (name : string) (opts : value) : result (string * value) :=
  Ok (name, opts).

Definition record_scheduler (name : value) (optim : value * nat * value)
    (opts : value) : result (value * (value * nat * value) * value) :=
  Ok (name, optim, opts).

Definition loss_opts : dict value :=
  [("L1", VDict [("weight", VFloat 1); ("opts", VNone)]);
   ("GAN", VDict [("weight", VFloat 0.5); ("opts", VDict [("mode", VStr "ls")])])].

Definition sched_opts : dict value :=
  [("gen", VDict [("type", VStr "Cosine"); ("opts", VDict [("T_max", VInt 100)])])].

Definition crit_opts : dict value :=
  [("PSNR", VDict [("opts", VNone); ("unit", VStr "dB")]);
   ("LPIPS", VDict [("opts", VDict [("if_cuda", VBool false)]); ("unit", VStr "")])].

(** Moving a recorded loss to the GPU marks its name. *)
Definition record_loss_cuda (fn : string * value) : result (string * value) :=
  Ok (("cuda:" ++ fst fn)%string, snd fn).

(** Two optimizers as [record_optimizer] builds them, and an orchestrator
    on which no [create_*] method has run. *)
Definition built_optims : dict (value * nat * value) :=
  [("gen", (VStr "Adam", 1, VNone)); ("dis", (VStr "Adam", 2, VNone))].

Definition bare_alg
  : alg unit (value * nat * value) (value * (value * nat * value) * value) :=
  {| module_lst := None; optim_lst := None; sched_lst := None |}.

(** The element a pixel value becomes in the image branch of
    [_preprocess] (lines 59 and 62), read as a binary64 number. *)
Definition pixel_element (v : Z) : float :=
  SF2Prim (round_to float32 (scale_pixel v)).

Unset Implicit Arguments.

(* ================================================================== *)
(** * Dictionary facts                                                  *)
(* ================================================================== *)

Section DictFacts.
Context {V : Type}.
Implicit Types (d : dict V) (k : string) (v : V).

Lemma get_setitem_same d k v : get (setitem d k v) k = Some v.
Proof.
  induction d as [|[k' v'] d IH]; simpl.
  - now rewrite String.eqb_refl.
  - destruct (String.eqb k' k) eqn:E; simpl; now rewrite E.
Qed.

Lemma get_setitem_other d k k' v :
  k' <> k -> get (setitem d k v) k' = get d k'.
Proof.
  intros Hne. induction d as [|[k0 v0] d IH]; simpl.
  - destruct (String.eqb_spec k k'); congruence.
  - destruct (String.eqb_spec k0 k) as [->|Hk]; simpl.
    + destruct (String.eqb_spec k k'); congruence.
    + destruct (String.eqb_spec k0 k'); auto.
Qed.

Lemma keys_setitem_present d k v :
  In k (keys d) -> keys (setitem d k v) = keys d.
Proof.
  induction d as [|[k0 v0] d IH]; simpl; [tauto|].
  intros Hin. destruct (String.eqb_spec k0 k) as [->|Hk]; simpl; auto.
  f_equal. apply IH. destruct Hin; congruence.
Qed.

Lemma setitem_fresh d k v :
  ~ In k (keys d) -> setitem d k v = d ++ [(k, v)].
Proof.
  induction d as [|[k0 v0] d IH]; simpl; auto.
  intros Hn. destruct (String.eqb_spec k0 k) as [->|Hk].
  - exfalso. apply Hn. now left.
  - f_equal. apply IH. intros Hin. apply Hn. now right.
Qed.

Lemma get_None_not_in d k : get d k = None <-> ~ In k (keys d).
Proof.
  induction d as [|[k0 v0] d IH]; simpl.
  - tauto.
  - destruct (String.eqb_spec k0 k) as [->|Hk].
    + split; [discriminate|]. intros H. exfalso. apply H. now left.
    + rewrite IH. split; intros H; [intros [?|?]; [congruence|tauto] | tauto].
Qed.

Lemma get_Some_in d k v : get d k = Some v -> In (k, v) d.
Proof.
  induction d as [|[k0 v0] d IH]; simpl; [discriminate|].
  destruct (String.eqb_spec k0 k) as [->|Hk].
  - intros [= ->]. now left.
  - intros H. right. now apply IH.
Qed.

Lemma in_get_nodup d k v :
  NoDup (keys d) -> In (k, v) d -> get d k = Some v.
Proof.
  induction d as [|[k0 v0] d IH]; simpl; [tauto|].
  intros Hnd [Heq|Hin].
  - injection Heq as -> ->. now rewrite String.eqb_refl.
  - inversion Hnd as [|? ? Hnot Hnd']; subst.
    destruct (String.eqb_spec k0 k) as [->|Hk].
    + exfalso. apply Hnot. change k with (fst (k, v)). now apply in_map.
    + now apply IH.
Qed.
End DictFacts.

Section MoreDictFacts.
Context {V : Type}.
Implicit Types (d : dict V) (k : string) (v : V).

Lemma keys_app d d' : keys (d ++ d') = keys d ++ keys d'.
Proof. unfold keys. apply map_app. Qed.

Lemma get_app_notin d d' k :
  ~ In k (keys d) -> get (d ++ d') k = get d' k.
Proof.
  induction d as [|[k0 v0] d IH]; simpl; auto.
  intros Hn. destruct (String.eqb_spec k0 k) as [->|Hk]; [tauto|].
  apply IH. tauto.
Qed.

Lemma setitem_app_notin d d' k v :
  ~ In k (keys d) -> setitem (d ++ d') k v = d ++ setitem d' k v.
Proof.
  induction d as [|[k0 v0] d IH]; simpl; auto.
  intros Hn. destruct (String.eqb_spec k0 k) as [->|Hk]; [tauto|].
  f_equal. apply IH. tauto.
Qed.

Lemma keys_setitem_mem d k v :
  mem d k = true -> keys (setitem d k v) = keys d.
Proof.
  unfold mem. intros H. apply keys_setitem_present.
  destruct (get d k) eqn:E; [|discriminate].
  apply get_Some_in in E. change k with (fst (k, v0)). now apply in_map.
Qed.

Lemma mem_setitem d k k' v :
  mem d k = true -> mem (setitem d k v) k' = mem d k'.
Proof.
  intros H. unfold mem. destruct (String.eqb_spec k' k) as [->|Hne].
  - rewrite get_setitem_same. unfold mem in H. now destruct (get d k).
  - now rewrite get_setitem_other.
Qed.

Lemma get_remove_other d k k' :
  k' <> k -> get (remove d k) k' = get d k'.
Proof.
  intros Hne. induction d as [|[k0 v0] d IH]; simpl; auto.
  destruct (String.eqb_spec k0 k) as [->|Hk]; simpl.
  - destruct (String.eqb_spec k k'); congruence.
  - destruct (String.eqb_spec k0 k'); auto.
Qed.

Lemma keys_remove_incl d k k' : In k' (keys (remove d k)) -> In k' (keys d).
Proof.
  induction d as [|[k0 v0] d IH]; simpl; auto.
  destruct (String.eqb_spec k0 k) as [->|Hk]; simpl; tauto.
Qed.

Lemma nodup_keys_remove d k : NoDup (keys d) -> NoDup (keys (remove d k)).
Proof.
  induction d as [|[k0 v0] d IH]; simpl; auto.
  intros Hnd. inversion Hnd as [|? ? Hnot Hnd']; subst.
  destruct (String.eqb_spec k0 k) as [->|Hk]; simpl; auto.
  constructor; auto. intros Hin. apply Hnot. eapply keys_remove_incl; eauto.
Qed.

Lemma not_in_keys_remove d k : NoDup (keys d) -> ~ In k (keys (remove d k)).
Proof.
  induction d as [|[k0 v0] d IH]; simpl; auto.
  intros Hnd. inversion Hnd as [|? ? Hnot Hnd']; subst.
  destruct (String.eqb_spec k0 k) as [->|Hk]; simpl; auto.
  intros [?|?]; [congruence|]. now apply IH.
Qed.

Lemma in_keys_remove d k k' :
  In k' (keys d) -> k' <> k -> In k' (keys (remove d k)).
Proof.
  induction d as [|[k0 v0] d IH]; simpl; auto.
  intros [->|Hin] Hne.
  - destruct (String.eqb_spec k' k); [congruence|]. now left.
  - destruct (String.eqb_spec k0 k); auto. right. now apply IH.
Qed.
End MoreDictFacts.

(* ================================================================== *)
(** * Parameter-name reconciliation                                     *)
(* ================================================================== *)

Section Reconciliation.
Context {T : Type}.
Implicit Types (sd : dict T).

Lemma append_string_inj (p a b : string) : (p ++ a = p ++ b)%string -> a = b.
Proof. induction p; simpl; intros H; [auto | injection H; auto]. Qed.

(** Adding the token keeps every entry and its position. *)
Lemma add_module_map sd :
  NoDup (keys sd) ->
  add_module sd = map (fun kv => (("module." ++ fst kv)%string, snd kv)) sd.
Proof.
  unfold add_module.
  set (g := fun kv : string * T => (("module." ++ fst kv)%string, snd kv)).
  set (f := fun (acc : dict T) (kv : string * T) =>
              setitem acc ("module." ++ fst kv)%string (snd kv)).
  assert (Hgen : forall todo acc,
             NoDup (keys acc ++ keys (map g todo)) ->
             fold_left f todo acc = acc ++ map g todo).
  { induction todo as [|[k v] todo IH]; intros acc Hnd; simpl.
    - now rewrite app_nil_r.
    - rewrite IH.
      + unfold f at 1. simpl. rewrite setitem_fresh.
        * now rewrite <- app_assoc.
        * simpl in Hnd. apply NoDup_remove_2 in Hnd.
          intros Hin. apply Hnd. apply in_or_app. now left.
      + unfold f. simpl. rewrite setitem_fresh.
        * rewrite keys_app. simpl. rewrite <- app_assoc. exact Hnd.
        * simpl in Hnd. apply NoDup_remove_2 in Hnd.
          intros Hin. apply Hnd. apply in_or_app. now left. }
  intros Hnd. rewrite Hgen; auto. simpl.
  replace (keys (map g sd))
    with (map (fun s : string => ("module." ++ s)%string) (keys sd)).
  - apply Injective_map_NoDup; auto.
    intros a b. apply append_string_inj.
  - unfold keys. rewrite !map_map. reflexivity.
Qed.

(** The branch taken is decided by the first key and the flag alone. *)
Lemma module_state_to_load_strips sd k0 :
  first_key sd = Ok k0 -> contains "module." k0 = true ->
  module_state_to_load true (OState sd) = Ok (OState (remove_module sd)).
Proof.
  intros Hk Hc. unfold module_state_to_load. simpl. rewrite Hk. simpl.
  now rewrite Hc.
Qed.

Lemma module_state_to_load_adds sd k0 :
  first_key sd = Ok k0 -> contains "module." k0 = false ->
  module_state_to_load true (OState sd) = Ok (OState (add_module sd)).
Proof.
  intros Hk Hc. unfold module_state_to_load. simpl. rewrite Hk. simpl.
  now rewrite Hc.
Qed.

Lemma module_state_to_load_not_dist sd k0 :
  first_key sd = Ok k0 ->
  module_state_to_load false (OState sd) = Ok (OState sd).
Proof.
  intros Hk. unfold module_state_to_load. simpl. rewrite Hk. simpl.
  now rewrite !andb_false_r.
Qed.

(** X3: a saved state whose first key does not contain the token, loaded
    for distributed training: every key gains the token, values and order
    are kept. *)
Lemma unprefixed_distributed_gains_prefix sd k0 :
  NoDup (keys sd) ->
  first_key sd = Ok k0 -> contains "module." k0 = false ->
  module_state_to_load true (OState sd)
  = Ok (OState (map (fun kv => (("module." ++ fst kv)%string, snd kv)) sd)).
Proof.
  intros Hnd Hk Hc. rewrite (module_state_to_load_adds _ _ Hk Hc).
  now rewrite add_module_map.
Qed.
End Reconciliation.

(** C1: a saved state whose first key carries the token, loaded with
    [if_dist = True], should reach the module unchanged.  The code takes the
    first branch of lines 164-169 instead: for the wrapped module of the
    example the mapping handed to [load_state_dict] has lost the token on
    every key, and the strict load of the wrapped module then raises. *)
Theorem C1_prefixed_distributed_load_strips_token :
  module_state_to_load true (OState (parameters wrapped_gen))
  = Ok (OState [("weight", 1%Z); ("bias", 2%Z)])
  /\ load_item [("iter", OInt 5); ("module_gen", OState (parameters wrapped_gen))]
               true "module_gen" (example_alg wrapped_gen)
     = (Raise RuntimeError, example_alg wrapped_gen).
Proof. split; reflexivity. Qed.

(** C2: a saved state whose keys carry the token, loaded with
    [if_dist = False], should lose the token on every key.  The code reaches
    the last branch (line 177) and hands the saved mapping over as it is, so
    the load into the module that is not wrapped raises. *)
Theorem C2_prefixed_single_load_keeps_token :
  module_state_to_load false (OState (parameters wrapped_gen))
  = Ok (OState [("module.weight", 1%Z); ("module.bias", 2%Z)])
  /\ load_item [("iter", OInt 5); ("module_gen", OState (parameters wrapped_gen))]
               false "module_gen" (example_alg plain_gen)
     = (Raise RuntimeError, example_alg plain_gen).
Proof. split; reflexivity. Qed.

(* ================================================================== *)
(** * Scheduler stepping                                                *)
(* ================================================================== *)

Section Stepping.
Context {T Mod Opt Sch : Type} {HS : Scheduler T Sch}.

Lemma keys_map_stepped n (scheds : dict Sch) :
  keys (map (stepped n) scheds) = keys scheds.
Proof. unfold keys. rewrite map_map. reflexivity. Qed.

Lemma get_map_stepped n (scheds : dict Sch) name :
  get (map (stepped n) scheds) name
  = option_map (Nat.iter n step) (get scheds name).
Proof.
  induction scheds as [|[k s] scheds IH]; simpl; auto.
  destruct (String.eqb k name); auto.
Qed.

(** One pass of the loop steps every scheduler once and moves none. *)
Lemma step_all_map (scheds : dict Sch) :
  NoDup (keys scheds) ->
  step_all scheds = Ok (map (stepped 1) scheds).
Proof.
  unfold step_all.
  assert (Hgen : forall todo done,
             NoDup (keys done ++ keys todo) ->
             fold_left
               (fun acc sched_item =>
                  scheds <- acc ;;
                  s <- getitem scheds sched_item ;;
                  Ok (setitem scheds sched_item (step s)))
               (keys todo) (Ok (map (stepped 1) done ++ todo))
             = Ok (map (stepped 1) (done ++ todo))).
  { induction todo as [|[k s] todo IH]; intros done Hnd.
    - simpl. now rewrite !app_nil_r.
    - assert (Hk : ~ In k (keys (map (stepped 1) done))).
      { rewrite keys_map_stepped. simpl in Hnd.
        apply NoDup_remove_2 in Hnd. intros Hin. apply Hnd.
        apply in_or_app. now left. }
      cbn [keys map fst fold_left Py.bind]. unfold getitem.
      rewrite (get_app_notin _ _ _ Hk). cbn [get]. rewrite String.eqb_refl.
      cbn [Py.bind]. rewrite (setitem_app_notin _ _ _ _ Hk).
      cbn [setitem]. rewrite String.eqb_refl.
      specialize (IH (done ++ [(k, s)])).
      rewrite map_app in IH. cbn [map] in IH. rewrite <- !app_assoc in IH.
      cbn [app] in IH. unfold stepped at 2 in IH. cbn [fst snd Nat.iter] in IH.
      apply IH.
      rewrite keys_app. cbn [keys map fst]. rewrite <- app_assoc. exact Hnd. }
  intros Hnd. exact (Hgen scheds [] Hnd).
Qed.

Lemma update_lr_run (slf : alg Mod Opt Sch) scheds :
  sched_lst slf = Some scheds -> NoDup (keys scheds) ->
  update_lr slf = (Ok tt, set_sched_lst (map (stepped 1) scheds) slf).
Proof.
  intros Hs Hnd. unfold update_lr, abind, lift, modify.
  rewrite Hs. cbn [attr]. now rewrite step_all_map.
Qed.

Lemma map_stepped_succ n (scheds : dict Sch) :
  map (stepped n) (map (stepped 1) scheds) = map (stepped (S n)) scheds.
Proof.
  rewrite map_map. apply map_ext. intros [k s]. unfold stepped. cbn [fst snd].
  f_equal. change (Nat.iter 1 step s) with (step s).
  symmetry. apply Nat.iter_succ_r.
Qed.

Lemma map_stepped_zero (scheds : dict Sch) : map (stepped 0) scheds = scheds.
Proof.
  induction scheds as [|[k s] scheds IH]; simpl; [reflexivity|].
  now rewrite IH.
Qed.

Lemma update_lr_times_run k : forall (slf : alg Mod Opt Sch) scheds,
  sched_lst slf = Some scheds -> NoDup (keys scheds) ->
  update_lr_times k slf = (Ok tt, set_sched_lst (map (stepped k) scheds) slf).
Proof.
  induction k as [|k IH]; intros slf scheds Hs Hnd.
  - rewrite map_stepped_zero. destruct slf as [m o s]. cbn in *. now subst s.
  - cbn [update_lr_times]. unfold abind. rewrite (update_lr_run _ _ Hs Hnd).
    rewrite (IH _ (map (stepped 1) scheds)).
    + rewrite map_stepped_succ. reflexivity.
    + reflexivity.
    + now rewrite keys_map_stepped.
Qed.

Lemma step_count_iter n (s : Sch) :
  step_count (Nat.iter n step s) = (step_count s + Z.of_nat n)%Z.
Proof.
  induction n as [|n IH].
  - simpl. lia.
  - rewrite Nat.iter_succ, step_count_step, IH. lia.
Qed.

(** C9: [k] calls of [update_lr] leave the same schedulers under the same
    names, each with its step counter moved by exactly [k]; modules and
    optimizers are not touched, and with an empty scheduler mapping the
    calls change nothing and raise nothing. *)
Theorem C9_update_lr_steps_each_scheduler_k_times
    (k : nat) (slf : alg Mod Opt Sch) (scheds : dict Sch) :
  sched_lst slf = Some scheds ->
  NoDup (keys scheds) ->
  exists scheds',
    update_lr_times k slf = (Ok tt, set_sched_lst scheds' slf)
    /\ keys scheds' = keys scheds
    /\ (forall name s, get scheds name = Some s ->
          exists s', get scheds' name = Some s'
                     /\ step_count s' = (step_count s + Z.of_nat k)%Z)
    /\ (scheds = [] -> update_lr_times k slf = (Ok tt, slf)).
Proof.
  intros Hs Hnd. exists (map (stepped k) scheds).
  split; [now apply update_lr_times_run|].
  split; [apply keys_map_stepped|].
  split.
  - intros name s Hget. rewrite get_map_stepped, Hget. simpl.
    eexists. split; [reflexivity|]. apply step_count_iter.
  - intros ->. rewrite (update_lr_times_run k _ _ Hs Hnd). cbn.
    destruct slf as [m o s]. cbn in *. now subst s.
Qed.
End Stepping.

(** C9 at a concrete orchestrator: three calls move the one scheduler from
    step 4 to step 7. *)
Lemma C9_witness :
  exists scheds',
    update_lr_times 3 (example_alg plain_gen)
    = (Ok tt, set_sched_lst scheds' (example_alg plain_gen))
    /\ keys scheds' = ["gen"]
    /\ (forall name s, get [("gen", {| last_epoch := 4 |})] name = Some s ->
          exists s', get scheds' name = Some s'
                     /\ step_count s' = (step_count s + Z.of_nat 3)%Z)
    /\ ([("gen", {| last_epoch := 4%Z |})] = [] ->
        update_lr_times 3 (example_alg plain_gen) = (Ok tt, example_alg plain_gen)).
Proof.
  apply (@C9_update_lr_steps_each_scheduler_k_times Z strict_module plain_optim
           counting_sched counting_sched_scheduler 3 (example_alg plain_gen)
           [("gen", {| last_epoch := 4%Z |})]).
  - reflexivity.
  - repeat constructor; simpl; tauto.
Defined.

(* ================================================================== *)
(** * Optimizer construction and the two-time-scale rule               *)
(* ================================================================== *)

Lemma abind_inv {S A B} (c : action S A) (k : A -> action S B) s r s' :
  abind c k s = (r, s') ->
  (exists a s1, c s = (Ok a, s1) /\ k a s1 = (r, s'))
  \/ (exists e, c s = (Raise e, s') /\ r = Raise e).
Proof.
  unfold abind. destruct (c s) as [[a|e] s1]; intros H.
  - left. eauto.
  - right. inversion H; subst. eauto.
Qed.

(** Simplify a run of the frame after a case split; close a case in which the
    run raised. *)
Ltac run_in H :=
  cbn [Py.bind subscript assign attr new_lr opts_dict self set_opts_dict
       set_self set_new_lr set_optim_lst optim_lst fst snd] in H.

Ltac raised H :=
  inversion H; subst; cbn;
  split; [first [reflexivity | assumption] | left; eauto].

Section TwoTimeScale.
Context {Params Mod Opt Sch : Type}.
Variable return_optimizer : value -> Params -> value -> result Opt.
Variable params_lst : dict Params.

Local Abbreviation frame := (@frame Mod Opt Sch).
Local Abbreviation body ttur :=
  (build_optimizer return_optimizer (option_map VFloat ttur) params_lst).

(** The first statement of lines 93-96 always succeeds for a float rate. *)
Lemma adjust_new_lr L k (fr : frame) :
  (if String.eqb k "gen" then
     x <~ lift (truediv (VFloat L) 2) ;; modify (set_new_lr x)
   else if String.eqb k "dis" then
     x <~ lift (mul (VFloat L) 2) ;; modify (set_new_lr x)
   else ret tt) fr
  = (Ok tt, {| self := self fr; opts_dict := opts_dict fr;
               new_lr := rate L k (new_lr fr) |}).
Proof.
  unfold rate. destruct (String.eqb k "gen"); [reflexivity|].
  destruct (String.eqb k "dis"); [reflexivity|].
  now destruct fr.
Qed.

(** What one round of the loop does, whether it ends well or raises. *)
Lemma build_optimizer_spec ttur k (fr fr' : frame) r os :
  optim_lst (self fr) = Some os ->
  body ttur k fr = (r, fr') ->
  (forall k', k' <> k -> get (opts_dict fr') k' = get (opts_dict fr) k')
  /\ ((exists e, r = Raise e /\ optim_lst (self fr') = Some os)
      \/ (r = Ok tt
          /\ exists entry ty ps opts passed o entry',
               get (opts_dict fr) k = Some entry
               /\ subscript entry "type" = Ok ty
               /\ subscript entry "opts" = Ok opts
               /\ get params_lst k = Some ps
               /\ passed_opts ttur k (new_lr fr) opts = Some passed
               /\ return_optimizer ty ps passed = Ok o
               /\ optim_lst (self fr') = Some (setitem os k o)
               /\ new_lr fr' = new_lr_before ttur [k] (new_lr fr)
               /\ get (opts_dict fr') k = Some entry'
               /\ subscript entry' "opts" = Ok passed)).
Proof.
  intros Hos H. unfold build_optimizer in H.
  destruct ttur as [L|]; cbn [option_map] in H.
  - (* the rule is on *)
    unfold adjust_lr in H. unfold abind at 1 2 in H.
    rewrite adjust_new_lr in H.
    unfold abind, read_new_lr, entry_field, lift, modify, getitem in H.
    run_in H.
    destruct (rate L k (new_lr fr)) as [x|] eqn:Hrate; run_in H;
      [|raised H].
    destruct (get (opts_dict fr) k) as [entry|] eqn:He; run_in H;
      [|raised H].
    destruct entry as [| | | | |d]; run_in H; try (raised H; fail).
    unfold getitem in H.
    destruct (get d "opts") as [opts|] eqn:Hopts; run_in H; [|raised H].
    destruct opts as [| | | | |op]; run_in H; try (raised H; fail).
    rewrite get_setitem_same in H. run_in H.
    unfold getitem in H. rewrite get_setitem_other in H by discriminate.
    rewrite get_setitem_same in H.
    assert (Hother : forall k', k' <> k ->
              get (setitem (opts_dict fr) k
                     (VDict (setitem d "opts" (VDict (setitem op "lr" x))))) k'
              = get (opts_dict fr) k').
    { intros k' Hne. now apply get_setitem_other. }
    destruct (get d "type") as [ty|] eqn:Hty; run_in H; [|raised H].
    destruct (get params_lst k) as [ps|] eqn:Hps; run_in H; [|raised H].
    destruct (return_optimizer ty ps (VDict (setitem op "lr" x)))
      as [o|e] eqn:Hro; run_in H; [|raised H].
    rewrite Hos in H. run_in H.
    inversion H; subst; cbn. split; [exact Hother|]. right. split; [reflexivity|].
    exists (VDict d), ty, ps, (VDict op), (VDict (setitem op "lr" x)), o,
      (VDict (setitem d "opts" (VDict (setitem op "lr" x)))).
    cbn. unfold getitem. rewrite Hty, Hopts, Hrate, get_setitem_same.
    rewrite get_setitem_same. repeat split; auto.
  - (* the rule is off *)
    unfold abind, ret, entry_field, lift, modify, getitem in H. run_in H.
    destruct (get (opts_dict fr) k) as [entry|] eqn:He; run_in H; [|raised H].
    destruct (subscript entry "type") as [ty|e] eqn:Hty; run_in H; [|raised H].
    destruct (get params_lst k) as [ps|] eqn:Hps; run_in H; [|raised H].
    destruct (subscript entry "opts") as [opts|e] eqn:Hopts; run_in H;
      [|raised H].
    destruct (return_optimizer ty ps opts) as [o|e] eqn:Hro; run_in H;
      [|raised H].
    rewrite Hos in H. run_in H.
    inversion H; subst; cbn. split; [reflexivity|]. right. split; [reflexivity|].
    exists entry, ty, ps, opts, opts, o, entry. repeat split; auto.
Qed.
Lemma new_lr_before_cons ttur k pre cur :
  new_lr_before ttur pre (new_lr_before ttur [k] cur)
  = new_lr_before ttur (k :: pre) cur.
Proof. destruct ttur; reflexivity. Qed.

(** The loop of lines 91-105, from any frame. *)
Lemma optimizer_loop_spec ttur : forall ks (fr fr' : frame) r os,
  for_each ks (body ttur) fr = (r, fr') ->
  NoDup ks ->
  optim_lst (self fr) = Some os ->
  (forall k, In k ks -> get os k = None) ->
  exists os',
    optim_lst (self fr') = Some os'
    /\ (forall k, ~ In k ks ->
          get os' k = get os k
          /\ get (opts_dict fr') k = get (opts_dict fr) k)
    /\ (forall pre k post o,
          ks = pre ++ k :: post -> get os' k = Some o ->
          exists entry ty ps opts passed entry',
            get (opts_dict fr) k = Some entry
            /\ subscript entry "type" = Ok ty
            /\ subscript entry "opts" = Ok opts
            /\ get params_lst k = Some ps
            /\ passed_opts ttur k (new_lr_before ttur pre (new_lr fr)) opts
               = Some passed
            /\ return_optimizer ty ps passed = Ok o
            /\ get (opts_dict fr') k = Some entry'
            /\ subscript entry' "opts" = Ok passed)
    /\ (r = Ok tt -> forall k, In k ks -> mem os' k = true)
    /\ (forall e, r = Raise e -> exists k, In k ks /\ get os' k = None).
Proof.
  induction ks as [|k0 ks IH]; intros fr fr' r os Hrun Hnd Hos Hfresh.
  - cbn in Hrun. inversion Hrun; subst. exists os.
    split; [assumption|]. split; [auto|]. split.
    + intros [|? ?] ? ? ? Heq; discriminate.
    + split; [intros _ k []|]. intros e He; discriminate.
  - cbn [for_each] in Hrun. apply abind_inv in Hrun.
    inversion Hnd as [|? ? Hk0 Hnd']; subst.
    destruct Hrun as [([] & fr1 & Hbody & Hrest) | (e & Hbody & ->)].
    + destruct (build_optimizer_spec ttur k0 fr fr1 (Ok tt) os Hos Hbody)
        as [Hother [(e & He & _) | (_ & entry & ty & ps & opts & passed & o0
                                     & entry' & Hentry & Hty & Hopts & Hps
                                     & Hpassed & Hro & Hos1 & Hlr & He' & Hopts')]];
        [discriminate|].
      destruct (IH fr1 fr' r (setitem os k0 o0) Hrest Hnd' Hos1)
        as (os' & Hos' & Hkeep & Hbuilt & Hall & Hfail).
      { intros k Hin. rewrite get_setitem_other; [apply Hfresh; now right|].
        intros ->. contradiction. }
      exists os'. split; [assumption|]. split; [|split; [|split]].
      * intros k Hnot. destruct (Hkeep k) as [H1 H2]; [intros ?; apply Hnot; now right|].
        assert (k <> k0) by (intros ->; apply Hnot; now left).
        rewrite H1, H2, get_setitem_other by assumption. auto.
      * intros pre k post o Heq Hget. destruct pre as [|k1 pre]; cbn in Heq.
        -- injection Heq as <- <-.
           destruct (Hkeep k0 Hk0) as [H1 H2].
           rewrite H1, get_setitem_same in Hget. injection Hget as <-.
           exists entry, ty, ps, opts, passed, entry'.
           rewrite H2. destruct ttur; repeat split; assumption.
        -- injection Heq as <- ->.
           assert (Hne : k <> k0).
           { intros ->. apply Hk0. apply in_or_app. right. now left. }
           destruct (Hbuilt pre k post o eq_refl Hget)
             as (en & ty2 & ps2 & op2 & pa2 & en' & G1 & G2 & G3 & G4 & G5 & G6
                 & G7 & G8).
           exists en, ty2, ps2, op2, pa2, en'.
           rewrite <- (Hother k Hne). rewrite Hlr in G5.
           rewrite new_lr_before_cons in G5. repeat split; assumption.
      * intros Hr k [<-|Hin]; [|now apply Hall].
        destruct (Hkeep k0 Hk0) as [H1 _]. unfold mem.
        now rewrite H1, get_setitem_same.
      * intros e He. destruct (Hfail e He) as (k & Hin & Hnone).
        exists k. split; [now right | assumption].
    + destruct (build_optimizer_spec ttur k0 fr fr' (Raise e) os Hos Hbody)
        as [Hother [(e' & _ & Hos') | (Habs & _)]]; [|discriminate].
      exists os. split; [assumption|]. split; [|split; [|split]].
      * intros k Hnot. split; [reflexivity|]. apply Hother.
        intros ->. apply Hnot. now left.
      * intros pre k post o Heq Hget. rewrite Hfresh in Hget; [discriminate|].
        rewrite Heq. apply in_or_app. right. now left.
      * discriminate.
      * intros e2 _. exists k0. split; [now left | apply Hfresh; now left].
Qed.



(** The start of [create_optimizer], lines 84-90, for a well-formed
    [TTUR] entry: [ttur] is the base rate when the rule is on. *)
Lemma create_optimizer_run ttur (slf : alg Mod Opt Sch) opts opts_ttur flag :
  get opts "TTUR" = Some opts_ttur ->
  subscript opts_ttur "if_ttur" = Ok flag ->
  match ttur with
  | Some L => truthy flag = true /\ subscript opts_ttur "lr" = Ok (VFloat L)
  | None => truthy flag = false
  end ->
  create_optimizer return_optimizer slf params_lst opts
  = let '(r, fr) :=
      for_each (keys (remove opts "TTUR")) (body ttur)
        {| self := set_optim_lst [] slf; opts_dict := remove opts "TTUR";
           new_lr := None |} in
    (r, self fr, opts_dict fr).
Proof.
  intros Hget Hflag Httur.
  unfold create_optimizer, create_optimizer_body, read_ttur.
  unfold abind, pop, lift, ret, gets, modify. cbn [opts_dict].
  rewrite Hget, Hflag.
  destruct ttur as [L|].
  - destruct Httur as [-> Hlr]. rewrite Hlr. reflexivity.
  - rewrite Httur. reflexivity.
Qed.

Lemma passed_opts_gen L cur own :
  passed_opts (Some L) "gen" cur own = with_lr (VFloat (L / 2)) own.
Proof. reflexivity. Qed.

Lemma passed_opts_dis L cur own :
  passed_opts (Some L) "dis" cur own = with_lr (VFloat (L * 2)) own.
Proof. reflexivity. Qed.

(** The optimizers of [self] after the whole call, for a well-formed [TTUR]
    entry. *)
Lemma create_optimizer_spec ttur (slf : alg Mod Opt Sch) opts opts_ttur flag :
  NoDup (keys opts) ->
  get opts "TTUR" = Some opts_ttur ->
  subscript opts_ttur "if_ttur" = Ok flag ->
  match ttur with
  | Some L => truthy flag = true /\ subscript opts_ttur "lr" = Ok (VFloat L)
  | None => truthy flag = false
  end ->
  let out := create_optimizer return_optimizer slf params_lst opts in
  (forall pre k post o,
      keys (remove opts "TTUR") = pre ++ k :: post ->
      get (built out) k = Some o ->
      constructed_from return_optimizer params_lst opts (snd out) k
        (passed_opts ttur k (new_lr_before ttur pre None)) o)
  /\ (fst (fst out) = Ok tt ->
      forall k, In k (keys opts) -> k <> "TTUR" -> mem (built out) k = true)
  /\ (forall e, fst (fst out) = Raise e ->
      exists k, In k (keys opts) /\ k <> "TTUR" /\ get (built out) k = None).
Proof.
  intros Hnd Hget Hflag Httur out. subst out.
  rewrite (create_optimizer_run ttur slf opts opts_ttur flag Hget Hflag Httur).
  destruct (for_each (keys (remove opts "TTUR")) (body ttur)
              {| self := set_optim_lst [] slf; opts_dict := remove opts "TTUR";
                 new_lr := None |}) as [r fr'] eqn:Hrun.
  destruct (optimizer_loop_spec ttur _ _ _ _ [] Hrun)
    as (os' & Hos' & _ & Hbuilt & Hall & Hfail).
  { now apply nodup_keys_remove. }
  { reflexivity. }
  { reflexivity. }
  assert (Hb : built (r, self fr', opts_dict fr') = os').
  { unfold built. cbn. now rewrite Hos'. }
  rewrite Hb. cbn [fst snd].
  split; [|split].
  - intros pre k post o Hkeys Hgeto.
    destruct (Hbuilt pre k post o Hkeys Hgeto)
      as (entry & ty & ps & own & p & entry' & G1 & G2 & G3 & G4 & G5 & G6
          & G7 & G8).
    cbn [opts_dict new_lr] in *.
    assert (Hk : k <> "TTUR").
    { intros ->. apply (not_in_keys_remove opts "TTUR" Hnd).
      rewrite Hkeys. apply in_or_app. right. now left. }
    rewrite get_remove_other in G1 by assumption.
    exists entry, ty, ps, own, p, entry'. repeat split; assumption.
  - intros Hr k Hin Hk. apply Hall; auto. now apply in_keys_remove.
  - intros e He. destruct (Hfail e He) as (k & Hin & Hnone).
    exists k. split; [|split]; auto.
    + eapply keys_remove_incl; eauto.
    + intros ->. now apply (not_in_keys_remove opts "TTUR" Hnd).
Qed.

End TwoTimeScale.

Section RuleOn.
Context {Params Mod Opt Sch : Type}.
Variable return_optimizer : value -> Params -> value -> result Opt.
Variable params_lst : dict Params.

(** With the rule on and [new_lr] unbound, an item named neither [gen] nor
    [dis] raises before anything else of the round happens. *)
Lemma build_optimizer_unbound L k (fr : @frame Mod Opt Sch) :
  k <> "gen" -> k <> "dis" -> new_lr fr = None ->
  build_optimizer return_optimizer (Some (VFloat L)) params_lst k fr
  = (Raise (UnboundLocalError "new_lr"), fr).
Proof.
  intros Hg Hd Hnone. unfold build_optimizer, adjust_lr.
  unfold abind at 1 2. rewrite adjust_new_lr. unfold rate.
  apply String.eqb_neq in Hg, Hd. rewrite Hg, Hd, Hnone.
  unfold abind, read_new_lr. cbn. destruct fr; cbn in *. now subst.
Qed.

Lemma rate_after_snoc L pre k cur :
  rate_after L (pre ++ [k]) cur = rate L k (rate_after L pre cur).
Proof. unfold rate_after. now rewrite fold_left_app. Qed.

Lemma last_gen_dis_snoc pre k :
  last_gen_dis (pre ++ [k])
  = if String.eqb k "gen" || String.eqb k "dis" then Some k
    else last_gen_dis pre.
Proof. unfold last_gen_dis. now rewrite rev_unit. Qed.

(** The rate in [new_lr] is the one of the last [gen] or [dis] item. *)
Lemma rate_after_last L pre x :
  rate_after L pre None = Some x ->
  exists g, last_gen_dis pre = Some g
            /\ ((g = "gen" /\ x = VFloat (L / 2))
                \/ (g = "dis" /\ x = VFloat (L * 2))).
Proof.
  induction pre as [|k pre IH] using rev_ind; [discriminate|].
  rewrite rate_after_snoc, last_gen_dis_snoc. unfold rate.
  destruct (String.eqb_spec k "gen") as [->|Hg]; cbn [orb].
  - intros [= <-]. eauto.
  - destruct (String.eqb_spec k "dis") as [->|Hd].
    + intros [= <-]. eauto.
    + exact IH.
Qed.

End RuleOn.


(** String lists of the examples have no duplicates. *)
Ltac nodup_strings :=
  repeat (apply NoDup_cons; [cbn; intuition discriminate|]); apply NoDup_nil.


(** C10: with the rule on, a component named neither [gen] nor [dis] has no
    rate of its own.  When it is the first component, the call raises
    [UnboundLocalError] for [new_lr] and no optimizer is built.  When an
    optimizer is built for it, some [gen] or [dis] item came before it and
    its options carry the rate computed for the last such item. *)
Theorem C10_rule_on_other_component
    {Params Mod Opt Sch : Type}
    (return_optimizer : value -> Params -> value -> result Opt)
    (slf : alg Mod Opt Sch) (params_lst : dict Params) (opts : dict value)
    (opts_ttur flag : value) (L : float) :
  NoDup (keys opts) ->
  get opts "TTUR" = Some opts_ttur ->
  subscript opts_ttur "if_ttur" = Ok flag ->
  truthy flag = true ->
  subscript opts_ttur "lr" = Ok (VFloat L) ->
  let out := create_optimizer return_optimizer slf params_lst opts in
  (forall k rest,
      keys (remove opts "TTUR") = k :: rest -> k <> "gen" -> k <> "dis" ->
      fst (fst out) = Raise (UnboundLocalError "new_lr") /\ built out = [])
  /\ (forall pre k post o,
        keys (remove opts "TTUR") = pre ++ k :: post ->
        k <> "gen" -> k <> "dis" ->
        get (built out) k = Some o ->
        exists g x,
          last_gen_dis pre = Some g
          /\ ((g = "gen" /\ x = VFloat (L / 2))
              \/ (g = "dis" /\ x = VFloat (L * 2)))
          /\ constructed_from return_optimizer params_lst opts (snd out) k
               (with_lr x) o).
Proof.
  intros Hnd Hget Hflag Ht Hlr out. split.
  - intros k rest Hkeys Hg Hd. subst out.
    rewrite (create_optimizer_run return_optimizer params_lst (Some L) slf
               opts opts_ttur flag Hget Hflag (conj Ht Hlr)).
    rewrite Hkeys. cbn [for_each option_map]. unfold abind.
    rewrite build_optimizer_unbound by auto. split; reflexivity.
  - intros pre k post o Hkeys Hg Hd Ho.
    destruct (create_optimizer_spec return_optimizer params_lst (Some L) slf
                opts opts_ttur flag Hnd Hget Hflag (conj Ht Hlr))
      as (Hbuilt & _ & _).
    destruct (Hbuilt pre k post o Hkeys Ho)
      as (entry & ty & ps & own & p & entry' & G1 & G2 & G3 & G4 & G5 & G6
          & G7 & G8).
    unfold passed_opts, rate in G5. cbn [new_lr_before] in G5.
    apply String.eqb_neq in Hg, Hd. rewrite Hg, Hd in G5.
    destruct (rate_after L pre None) as [x|] eqn:Hx; [|discriminate].
    destruct (rate_after_last L pre x Hx) as (g & Hlast & Hgx).
    exists g, x. split; [assumption|]. split; [assumption|].
    exists entry, ty, ps, own, p, entry'. repeat split; assumption.
Qed.

(** C10 at concrete options: [aux] first raises; [aux] after [gen] is built
    with the rate 0.25 of [gen]. *)
Lemma C10_witness :
  (fst (fst (create_optimizer record_optimizer no_alg optimizer_params
               (optimizer_opts true ["aux"; "gen"])))
   = Raise (UnboundLocalError "new_lr")
   /\ built (create_optimizer record_optimizer no_alg optimizer_params
               (optimizer_opts true ["aux"; "gen"])) = [])
  /\ exists g x,
       last_gen_dis ["gen"] = Some g
       /\ ((g = "gen" /\ x = VFloat (0.5 / 2))
           \/ (g = "dis" /\ x = VFloat (0.5 * 2)))
       /\ constructed_from record_optimizer optimizer_params
            (optimizer_opts true ["gen"; "aux"; "dis"])
            (snd (create_optimizer record_optimizer no_alg optimizer_params
                    (optimizer_opts true ["gen"; "aux"; "dis"])))
            "aux" (with_lr x)
            (VStr "Adam", 3,
             VDict [("lr", VFloat 0.25); ("betas", VStr "0.9, 0.999")]).
Proof.
  split.
  - destruct (C10_rule_on_other_component record_optimizer no_alg
                optimizer_params (optimizer_opts true ["aux"; "gen"])
                (VDict [("if_ttur", VBool true); ("lr", VFloat 0.5)])
                (VBool true) 0.5%float) as [Hfirst _];
      [nodup_strings | reflexivity | reflexivity | reflexivity | reflexivity |].
    apply (Hfirst "aux" ["gen"]); [reflexivity | discriminate | discriminate].
  - destruct (C10_rule_on_other_component record_optimizer no_alg
                optimizer_params (optimizer_opts true ["gen"; "aux"; "dis"])
                (VDict [("if_ttur", VBool true); ("lr", VFloat 0.5)])
                (VBool true) 0.5%float) as [_ Hlater];
      [nodup_strings | reflexivity | reflexivity | reflexivity | reflexivity |].
    apply (Hlater ["gen"] "aux" ["dis"]);
      [reflexivity | discriminate | discriminate | reflexivity].
Defined.

(* ================================================================== *)
(** * Loading a checkpoint: failures                                    *)
(* ================================================================== *)

Section LoadFailures.
Context {T Mod Opt Sch : Type}.
Context {HM : Stateful T Mod} {HO : Stateful T Opt} {HS : Stateful T Sch}.
Implicit Types (slf : alg Mod Opt Sch) (states : dict (obj T)).

(** One round of the loop of [load_state], by cases. *)
Lemma load_item_run states if_dist item slf :
  load_item states if_dist item slf
  = match get states item with
    | None => (Raise (KeyError item), slf)
    | Some o =>
        match code_target item with
        | None => (Ok tt, slf)
        | Some (KModule, name) =>
            match module_state_to_load if_dist o with
            | Raise e => (Raise e, slf)
            | Ok o' =>
                match module_lst slf with
                | None => (Raise AttributeError, slf)
                | Some mods =>
                    match load_into mods name o' with
                    | Ok mods' => (Ok tt, set_module_lst mods' slf)
                    | Raise e => (Raise e, slf)
                    end
                end
            end
        | Some (KOptim, name) =>
            match optim_lst slf with
            | None => (Raise AttributeError, slf)
            | Some optims =>
                match load_into optims name o with
                | Ok optims' => (Ok tt, set_optim_lst optims' slf)
                | Raise e => (Raise e, slf)
                end
            end
        | Some (KSched, name) =>
            match sched_lst slf with
            | None => (Raise AttributeError, slf)
            | Some scheds =>
                match load_into scheds name o with
                | Ok scheds' => (Ok tt, set_sched_lst scheds' slf)
                | Raise e => (Raise e, slf)
                end
            end
        end
    end.
Proof.
  unfold load_item, code_target, abind, lift, modify, ret, getitem.
  destruct (get states item) as [o|]; [|reflexivity].
  destruct (contains "module_" item).
  - destruct (module_state_to_load if_dist o); [|reflexivity].
    destruct (module_lst slf); [|reflexivity]. cbn [attr].
    destruct (load_into _ _ _); reflexivity.
  - destruct (contains "optim_" item).
    + destruct (optim_lst slf); [|reflexivity]. cbn [attr].
      destruct (load_into _ _ _); reflexivity.
    + destruct (contains "sched_" item); [|reflexivity].
      destruct (sched_lst slf); [|reflexivity]. cbn [attr].
      destruct (load_into _ _ _); reflexivity.
Qed.

Lemma load_into_inv {H} {HH : Stateful T H} (bundle bundle' : dict H) name o :
  load_into bundle name o = Ok bundle' ->
  exists h h', get bundle name = Some h
               /\ load_state_dict h o = Ok h'
               /\ bundle' = setitem bundle name h'.
Proof.
  unfold load_into, getitem. destruct (get bundle name) as [h|]; [|discriminate].
  cbn [Py.bind]. destruct (load_state_dict h o) as [h'|] eqn:Hl; [|discriminate].
  cbn [Py.bind]. intros [= <-]. exists h, h'. repeat split; auto.
Qed.

Lemma load_into_missing {H} {HH : Stateful T H} (bundle : dict H) name o :
  mem bundle name = false -> load_into bundle name o = Raise (KeyError name).
Proof.
  unfold mem, load_into, getitem. now destruct (get bundle name).
Qed.

Lemma has_entry_load_into {H} {HH : Stateful T H} (bundle bundle' : dict H)
    name o k :
  load_into bundle name o = Ok bundle' ->
  has_entry (Some bundle') k = has_entry (Some bundle) k.
Proof.
  intros Hl. destruct (load_into_inv _ _ _ _ Hl) as (h & h' & Hg & _ & ->).
  cbn. apply mem_setitem. unfold mem. now rewrite Hg.
Qed.

(** Loading an item neither adds a component to a bundle nor removes one. *)
Lemma load_item_keeps_names states if_dist item slf r slf' :
  load_item states if_dist item slf = (r, slf') ->
  forall t, bundle_has slf' t = bundle_has slf t.
Proof.
  rewrite load_item_run. intros Hrun [kind name].
  repeat match type of Hrun with
         | context [match ?x with _ => _ end] =>
             let E := fresh "E" in destruct x eqn:E
         end;
    inversion Hrun; subst; try reflexivity;
    unfold bundle_has; destruct kind; cbn [fst snd set_module_lst
      set_optim_lst set_sched_lst module_lst optim_lst sched_lst];
    try reflexivity;
    match goal with
    | E : load_into _ _ _ = Ok _, F : _ = Some _ |- _ =>
        rewrite F; eapply has_entry_load_into; eassumption
    end.
Qed.

Lemma for_each_load_keeps_names states if_dist : forall items slf r slf',
  for_each items (load_item states if_dist) slf = (r, slf') ->
  forall t, bundle_has slf' t = bundle_has slf t.
Proof.
  induction items as [|item items IH]; intros slf r slf' Hrun t.
  - cbn in Hrun. now inversion Hrun.
  - cbn [for_each] in Hrun. apply abind_inv in Hrun.
    destruct Hrun as [([] & slf1 & Hitem & Hrest) | (e & Hitem & ->)].
    + rewrite (IH _ _ _ Hrest t). eapply load_item_keeps_names; eauto.
    + eapply load_item_keeps_names; eauto.
Qed.

(** An item that is not in the record, or whose component is not in the
    bundle the code selects, makes its round of the loop raise. *)
Lemma load_item_fails states if_dist item slf :
  get states item = None
  \/ (exists t, code_target item = Some t /\ bundle_has slf t = false) ->
  exists e, load_item states if_dist item slf = (Raise e, slf).
Proof.
  rewrite load_item_run. intros [Hnone | ([kind name] & Ht & Hhas)].
  - rewrite Hnone. eauto.
  - destruct (get states item) as [o|]; [|eauto]. rewrite Ht.
    unfold bundle_has in Hhas. cbn [fst snd] in Hhas.
    destruct kind.
    + destruct (module_state_to_load if_dist o); [|eauto].
      destruct (module_lst slf) as [mods|]; [|eauto].
      rewrite load_into_missing by exact Hhas. eauto.
    + destruct (optim_lst slf) as [optims|]; [|eauto].
      rewrite load_into_missing by exact Hhas. eauto.
    + destruct (sched_lst slf) as [scheds|]; [|eauto].
      rewrite load_into_missing by exact Hhas. eauto.
Qed.

Lemma for_each_load_fails states if_dist : forall items item slf,
  In item items ->
  get states item = None
  \/ (exists t, code_target item = Some t /\ bundle_has slf t = false) ->
  exists e slf', for_each items (load_item states if_dist) slf = (Raise e, slf').
Proof.
  induction items as [|item0 items IH]; intros item slf Hin Hbad; [destruct Hin|].
  cbn [for_each]. unfold abind.
  destruct (load_item states if_dist item0 slf) as [[[]|e] slf1] eqn:Hrun;
    [|eauto].
  destruct Hin as [->|Hin].
  - destruct (load_item_fails states if_dist item slf Hbad) as (e & He).
    rewrite He in Hrun. discriminate.
  - apply (IH item slf1 Hin).
    destruct Hbad as [Hnone | (t & Ht & Hhas)]; [now left|].
    right. exists t. split; [assumption|].
    now rewrite (load_item_keeps_names _ _ _ _ _ _ Hrun).
Qed.

Lemma for_each_app {S X} (xs ys : list X) (f : X -> action S unit) s s1 :
  for_each xs f s = (Ok tt, s1) ->
  for_each (xs ++ ys) f s = for_each ys f s1.
Proof.
  revert s. induction xs as [|x xs IH]; intros s Hrun.
  - cbn in Hrun. now inversion Hrun.
  - cbn [for_each app] in *. unfold abind in *.
    destruct (f x s) as [[[]|e] s2]; [|discriminate]. now apply IH.
Qed.
End LoadFailures.

(** C6: [load_state] should raise whenever a requested item is absent from
    the live bundle it belongs to, and load nothing silently.  The code
    selects the bundle by containment (line 162 tests whether [module_]
    occurs anywhere in the item name) and then drops a fixed number of
    leading characters, as for a prefix.  The item [optim_module_a], which
    is the key [save_state] writes for an optimizer named [module_a], is
    therefore taken for the module [odule_a].  On an orchestrator that owns
    no optimizer the load returns the iteration, the saved optimizer state
    having gone into the module [odule_a]; and an orchestrator that owns
    the optimizer [module_a] cannot load back what it saved. *)
Theorem C6_optimizer_item_taken_for_module :
  spec_target "optim_module_a" = Some (KOptim, "module_a")
  /\ code_target "optim_module_a" = Some (KModule, "odule_a")
  /\ bundle_has (stray_alg 0) (KOptim, "module_a") = false
  /\ load_state stray_checkpoint "ckp.pt" ["optim_module_a"] false (stray_alg 0)
     = (Ok (OInt 0), stray_alg 1)
  /\ bundle_has owner_alg (KOptim, "module_a") = true
  /\ exists fs' states,
       save_state owner_alg "ckp.pt" 0 false [] = (Ok tt, fs')
       /\ get fs' "ckp.pt" = Some (Saved states)
       /\ keys states = ["iter"; "module_gen"; "optim_module_a"]
       /\ load_state fs' "ckp.pt" ["optim_module_a"] false owner_alg
          = (Raise (KeyError "odule_a"), owner_alg).
Proof.
  split; [reflexivity|]. split; [reflexivity|]. split; [reflexivity|].
  split; [reflexivity|]. split; [reflexivity|].
  do 2 eexists. split; [reflexivity|]. split; [reflexivity|].
  split; reflexivity.
Qed.

(** X24: how [load_state] fails.  It raises [FileNotFoundError] when
    nothing is at the path.  With a record at the path, it never returns
    normally when a requested item is missing from the record or when the
    component the code derives from the item name is missing from the
    bundle the code selects.  The first such item, reached after the items
    before it were loaded, raises [KeyError] (for a module after the
    inspection of the first key went through), and the items loaded before
    it stay loaded. *)
Theorem load_state_failure_modes
    {T Mod Opt Sch : Type}
    {HM : Stateful T Mod} {HO : Stateful T Opt} {HS : Stateful T Sch}
    (fs : filesystem T) (path : string) (items : list string) (if_dist : bool)
    (slf : alg Mod Opt Sch) :
  (get fs path = None ->
   load_state fs path items if_dist slf = (Raise (FileNotFoundError path), slf))
  /\ (forall states, get fs path = Some (Saved states) ->
      (forall item, In item items ->
         get states item = None
         \/ (exists t, code_target item = Some t /\ bundle_has slf t = false) ->
         exists e slf', load_state fs path items if_dist slf = (Raise e, slf'))
      /\ (forall pre item post slf1,
            items = pre ++ item :: post ->
            for_each pre (load_item states if_dist) slf = (Ok tt, slf1) ->
            (get states item = None ->
             load_state fs path items if_dist slf = (Raise (KeyError item), slf1))
            /\ (forall o t,
                  get states item = Some o ->
                  code_target item = Some t ->
                  bundle_defined slf1 (fst t) = true ->
                  bundle_has slf1 t = false ->
                  (fst t = KModule ->
                   is_ok (module_state_to_load if_dist o) = true) ->
                  load_state fs path items if_dist slf
                  = (Raise (KeyError (snd t)), slf1)))).
Proof.
  split.
  - intros Hnone. unfold load_state, abind, lift, torch_load. now rewrite Hnone.
  - intros states Hfile.
    assert (Hload : load_state fs path items if_dist slf
                    = (for_each items (load_item states if_dist) ;;;
                       lift (getitem states "iter")) slf).
    { unfold load_state, abind, lift, torch_load. now rewrite Hfile. }
    rewrite Hload. split.
    + intros item Hin Hbad.
      destruct (for_each_load_fails states if_dist items item slf Hin Hbad)
        as (e & slf' & Hrun).
      exists e, slf'. unfold abind. now rewrite Hrun.
    + intros pre item post slf1 -> Hpre. unfold abind.
      rewrite (for_each_app pre (item :: post) _ slf slf1 Hpre).
      cbn [for_each]. unfold abind. rewrite load_item_run. split.
      * intros Hnone. now rewrite Hnone.
      * intros o [kind name] Ho Ht Hdef Hhas Hmod. rewrite Ho, Ht.
        unfold bundle_has in Hhas. unfold bundle_defined in Hdef.
        cbn [fst snd] in *. destruct kind.
        -- specialize (Hmod eq_refl).
           destruct (module_state_to_load if_dist o); [|discriminate].
           destruct (module_lst slf1) as [mods|]; [|discriminate].
           now rewrite load_into_missing by exact Hhas.
        -- destruct (optim_lst slf1) as [optims|]; [|discriminate].
           now rewrite load_into_missing by exact Hhas.
        -- destruct (sched_lst slf1) as [scheds|]; [|discriminate].
           now rewrite load_into_missing by exact Hhas.
Qed.

(** X24 at concrete inputs: no file; a record without [sched_gen], where
    the module and the optimizer are loaded before the [KeyError]; an
    orchestrator without the optimizer [gen]. *)
Lemma load_state_failure_modes_witness :
  load_state (@nil (string * file Z)) "ckp.pt" all_items false
    (example_alg plain_gen)
  = (Raise (FileNotFoundError "ckp.pt"), example_alg plain_gen)
  /\ (exists e slf',
        load_state partial_checkpoint "ckp.pt" all_items false
          (example_alg plain_gen) = (Raise e, slf'))
  /\ load_state partial_checkpoint "ckp.pt" all_items false
       (example_alg plain_gen)
     = (Raise (KeyError "sched_gen"),
        {| module_lst := Some [("gen", {| parameters := [("weight", 7%Z);
                                                         ("bias", 8%Z)] |})];
           optim_lst := Some [("gen", {| optim_state := [("momentum", 9%Z)] |})];
           sched_lst := Some [("gen", {| last_epoch := 4%Z |})] |})
  /\ load_state partial_checkpoint "ckp.pt" ["module_gen"; "optim_gen"] false
       no_optim_alg
     = (Raise (KeyError "gen"),
        {| module_lst := Some [("gen", {| parameters := [("weight", 7%Z);
                                                         ("bias", 8%Z)] |})];
           optim_lst := Some [];
           sched_lst := Some [("gen", {| last_epoch := 4%Z |})] |}).
Proof.
  split; [|split; [|split]].
  - apply (load_state_failure_modes (@nil (string * file Z)) "ckp.pt" all_items
             false (example_alg plain_gen)).
    reflexivity.
  - destruct (load_state_failure_modes partial_checkpoint "ckp.pt" all_items
                false (example_alg plain_gen)) as [_ Hrec].
    destruct (Hrec _ eq_refl) as [Hfail _].
    apply (Hfail "sched_gen"); [cbn; tauto | left; reflexivity].
  - destruct (load_state_failure_modes partial_checkpoint "ckp.pt" all_items
                false (example_alg plain_gen)) as [_ Hrec].
    destruct (Hrec _ eq_refl) as [_ Hfirst].
    destruct (Hfirst ["module_gen"; "optim_gen"] "sched_gen" [] _ eq_refl eq_refl)
      as [Hkey _].
    apply Hkey. reflexivity.
  - destruct (load_state_failure_modes partial_checkpoint "ckp.pt"
                ["module_gen"; "optim_gen"] false no_optim_alg) as [_ Hrec].
    destruct (Hrec _ eq_refl) as [_ Hfirst].
    destruct (Hfirst ["module_gen"] "optim_gen" [] _ eq_refl eq_refl)
      as [_ Hbundle].
    apply (Hbundle _ (KOptim, "gen") eq_refl eq_refl eq_refl eq_refl).
    discriminate.
Defined.

(* ================================================================== *)
(** * Saving a checkpoint                                               *)
(* ================================================================== *)

Section Saving.
Context {T : Type}.
Implicit Types (fs : filesystem T) (states : dict (obj T)).

Lemma is_truncated_setitem_other fs p path (f : file T) :
  p <> path -> is_truncated (setitem fs p f) path = is_truncated fs path.
Proof. intros Hne. unfold is_truncated. now rewrite get_setitem_other by auto. Qed.

(** Writing aside and renaming, as the specification describes it, never
    shows a truncated file at the destination. *)
Lemma spec_atomic_save_is_crash_atomic states tmp path fs :
  tmp <> path -> is_truncated fs path = false ->
  crash_atomic (spec_atomic_save states tmp path) fs path = true.
Proof.
  intros Hne Hfs. unfold crash_atomic, crash_states, spec_atomic_save.
  cbn [torch_save app List.length seq map firstn fs_run fold_left fs_step forallb].
  rewrite !is_truncated_setitem_other by assumption.
  rewrite Hfs. cbn [negb andb].
  rewrite get_setitem_same.
  unfold is_truncated at 1. now rewrite get_setitem_same.
Qed.

(** One [torch.save] on the destination shows a truncated file there to a
    crash between its two steps. *)
Lemma torch_save_not_crash_atomic states path fs :
  crash_atomic (torch_save states path) fs path = false.
Proof.
  unfold crash_atomic, crash_states.
  cbn [torch_save List.length seq map firstn fs_run fold_left fs_step forallb].
  unfold is_truncated at 2. rewrite get_setitem_same. cbn [negb andb].
  apply andb_false_r.
Qed.
End Saving.

(** C5, the claim as stated, fails: saving over an older checkpoint runs no
    rename and writes no other path than the destination, and a crash after
    the first of its two steps leaves a truncated file at the destination;
    the save the specification describes would not. *)
Lemma C5_counterexample :
  exists ops,
    save_state_ops (example_alg plain_gen) "ckp.pt" 5 true = Ok ops
    /\ existsb renames ops = false
    /\ In (fs_run (firstn 1 ops) old_checkpoint) (crash_states ops old_checkpoint)
    /\ get (fs_run (firstn 1 ops) old_checkpoint) "ckp.pt" = Some Truncated
    /\ crash_atomic ops old_checkpoint "ckp.pt" = false
    /\ crash_atomic
         (spec_atomic_save [("iter", @OInt Z 5)] "ckp.pt.tmp" "ckp.pt")
         old_checkpoint "ckp.pt" = true.
Proof.
  eexists. split; [reflexivity|].
  split; [reflexivity|]. split; [cbn; tauto|].
  split; [reflexivity|]. split; reflexivity.
Qed.

(** C5, amended: whenever the record can be built, [save_state] runs the two
    steps of one [torch.save] on the destination itself, with no temporary
    file and no rename, so a crash between the steps shows a truncated file;
    a completed save leaves exactly the record at the destination, whatever
    was there before, and touches no other path. *)
Theorem C5_save_state_writes_in_place
    {T Mod Opt Sch : Type}
    {HM : Stateful T Mod} {HO : Stateful T Opt} {HS : Stateful T Sch}
    (slf : alg Mod Opt Sch) (path : string) (iter : Z) (if_sched : bool)
    (fs : filesystem T) (states : dict (obj T)) :
  save_record slf iter if_sched = Ok states ->
  save_state_ops slf path iter if_sched
  = Ok [OpenWrite path; WriteRecord path states]
  /\ crash_atomic [OpenWrite path; WriteRecord path states] fs path = false
  /\ (exists fs',
        save_state slf path iter if_sched fs = (Ok tt, fs')
        /\ get fs' path = Some (Saved states)
        /\ torch_load fs' path = Ok states
        /\ (forall p, p <> path -> get fs' p = get fs p)).
Proof.
  intros Hrec.
  assert (Hops : save_state_ops slf path iter if_sched
                 = Ok [OpenWrite path; WriteRecord path states]).
  { unfold save_state_ops. now rewrite Hrec. }
  split; [exact Hops|]. split; [apply (torch_save_not_crash_atomic states)|].
  exists (setitem (setitem fs path Truncated) path (Saved states)).
  unfold save_state. rewrite Hops. split; [reflexivity|].
  split; [apply get_setitem_same|]. split.
  - unfold torch_load. now rewrite get_setitem_same.
  - intros p Hp. now rewrite !get_setitem_other by auto.
Qed.

(** C5 at a concrete save over an older checkpoint. *)
Lemma C5_witness :
  save_state_ops (example_alg plain_gen) "ckp.pt" 5 false
  = Ok [OpenWrite "ckp.pt";
        WriteRecord "ckp.pt"
          [("iter", OInt 5);
           ("module_gen", OState [("weight", 1%Z); ("bias", 2%Z)]);
           ("optim_gen", OState [("momentum", 3%Z)])]]
  /\ crash_atomic
       [OpenWrite "ckp.pt";
        WriteRecord "ckp.pt"
          [("iter", OInt 5);
           ("module_gen", OState [("weight", 1%Z); ("bias", 2%Z)]);
           ("optim_gen", OState [("momentum", 3%Z)])]]
       old_checkpoint "ckp.pt" = false
  /\ (exists fs',
        save_state (example_alg plain_gen) "ckp.pt" 5 false old_checkpoint
        = (Ok tt, fs')
        /\ get fs' "ckp.pt"
           = Some (Saved [("iter", OInt 5);
                          ("module_gen", OState [("weight", 1%Z); ("bias", 2%Z)]);
                          ("optim_gen", OState [("momentum", 3%Z)])])
        /\ torch_load fs' "ckp.pt"
           = Ok [("iter", OInt 5);
                 ("module_gen", OState [("weight", 1%Z); ("bias", 2%Z)]);
                 ("optim_gen", OState [("momentum", 3%Z)])]
        /\ (forall p, p <> "ckp.pt" -> get fs' p = get old_checkpoint p)).
Proof.
  apply (C5_save_state_writes_in_place (example_alg plain_gen) "ckp.pt" 5 false
           old_checkpoint).
  reflexivity.
Defined.

(* ================================================================== *)
(** * The criterion registry                                            *)
(* ================================================================== *)

Lemma not_in_crit_lst name :
  ~ In name crit_lst -> existsb (String.eqb name) crit_lst = false.
Proof.
  intros Hnot. destruct (existsb (String.eqb name) crit_lst) eqn:E; auto.
  apply existsb_exists in E. destruct E as (x & Hin & Heq).
  apply String.eqb_eq in Heq. subst. contradiction.
Qed.

(** C7: [return_crit_func] raises the assertion error for every name outside
    [crit_lst], whatever the options; the names of [crit_lst] are [PSNR] and
    [LPIPS]; with options [None], [PSNR] is built and has [lsb = False], and
    [LPIPS] is built from the defaults [net='alex'], [spatial=False], moved
    to the GPU, and has [lsb = True], provided the network of the [lpips]
    package can be built and moved. *)
Theorem C7_registry_fails_fast_and_builds_defaults
    {Net : Type}
    (lpips_LPIPS : value -> value -> result Net) (cuda : Net -> result Net) :
  (forall name opts,
      ~ In name crit_lst ->
      return_crit_func lpips_LPIPS cuda name opts
      = Raise (AssertionError "NOT SUPPORTED YET!"))
  /\ (forall name, In name crit_lst <-> name = "PSNR" \/ name = "LPIPS")
  /\ (exists c,
        return_crit_func lpips_LPIPS cuda "PSNR" VNone = Ok c
        /\ c = IsPSNR Net {| psnr_lsb := false |}
        /\ lsb c = false)
  /\ (forall fn fn',
        lpips_LPIPS (VStr "alex") (VBool false) = Ok fn ->
        cuda fn = Ok fn' ->
        exists c,
          return_crit_func lpips_LPIPS cuda "LPIPS" VNone = Ok c
          /\ c = IsLPIPS {| lpips_fn := fn'; lpips_lsb := true |}
          /\ lsb c = true).
Proof.
  split; [|split; [|split]].
  - intros name opts Hnot. unfold return_crit_func.
    now rewrite not_in_crit_lst.
  - intros name. cbn. intuition congruence.
  - eexists. split; [reflexivity|]. split; reflexivity.
  - intros fn fn' Hnet Hcuda. eexists. split; [|split; reflexivity].
    unfold return_crit_func, crit_func_cls, LPIPS_init. cbn.
    rewrite Hnet. cbn. rewrite Hcuda. reflexivity.
Qed.

(** C7 with the probe network: an unknown name raises, [LPIPS] with options
    [None] is built with the defaults on the GPU. *)
Lemma C7_witness :
  return_crit_func probe_LPIPS probe_cuda "NotARealLoss" VNone
  = Raise (AssertionError "NOT SUPPORTED YET!")
  /\ exists c,
       return_crit_func probe_LPIPS probe_cuda "LPIPS" VNone = Ok c
       /\ c = IsLPIPS {| lpips_fn := {| probe_net_name := VStr "alex";
                                        probe_spatial := VBool false;
                                        probe_on_cuda := true |};
                         lpips_lsb := true |}
       /\ lsb c = true.
Proof.
  destruct (@C7_registry_fails_fast_and_builds_defaults probe_net
              probe_LPIPS probe_cuda)
    as (Hunknown & _ & _ & Hlpips).
  split.
  - apply Hunknown. cbn. intuition discriminate.
  - apply (Hlpips _ _ eq_refl eq_refl).
Defined.

(* ================================================================== *)
(** * The inputs of the LPIPS network                                   *)
(* ================================================================== *)

Lemma div_mod_pack a b n : b < n -> (a * n + b) / n = a /\ (a * n + b) mod n = b.
Proof.
  intros Hb. split.
  - symmetry. apply (Nat.div_unique _ _ _ b); lia.
  - symmetry. apply (Nat.mod_unique _ _ a); lia.
Qed.

Lemma pack_lt a b n m : a < m -> b < n -> a * n + b < m * n.
Proof.
  intros Ha Hb. assert ((a + 1) * n <= m * n) by (apply Nat.mul_le_mono_r; lia).
  lia.
Qed.

Lemma reverse_channels_length C data :
  List.length (reverse_channels C data) = List.length data.
Proof. unfold reverse_channels. now rewrite length_map, length_seq. Qed.

Lemma nth_map_seq {A} (f : nat -> A) n i d :
  i < n -> nth i (map f (seq 0 n)) d = f i.
Proof.
  intros Hi. rewrite nth_indep with (d' := f 0)
    by (now rewrite length_map, length_seq).
  rewrite (map_nth f (seq 0 n) 0 i). now rewrite seq_nth.
Qed.

(** Channel [c] of the reversed pixel is channel [C - 1 - c] of the pixel. *)
Lemma reverse_channels_nth C data q c :
  c < C -> q * C + c < List.length data ->
  nth (q * C + c) (reverse_channels C data) 0%Z
  = nth (q * C + (C - 1 - c)) data 0%Z.
Proof.
  intros Hc Hlen. unfold reverse_channels.
  rewrite nth_map_seq by assumption.
  destruct (div_mod_pack q c C Hc) as [-> ->]. reflexivity.
Qed.

(** The element at [(0, c, h, w)] after the transposition is the element at
    [(h, w, c, 0)] before it. *)
Lemma to_bchw_nth {A} H W C (d : A) data c h w :
  c < C -> h < H -> w < W ->
  nth ((c * H + h) * W + w) (to_bchw H W C d data) d
  = nth ((h * W + w) * C + c) data d.
Proof.
  intros Hc Hh Hw. unfold to_bchw.
  assert (Hlt : (c * H + h) * W + w < C * H * W)
    by (apply pack_lt; [apply pack_lt|]; assumption).
  rewrite nth_map_seq by assumption.
  destruct (div_mod_pack (c * H + h) w W Hw) as [Hq Hr].
  destruct (div_mod_pack c h H Hh) as [Hq' Hr'].
  rewrite (Nat.mul_comm H W), <- Nat.Div0.div_div, Hq, Hr, Hq', Hr'.
  reflexivity.
Qed.

Lemma to_bchw_length {A} H W C (d : A) data :
  List.length (to_bchw H W C d data) = C * H * W.
Proof. unfold to_bchw. now rewrite length_map, length_seq. Qed.

Lemma scale_pixel_documented v :
  scale_pixel v = (pixel_to_float v / 127.5 - 1)%float.
Proof. reflexivity. Qed.

(** The image branch of [_preprocess] produces the documented tensor. *)
Lemma preprocess_image a :
  exists t, _preprocess (PixelArray a) "im" = Ok (PTensor t)
            /\ normalised_image a t.
Proof.
  eexists. split; [reflexivity|].
  unfold normalised_image. cbn [t_dtype t_shape t_data].
  split; [reflexivity|]. split; [reflexivity|]. split.
  - now rewrite length_map, to_bchw_length.
  - intros Hlen c h w Hc Hh Hw. unfold element, pixel. cbn [t_data].
    assert (Hlt : (c * im_H a + h) * im_W a + w < im_C a * im_H a * im_W a)
      by (apply pack_lt; [apply pack_lt|]; assumption).
    assert (Hj : (h * im_W a + w) * im_C a + (im_C a - 1 - c)
                 < List.length (im_data a))
      by (rewrite Hlen; apply pack_lt; [apply pack_lt|]; [assumption..|lia]).
    assert (Hj' : (h * im_W a + w) * im_C a + c < List.length (im_data a))
      by (rewrite Hlen; apply pack_lt; [apply pack_lt|]; assumption).
    rewrite (nth_indep _ S754_nan (round_to float32 0%float))
      by now rewrite length_map, to_bchw_length.
    rewrite map_nth. f_equal.
    rewrite to_bchw_nth by assumption.
    rewrite (nth_indep _ 0%float (scale_pixel 0%Z))
      by now rewrite length_map, reverse_channels_length.
    rewrite map_nth, reverse_channels_nth by assumption.
    apply scale_pixel_documented.
Qed.

(** The tensor branch of [_preprocess] maps every element by [x * 2 - 1]. *)
Lemma preprocess_tensor t :
  _preprocess (FloatTensor t) "tensor" = Ok (PTensor (scaled_tensor t)).
Proof. reflexivity. Qed.

(** The constants of [scale_element] are the numbers 2 and 1. *)
Lemma two_one_of dt :
  SF2Prim (two_of dt) = 2%float /\ SF2Prim (one_of dt) = 1%float.
Proof. destruct dt; split; reflexivity. Qed.

(** C8, the claim as stated, fails: with a floating tensor as reference the
    candidate, a pixel array, goes through the tensor branch; it reaches the
    network as a [float64] array in its BGR order with values [2 * v - 1],
    not as the documented normalisation of a pixel array. *)
Lemma C8_counterexample :
  exists ref' im' documented,
    kernel_inputs (FloatTensor sample_tensor) (PixelArray sample_image)
    = Ok (ref', im')
    /\ im' = PArray64 [1; 2; 3] [-1; 101; 509; 203; 305; 407]%float
    /\ spec_normalize (PixelArray sample_image) = Ok documented
    /\ im' <> documented
    /\ forward probe_forward probe_item probe_lpips
         (FloatTensor sample_tensor) (PixelArray sample_image)
       = probe_item (ref', im').
Proof.
  do 3 eexists. split; [reflexivity|]. split; [reflexivity|].
  split; [reflexivity|]. split; [discriminate | reflexivity].
Qed.

(** C8, amended: the representation is detected once, on the reference
    ([dtype == uint8] or not), and both inputs are normalised in the mode of
    the reference.  Two pixel arrays reach the network as the documented
    [float32] tensors (channels reversed, [v / 127.5 - 1]); two floating
    tensors reach it with every element mapped to [2 * x - 1]; after a tensor
    reference a pixel array is mapped by [2 * v - 1] without reordering, and
    after a pixel-array reference a tensor makes the call raise.  What
    [forward] returns is what [item] gives for the result of the network. *)
Theorem C8_lpips_normalises_in_mode_of_reference
    {Net Score : Type}
    (lpips_forward : Net -> prepared -> prepared -> result Score)
    (item : Score -> result float) (slf : LPIPS Net) :
  (forall a b, exists ta tb,
      kernel_inputs (PixelArray a) (PixelArray b) = Ok (PTensor ta, PTensor tb)
      /\ normalised_image a ta /\ normalised_image b tb)
  /\ (forall s t,
        kernel_inputs (FloatTensor s) (FloatTensor t)
        = Ok (PTensor (scaled_tensor s), PTensor (scaled_tensor t)))
  /\ (forall s b,
        kernel_inputs (FloatTensor s) (PixelArray b)
        = Ok (PTensor (scaled_tensor s),
              PArray64 [im_H b; im_W b; im_C b]
                (map (fun v => (pixel_to_float v * 2 - 1)%float) (im_data b))))
  /\ (forall a t, exists e,
        kernel_inputs (PixelArray a) (FloatTensor t) = Raise e)
  /\ (forall ref im p score,
        kernel_inputs ref im = Ok p ->
        lpips_forward (lpips_fn slf) (fst p) (snd p) = Ok score ->
        forward lpips_forward item slf ref im = item score).
Proof.
  split; [|split; [|split; [|split]]].
  - intros a b.
    destruct (preprocess_image a) as (ta & Ha & Hna).
    destruct (preprocess_image b) as (tb & Hb & Hnb).
    exists ta, tb. unfold kernel_inputs. cbn [dtype_is_uint8].
    rewrite Ha, Hb. auto.
  - reflexivity.
  - reflexivity.
  - intros a t. unfold kernel_inputs. cbn [dtype_is_uint8].
    destruct (preprocess_image a) as (ta & -> & _). cbn.
    match goal with
    | |- context [if ?b then _ else _] => destruct b
    end; cbn [Py.bind]; eauto.
  - intros ref im p score Hp Hscore. unfold forward.
    rewrite Hp. cbn [Py.bind]. now rewrite Hscore.
Qed.

(** C8 at the sample inputs: the red channel of the normalised image holds
    the third (R) value of each BGR pixel, [255 / 127.5 - 1 = 1] for the
    first pixel, and [forward] hands back the scalar of the network. *)
Lemma C8_witness :
  (exists ta tb,
      kernel_inputs (PixelArray sample_image) (PixelArray sample_image)
      = Ok (PTensor ta, PTensor tb)
      /\ element ta 1 2 0 0 0
         = round_to float32 (pixel_to_float 255 / 127.5 - 1)%float
      /\ SF2Prim (element ta 1 2 0 0 0) = 1%float)
  /\ forward probe_forward probe_item probe_lpips
       (FloatTensor sample_tensor) (FloatTensor sample_tensor)
     = Ok 0.5%float.
Proof.
  destruct (@C8_lpips_normalises_in_mode_of_reference probe_net
              (prepared * prepared) probe_forward probe_item probe_lpips)
    as (Himages & Htensors & _ & _ & Hresult).
  split.
  - destruct (Himages sample_image sample_image)
      as (ta & tb & Hk & (_ & _ & _ & Hel) & _).
    exists ta, tb. split; [exact Hk|].
    assert (E : element ta 1 2 0 0 0
                = round_to float32 (pixel_to_float 255 / 127.5 - 1)%float).
    { apply (Hel eq_refl 0 0 0); cbn; lia. }
    split; [exact E|]. rewrite E. reflexivity.
  - apply (Hresult _ _ _ _ (Htensors sample_tensor sample_tensor) eq_refl).
Defined.

(* ================================================================== *)
(** * Saving and loading again                                          *)
(* ================================================================== *)

(** C3: saving a distributed-wrapped orchestrator with schedulers and
    loading the file again with every item name and [if_dist = True] should
    restore every component and return the iteration.  The save succeeds,
    but the load strips the token from the keys of the module state (first
    branch of lines 164-169); the wrapped module refuses the mapping, so the
    call raises and returns no iteration. *)
Theorem C3_distributed_round_trip_raises :
  exists fs,
    save_state (example_alg wrapped_gen) "ckp.pt" 5 true [] = (Ok tt, fs)
    /\ torch_load fs "ckp.pt"
       = Ok [("iter", OInt 5);
             ("module_gen", OState [("module.weight", 1%Z); ("module.bias", 2%Z)]);
             ("optim_gen", OState [("momentum", 3%Z)]);
             ("sched_gen", OState [("last_epoch", 4%Z)])]
    /\ load_state fs "ckp.pt" all_items true (example_alg wrapped_gen)
       = (Raise RuntimeError, example_alg wrapped_gen).
Proof. eexists. split; [reflexivity|]. split; reflexivity. Qed.

Section RoundTrip.
Context {T Mod Opt Sch : Type}.
Context {HM : Stateful T Mod} {HO : Stateful T Opt} {HS : Stateful T Sch}.

Lemma setitem_same_value {V} (d : dict V) k v :
  get d k = Some v -> setitem d k v = d.
Proof.
  induction d as [|[k0 v0] d IH]; simpl; [discriminate|].
  destruct (String.eqb_spec k0 k) as [->|Hk].
  - now intros [= ->].
  - intros Hg. now rewrite IH.
Qed.

Lemma get_app_in {V} (d d' : dict V) k :
  In k (keys d) -> get (d ++ d') k = get d k.
Proof.
  induction d as [|[k0 v0] d IH]; simpl; [tauto|].
  intros [->|Hin].
  - now rewrite String.eqb_refl.
  - destruct (String.eqb k0 k); auto.
Qed.

Lemma keys_saved_entries {H} {HH : Stateful T H} tag (bundle : dict H) :
  keys (saved_entries tag bundle)
  = map (fun n => (tag ++ n)%string) (keys bundle).
Proof. unfold saved_entries, keys. now rewrite !map_map. Qed.

Lemma get_saved_entries {H} {HH : Stateful T H} tag (bundle : dict H) n :
  get (saved_entries tag bundle) (tag ++ n)
  = option_map (fun h => OState (state_dict h)) (get bundle n).
Proof.
  induction bundle as [|[k h] bundle IH]; simpl; auto.
  destruct (String.eqb_spec k n) as [->|Hk].
  - now rewrite String.eqb_refl.
  - destruct (String.eqb_spec (tag ++ k) (tag ++ n)) as [E|_]; auto.
    apply append_string_inj in E. contradiction.
Qed.

(** A loop of [save_state] appends the entries of its bundle when their keys
    are new to the record. *)
Lemma add_states_appends {H} {HH : Stateful T H} tag (bundle : dict H) states :
  NoDup (keys bundle) ->
  (forall n, In n (keys bundle) -> ~ In (tag ++ n)%string (keys states)) ->
  add_states tag bundle states = Ok (states ++ saved_entries tag bundle).
Proof.
  intros Hnd Hfresh. unfold add_states.
  assert (Hgen : forall todo done acc,
             bundle = done ++ todo ->
             (forall n, In n (keys todo) -> ~ In (tag ++ n)%string (keys acc)) ->
             fold_left
               (fun acc name =>
                  states <- acc ;;
                  h <- getitem bundle name ;;
                  Ok (setitem states (tag ++ name) (OState (state_dict h))))
               (keys todo) (Ok acc)
             = Ok (acc ++ saved_entries tag todo)).
  { induction todo as [|[k h] todo IH]; intros done acc Hb Hf.
    - cbn. now rewrite app_nil_r.
    - assert (Hk : ~ In k (keys done)).
      { rewrite Hb, keys_app in Hnd. cbn in Hnd.
        apply NoDup_remove_2 in Hnd. intros Hin. apply Hnd.
        apply in_or_app. now left. }
      assert (Hk' : ~ In k (keys todo)).
      { rewrite Hb, keys_app in Hnd. cbn in Hnd.
        apply NoDup_remove_2 in Hnd. intros Hin. apply Hnd.
        apply in_or_app. now right. }
      assert (Hget : getitem bundle k = Ok h).
      { unfold getitem. rewrite Hb, (get_app_notin _ _ _ Hk). cbn [get].
        now rewrite String.eqb_refl. }
      cbn [keys map fst fold_left Py.bind]. rewrite Hget. cbn [Py.bind].
      rewrite setitem_fresh by (apply Hf; now left).
      change (map fst todo) with (keys todo).
      rewrite (IH (done ++ [(k, h)]) (acc ++ [((tag ++ k)%string, OState (state_dict h))])).
      + cbn. now rewrite <- app_assoc.
      + now rewrite <- app_assoc.
      + intros n Hn. rewrite keys_app. cbn. intros Hin.
        apply in_app_or in Hin. destruct Hin as [Hin|[E|[]]].
        * apply (Hf n); [now right | assumption].
        * apply append_string_inj in E. subst. contradiction. }
  exact (Hgen bundle [] states eq_refl Hfresh).
Qed.

Lemma for_each_all_ok {S X} (xs : list X) (f : X -> action S unit) s :
  (forall x, In x xs -> f x s = (Ok tt, s)) ->
  for_each xs f s = (Ok tt, s).
Proof.
  induction xs as [|x xs IH]; intros Hall; [reflexivity|].
  cbn [for_each]. unfold abind. rewrite Hall by now left.
  apply IH. intros y Hy. apply Hall. now right.
Qed.

Lemma load_into_same {H} {HH : Stateful T H} (bundle : dict H) n h :
  get bundle n = Some h ->
  load_state_dict h (OState (state_dict h)) = Ok h ->
  load_into bundle n (OState (state_dict h)) = Ok bundle.
Proof.
  intros Hg Hl. unfold load_into, getitem. rewrite Hg. cbn [Py.bind].
  rewrite Hl. cbn [Py.bind]. now rewrite setitem_same_value.
Qed.

Lemma prefix_append p s : String.prefix p (p ++ s) = true.
Proof.
  induction p as [|a p IH]; cbn.
  - now destruct s.
  - destruct (ascii_dec a a); [exact IH | contradiction].
Qed.

Lemma contains_prefixed p s : contains p (p ++ s) = true.
Proof.
  pose proof (prefix_append p s) as Hp.
  destruct (p ++ s)%string as [|a t]; cbn [contains]; now rewrite Hp.
Qed.

Lemma not_in_keys_app {V} (d d' : dict V) k :
  ~ In k (keys d) -> ~ In k (keys d') -> ~ In k (keys (d ++ d')).
Proof.
  intros H1 H2. rewrite keys_app. intros Hin.
  apply in_app_or in Hin. tauto.
Qed.

Lemma not_in_saved_entries {H} {HH : Stateful T H} tag tag' (bundle : dict H) n :
  (forall x, (tag ++ x)%string <> (tag' ++ n)%string) ->
  ~ In (tag' ++ n)%string (keys (saved_entries tag bundle)).
Proof.
  intros Hne. rewrite keys_saved_entries. intros Hin.
  apply in_map_iff in Hin. destruct Hin as (x & E & _). now apply (Hne x).
Qed.

Lemma not_in_iter (o : obj T) k : "iter" <> k -> ~ In k (keys [("iter", o)]).
Proof. intros Hne [E|[]]. now apply Hne. Qed.

Lemma in_keys_get {V} (d : dict V) n :
  In n (keys d) -> exists v, get d n = Some v.
Proof.
  intros Hin. destruct (get d n) eqn:E; eauto.
  apply get_None_not_in in E. contradiction.
Qed.

Lemma get_in_keys {V} (d : dict V) n v : get d n = Some v -> In n (keys d).
Proof.
  intros E. apply get_Some_in in E. change n with (fst (n, v)).
  now apply in_map.
Qed.

(** The record [save_state] builds for an orchestrator with all three
    bundles. *)
Lemma save_record_all (mods : dict Mod) (optims : dict Opt) (scheds : dict Sch)
    iter :
  NoDup (keys mods) -> NoDup (keys optims) -> NoDup (keys scheds) ->
  save_record {| module_lst := Some mods; optim_lst := Some optims;
                 sched_lst := Some scheds |} iter true
  = Ok ([("iter", OInt iter)] ++ saved_entries "module_" mods
        ++ saved_entries "optim_" optims ++ saved_entries "sched_" scheds).
Proof.
  intros Hm Ho Hs. unfold save_record.
  cbn [attr module_lst optim_lst sched_lst Py.bind].
  rewrite add_states_appends; [|assumption|].
  2:{ intros n _. apply not_in_iter. discriminate. }
  cbn [Py.bind]. rewrite add_states_appends; [|assumption|].
  2:{ intros n _. apply not_in_keys_app;
        [apply not_in_iter | apply not_in_saved_entries; intros x]; discriminate. }
  cbn [Py.bind]. rewrite add_states_appends; [|assumption|].
  2:{ intros n _. repeat apply not_in_keys_app;
        [apply not_in_iter | apply not_in_saved_entries; intros x
         | apply not_in_saved_entries; intros x]; discriminate. }
  now rewrite <- !app_assoc.
Qed.

Section Lookup.
Variables (mods : dict Mod) (optims : dict Opt) (scheds : dict Sch) (iter : Z).

Local Abbreviation saved :=
  ([("iter", OInt iter)] ++ saved_entries "module_" mods
   ++ saved_entries "optim_" optims ++ saved_entries "sched_" scheds).

Lemma get_saved_iter : get saved "iter" = Some (OInt iter).
Proof. reflexivity. Qed.

Lemma get_saved_module n m :
  get mods n = Some m ->
  get saved ("module_" ++ n) = Some (OState (state_dict m)).
Proof.
  intros E. rewrite get_app_notin by (apply not_in_iter; discriminate).
  rewrite get_app_in.
  - now rewrite get_saved_entries, E.
  - rewrite keys_saved_entries. apply in_map. eapply get_in_keys; eauto.
Qed.

Lemma get_saved_optim n o :
  get optims n = Some o ->
  get saved ("optim_" ++ n) = Some (OState (state_dict o)).
Proof.
  intros E. rewrite get_app_notin by (apply not_in_iter; discriminate).
  rewrite get_app_notin
    by (apply not_in_saved_entries; intros x; discriminate).
  rewrite get_app_in.
  - now rewrite get_saved_entries, E.
  - rewrite keys_saved_entries. apply in_map. eapply get_in_keys; eauto.
Qed.

Lemma get_saved_sched n s :
  get scheds n = Some s ->
  get saved ("sched_" ++ n) = Some (OState (state_dict s)).
Proof.
  intros E. rewrite get_app_notin by (apply not_in_iter; discriminate).
  rewrite get_app_notin
    by (apply not_in_saved_entries; intros x; discriminate).
  rewrite get_app_notin
    by (apply not_in_saved_entries; intros x; discriminate).
  now rewrite get_saved_entries, E.
Qed.
End Lookup.

(** X8: saving with schedulers and loading every item with
    [if_dist = False] succeeds, returns the iteration and leaves every
    component in the state it was saved in: the round trip holds on the branch that loads directly,
    for handles that accept their own state, modules with a non-empty state
    and component names that do not themselves contain a token of an earlier
    branch. *)
Lemma save_load_round_trip_not_distributed
    (mods : dict Mod) (optims : dict Opt) (scheds : dict Sch)
    (path : string) (iter : Z) (fs : filesystem T) :
  NoDup (keys mods) -> NoDup (keys optims) -> NoDup (keys scheds) ->
  (forall n m, get mods n = Some m ->
     load_state_dict m (OState (state_dict m)) = Ok m) ->
  (forall n o, get optims n = Some o ->
     load_state_dict o (OState (state_dict o)) = Ok o) ->
  (forall n s, get scheds n = Some s ->
     load_state_dict s (OState (state_dict s)) = Ok s) ->
  (forall n m, get mods n = Some m -> state_dict m <> []) ->
  (forall n, In n (keys optims) ->
             contains "module_" ("optim_" ++ n) = false) ->
  (forall n, In n (keys scheds) ->
             contains "module_" ("sched_" ++ n) = false
             /\ contains "optim_" ("sched_" ++ n) = false) ->
  let slf := {| module_lst := Some mods; optim_lst := Some optims;
                sched_lst := Some scheds |} in
  let items := map (fun n => ("module_" ++ n)%string) (keys mods)
               ++ map (fun n => ("optim_" ++ n)%string) (keys optims)
               ++ map (fun n => ("sched_" ++ n)%string) (keys scheds) in
  exists fs',
    save_state slf path iter true fs = (Ok tt, fs')
    /\ load_state fs' path items false slf = (Ok (OInt iter), slf).
Proof.
  intros Hm Ho Hs Hlm Hlo Hls Hne Hoc Hsc slf items.
  pose proof (save_record_all mods optims scheds iter Hm Ho Hs) as Hrec.
  fold slf in Hrec.
  eexists. split.
  { unfold save_state, save_state_ops. rewrite Hrec. reflexivity. }
  unfold load_state, abind, lift, torch_load.
  cbn [torch_save fs_run fold_left fs_step]. rewrite get_setitem_same.
  rewrite for_each_all_ok.
  - unfold getitem. now rewrite get_saved_iter.
  - intros item Hitem. rewrite load_item_run. unfold items in Hitem.
    apply in_app_or in Hitem. destruct Hitem as [Hitem|Hitem];
      [|apply in_app_or in Hitem; destruct Hitem as [Hitem|Hitem]];
      apply in_map_iff in Hitem; destruct Hitem as (n & <- & Hn);
      destruct (in_keys_get _ n Hn) as (h & Hh).
    + rewrite (get_saved_module _ _ _ _ _ _ Hh).
      unfold code_target.
      rewrite contains_prefixed.
      cbn [slice_from append].
      destruct (state_dict h) as [|[k0 v0] sd] eqn:Esd;
        [exfalso; eapply Hne; eauto|].
      rewrite (module_state_to_load_not_dist _ k0) by reflexivity.
      cbn [module_lst slf]. rewrite <- Esd.
      rewrite load_into_same by eauto. reflexivity.
    + rewrite (get_saved_optim _ _ _ _ _ _ Hh).
      unfold code_target. rewrite (Hoc n Hn).
      rewrite contains_prefixed.
      cbn [slice_from append optim_lst slf].
      rewrite load_into_same by eauto. reflexivity.
    + rewrite (get_saved_sched _ _ _ _ _ _ Hh).
      unfold code_target. destruct (Hsc n Hn) as [-> ->].
      rewrite contains_prefixed.
      cbn [slice_from append sched_lst slf].
      rewrite load_into_same by eauto. reflexivity.
Qed.
End RoundTrip.

(** The round trip of the example orchestrator, not wrapped, with
    [if_dist = False]. *)
Lemma round_trip_example :
  exists fs',
    save_state (example_alg plain_gen) "ckp.pt" 5 true old_checkpoint
    = (Ok tt, fs')
    /\ load_state fs' "ckp.pt" all_items false (example_alg plain_gen)
       = (Ok (OInt 5), example_alg plain_gen).
Proof.
  apply (save_load_round_trip_not_distributed
           [("gen", plain_gen)]
           [("gen", {| optim_state := [("momentum", 3%Z)] |})]
           [("gen", {| last_epoch := 4%Z |})] "ckp.pt" 5 old_checkpoint);
    try nodup_strings.
  - intros n m. cbn [get]. destruct (String.eqb "gen" n); [|intros E; discriminate E].
    now intros [= <-].
  - intros n o. cbn [get]. destruct (String.eqb "gen" n); [|intros E; discriminate E].
    now intros [= <-].
  - intros n s. cbn [get]. destruct (String.eqb "gen" n); [|intros E; discriminate E].
    now intros [= <-].
  - intros n m. cbn [get]. destruct (String.eqb "gen" n); [|intros E; discriminate E].
    intros [= <-]. discriminate.
  - intros n [<-|[]]. reflexivity.
  - intros n [<-|[]]. split; reflexivity.
Defined.

(* ================================================================== *)
(** * Renaming the keys of a module state                               *)
(* ================================================================== *)

Section Renaming.
Context {T : Type}.
Implicit Types (sd acc : dict T).

Lemma in_keys_setitem {V} (d : dict V) k v x :
  In x (keys (setitem d k v)) -> x = k \/ In x (keys d).
Proof.
  induction d as [|[k0 v0] d IH]; simpl.
  - intros [<-|[]]. now left.
  - destruct (String.eqb_spec k0 k) as [->|Hk]; simpl; [tauto|].
    intros [<-|Hin]; [tauto|]. destruct (IH Hin); tauto.
Qed.

Lemma nodup_keys_setitem {V} (d : dict V) k v :
  NoDup (keys d) -> NoDup (keys (setitem d k v)).
Proof.
  induction d as [|[k0 v0] d IH]; simpl; intros Hnd.
  - repeat constructor. tauto.
  - inversion Hnd as [|? ? Hnot Hnd']; subst.
    destruct (String.eqb_spec k0 k) as [->|Hk]; simpl.
    + now constructor.
    + constructor; [|now apply IH].
      intros Hin. apply in_keys_setitem in Hin. destruct Hin; congruence.
Qed.

Lemma length_setitem {V} (d : dict V) k v :
  List.length (setitem d k v) <= S (List.length d).
Proof.
  induction d as [|[k0 v0] d IH]; simpl; [lia|].
  destruct (String.eqb k0 k); simpl; lia.
Qed.

(** The loop [new_state_dict[rename(k)] = v]: a later entry overwrites an
    earlier one of the same new key. *)
Lemma fold_rename_get (rename : string -> string) : forall sd acc k',
  get (fold_left (fun acc kv => setitem acc (rename (fst kv)) (snd kv)) sd acc) k'
  = match last_value rename sd k' with
    | Some v => Some v
    | None => get acc k'
    end.
Proof.
  induction sd as [|[k v] sd IH]; intros acc k'; simpl; [reflexivity|].
  rewrite IH. destruct (last_value rename sd k'); [reflexivity|].
  destruct (String.eqb_spec (rename k) k') as [->|Hne].
  - apply get_setitem_same.
  - apply get_setitem_other. congruence.
Qed.

Lemma fold_rename_nodup (rename : string -> string) : forall sd acc,
  NoDup (keys acc) ->
  NoDup (keys (fold_left (fun acc kv => setitem acc (rename (fst kv)) (snd kv))
                         sd acc)).
Proof.
  induction sd as [|[k v] sd IH]; intros acc Hnd; simpl; auto.
  apply IH. now apply nodup_keys_setitem.
Qed.

Lemma fold_rename_length (rename : string -> string) : forall sd acc,
  List.length (fold_left (fun acc kv => setitem acc (rename (fst kv)) (snd kv))
                         sd acc)
  <= List.length acc + List.length sd.
Proof.
  induction sd as [|[k v] sd IH]; intros acc; simpl; [lia|].
  specialize (IH (setitem acc (rename k) v)).
  pose proof (length_setitem acc (rename k) v). lia.
Qed.

Lemma last_value_in (rename : string -> string) sd k' v :
  last_value rename sd k' = Some v ->
  exists k, In (k, v) sd /\ rename k = k'.
Proof.
  induction sd as [|[k0 v0] sd IH]; simpl; [discriminate|].
  destruct (last_value rename sd k') as [v'|].
  - intros [= <-]. destruct (IH eq_refl) as (k & Hin & Hk). eauto.
  - destruct (String.eqb_spec (rename k0) k'); [|discriminate].
    intros [= <-]. eauto.
Qed.

(** When the new keys are all different the loop renames entry by entry. *)
Lemma fold_rename_map (rename : string -> string) sd :
  NoDup (map rename (keys sd)) ->
  fold_left (fun acc kv => setitem acc (rename (fst kv)) (snd kv)) sd []
  = map (fun kv => (rename (fst kv), snd kv)) sd.
Proof.
  set (g := fun kv : string * T => (rename (fst kv), snd kv)).
  assert (Hgen : forall todo acc,
             NoDup (keys acc ++ map rename (keys todo)) ->
             fold_left (fun acc kv => setitem acc (rename (fst kv)) (snd kv))
                       todo acc
             = acc ++ map g todo).
  { induction todo as [|[k v] todo IH]; intros acc Hnd; simpl.
    - now rewrite app_nil_r.
    - assert (Hfresh : ~ In (rename k) (keys acc)).
      { simpl in Hnd. apply NoDup_remove_2 in Hnd.
        intros Hin. apply Hnd. apply in_or_app. now left. }
      rewrite IH.
      + rewrite setitem_fresh by assumption. now rewrite <- app_assoc.
      + rewrite setitem_fresh by assumption.
        rewrite keys_app. simpl. rewrite <- app_assoc. exact Hnd. }
  intros Hnd. now rewrite Hgen.
Qed.

Lemma prefix_split p k :
  String.prefix p k = true -> (p ++ slice_from (String.length p) k)%string = k.
Proof.
  revert k. induction p as [|a p IH]; intros k.
  - reflexivity.
  - destruct k as [|b k]; simpl; [intros E; discriminate E|].
    destruct (ascii_dec a b) as [->|]; [|intros E; discriminate E].
    intros Hp. now rewrite IH.
Qed.

(** X2: [remove_module] drops the first seven characters of every key,
    whatever they are.  For every new key the result holds the value of the
    last saved entry renamed to it; the result has no duplicate keys, is no
    longer than the saved state, and every entry of it comes from a saved
    entry. *)
Theorem remove_module_last_entry_wins sd :
  NoDup (keys (remove_module sd))
  /\ List.length (remove_module sd) <= List.length sd
  /\ (forall k', get (remove_module sd) k' = last_value (slice_from 7) sd k')
  /\ (forall k' v, get (remove_module sd) k' = Some v ->
        exists k, In (k, v) sd /\ slice_from 7 k = k').
Proof.
  unfold remove_module. split; [|split; [|split]].
  - apply fold_rename_nodup. constructor.
  - apply (fold_rename_length (slice_from 7) sd []).
  - intros k'. rewrite (fold_rename_get (slice_from 7)).
    now destruct (last_value (slice_from 7) sd k').
  - intros k' v. rewrite (fold_rename_get (slice_from 7)).
    destruct (last_value (slice_from 7) sd k') eqn:E; [|discriminate].
    intros [= <-]. now apply (last_value_in (slice_from 7)).
Qed.

(** X1: the two renamings of [load_state] undo each other.  Stripping after
    adding gives back any state with distinct keys; adding after stripping
    gives back a state whose keys are distinct and all start with the
    token. *)
Theorem add_and_remove_module_round_trip sd :
  NoDup (keys sd) ->
  remove_module (add_module sd) = sd
  /\ ((forall k, In k (keys sd) -> String.prefix "module." k = true) ->
      add_module (remove_module sd) = sd).
Proof.
  intros Hnd. split.
  - rewrite add_module_map by assumption. unfold remove_module.
    rewrite (fold_rename_map (slice_from 7)).
    + rewrite map_map. cbn [fst snd slice_from append].
      rewrite <- (map_id sd) at 2. apply map_ext. now intros [k v].
    + unfold keys. rewrite !map_map. cbn [fst snd slice_from append].
      exact Hnd.
  - intros Hpre.
    assert (Hinj : NoDup (map (slice_from 7) (keys sd))).
    { apply Injective_map_NoDup_in; [|assumption].
      intros x y Hx Hy E.
      rewrite <- (prefix_split "module." x (Hpre x Hx)).
      rewrite <- (prefix_split "module." y (Hpre y Hy)).
      cbn [String.length]. now rewrite E. }
    unfold remove_module. rewrite (fold_rename_map (slice_from 7)) by assumption.
    rewrite add_module_map.
    + rewrite map_map. cbn [fst snd].
      rewrite <- (map_id sd) at 2. apply map_ext_in. intros [k v] Hin.
      cbn [fst snd]. f_equal.
      apply (prefix_split "module." k). apply Hpre.
      change k with (fst (k, v)). now apply in_map.
    + unfold keys. rewrite map_map. cbn [fst].
      unfold keys in Hinj. now rewrite map_map in Hinj.
Qed.
End Renaming.

(** X1 at the state of the wrapped example module. *)
Lemma add_and_remove_module_round_trip_witness :
  remove_module (add_module (parameters plain_gen)) = parameters plain_gen
  /\ add_module (remove_module (parameters wrapped_gen)) = parameters wrapped_gen.
Proof.
  split.
  - apply (add_and_remove_module_round_trip (parameters plain_gen)).
    nodup_strings.
  - apply (add_and_remove_module_round_trip (parameters wrapped_gen));
      [nodup_strings|].
    intros k [<-|[<-|[]]]; reflexivity.
Defined.

(** X3 at the state of the example module that is not wrapped. *)
Lemma unprefixed_distributed_gains_prefix_witness :
  module_state_to_load true (OState (parameters plain_gen))
  = Ok (OState [("module.weight", 1%Z); ("module.bias", 2%Z)]).
Proof.
  apply (unprefixed_distributed_gains_prefix (parameters plain_gen) "weight");
    [nodup_strings | reflexivity | reflexivity].
Defined.

(* ================================================================== *)
(** * Further properties of [load_state] and [save_state]               *)
(* ================================================================== *)

Section LoadMore.
Context {T Mod Opt Sch : Type}.
Context {HM : Stateful T Mod} {HO : Stateful T Opt} {HS : Stateful T Sch}.
Implicit Types (slf : alg Mod Opt Sch) (states : dict (obj T)).

Lemma load_state_with_record (fs : filesystem T) path states items if_dist slf :
  get fs path = Some (Saved states) ->
  load_state fs path items if_dist slf
  = (for_each items (load_item states if_dist) ;;;
     lift (getitem states "iter")) slf.
Proof.
  intros Hfile. unfold load_state, abind, lift, torch_load. now rewrite Hfile.
Qed.

(** X4: a module whose saved state is empty cannot be loaded: the
    inspection of the first key raises [IndexError] for either value of
    [if_dist] and whether or not the orchestrator owns the module; the items
    before it stay loaded. *)
Theorem load_state_empty_module_state_raises
    (fs : filesystem T) path states pre item post if_dist slf slf1 :
  get fs path = Some (Saved states) ->
  for_each pre (load_item states if_dist) slf = (Ok tt, slf1) ->
  contains "module_" item = true ->
  get states item = Some (OState []) ->
  load_state fs path (pre ++ item :: post) if_dist slf = (Raise IndexError, slf1).
Proof.
  intros Hfile Hpre Hmod Hget.
  rewrite (load_state_with_record fs path states _ _ _ Hfile). unfold abind.
  rewrite (for_each_app pre (item :: post) _ slf slf1 Hpre).
  cbn [for_each]. unfold abind. rewrite load_item_run, Hget.
  unfold code_target. rewrite Hmod. reflexivity.
Qed.

Lemma for_each_ext_in {S X} (xs : list X) (f g : X -> action S unit) :
  (forall x s, In x xs -> f x s = g x s) ->
  forall s, for_each xs f s = for_each xs g s.
Proof.
  induction xs as [|x xs IH]; intros Hext s; [reflexivity|].
  cbn [for_each]. unfold abind. rewrite Hext by now left.
  destruct (g x s) as [[[]|e] s1]; [|reflexivity].
  apply IH. intros y s' Hy. apply Hext. now right.
Qed.

(** X5: [if_dist] matters for module items only: when no requested item
    contains [module_], the load does the same for both values. *)
Theorem load_state_if_dist_only_for_modules
    (fs : filesystem T) path items slf :
  (forall item, In item items -> contains "module_" item = false) ->
  load_state fs path items true slf = load_state fs path items false slf.
Proof.
  intros Hno. unfold load_state, abind, lift.
  destruct (torch_load fs path) as [states|e]; [|reflexivity].
  rewrite (for_each_ext_in items (load_item states true) (load_item states false));
    [reflexivity|].
  intros item s Hin. rewrite !load_item_run. unfold code_target.
  rewrite (Hno item Hin).
  destruct (get states item); [|reflexivity].
  destruct (contains "optim_" item); [reflexivity|].
  destruct (contains "sched_" item); reflexivity.
Qed.

Lemma load_into_keys {H} {HH : Stateful T H} (bundle bundle' : dict H) name o :
  load_into bundle name o = Ok bundle' -> keys bundle' = keys bundle.
Proof.
  intros Hl. destruct (load_into_inv _ _ _ _ Hl) as (h & h' & Hg & _ & ->).
  apply keys_setitem_present. eapply get_in_keys; eauto.
Qed.

Lemma load_item_keeps_keys states if_dist item slf r slf' :
  load_item states if_dist item slf = (r, slf') ->
  option_map keys (module_lst slf') = option_map keys (module_lst slf)
  /\ option_map keys (optim_lst slf') = option_map keys (optim_lst slf)
  /\ option_map keys (sched_lst slf') = option_map keys (sched_lst slf).
Proof.
  rewrite load_item_run. intros Hrun.
  repeat match type of Hrun with
         | context [match ?x with _ => _ end] =>
             let E := fresh "E" in destruct x eqn:E
         end;
    inversion Hrun; subst; auto;
    cbn [set_module_lst set_optim_lst set_sched_lst module_lst optim_lst
         sched_lst option_map];
    try match goal with
        | E : load_into _ _ _ = Ok _ |- _ => rewrite (load_into_keys _ _ _ _ E)
        end;
    repeat match goal with
           | F : ?x = _ |- context [?x] => rewrite F
           end;
    auto.
Qed.

(** X6: whatever the outcome, [load_state] leaves the orchestrator with the
    components it had: the names of the modules, optimizers and schedulers
    and their order do not change. *)
Theorem load_state_keeps_component_names
    (fs : filesystem T) path items if_dist slf r slf' :
  load_state fs path items if_dist slf = (r, slf') ->
  option_map keys (module_lst slf') = option_map keys (module_lst slf)
  /\ option_map keys (optim_lst slf') = option_map keys (optim_lst slf)
  /\ option_map keys (sched_lst slf') = option_map keys (sched_lst slf).
Proof.
  assert (Hloop : forall states xs (s : alg Mod Opt Sch) r1 s1,
             for_each xs (load_item states if_dist) s = (r1, s1) ->
             option_map keys (module_lst s1) = option_map keys (module_lst s)
             /\ option_map keys (optim_lst s1) = option_map keys (optim_lst s)
             /\ option_map keys (sched_lst s1) = option_map keys (sched_lst s)).
  { intros states. induction xs as [|x xs IH]; intros s r1 s1 Hrun.
    - cbn in Hrun. inversion Hrun; subst. auto.
    - cbn [for_each] in Hrun. apply abind_inv in Hrun.
      destruct Hrun as [([] & s2 & Hitem & Hrest) | (e & Hitem & ->)].
      + destruct (load_item_keeps_keys _ _ _ _ _ _ Hitem) as (A1 & A2 & A3).
        destruct (IH _ _ _ Hrest) as (B1 & B2 & B3).
        rewrite B1, B2, B3. auto.
      + eapply load_item_keeps_keys; eauto. }
  unfold load_state. intros Hrun. apply abind_inv in Hrun.
  destruct Hrun as [(states & s0 & Hload & Hrun) | (e & Hload & ->)].
  - unfold lift in Hload. inversion Hload; subst.
    apply abind_inv in Hrun.
    destruct Hrun as [([] & s1 & Hloop1 & Hret) | (e & Hloop1 & ->)].
    + unfold lift in Hret. inversion Hret; subst. eapply Hloop; eauto.
    + eapply Hloop; eauto.
  - unfold lift in Hload. inversion Hload; subst. auto.
Qed.

(** X7: a requested item that is in the record but contains none of the
    three tokens is passed over without an error: a load of such items only
    returns the iteration and changes nothing. *)
Theorem load_state_skips_items_without_token
    (fs : filesystem T) path states items if_dist slf :
  get fs path = Some (Saved states) ->
  (forall item, In item items ->
     mem states item = true
     /\ contains "module_" item = false
     /\ contains "optim_" item = false
     /\ contains "sched_" item = false) ->
  load_state fs path items if_dist slf = (getitem states "iter", slf).
Proof.
  intros Hfile Hskip.
  rewrite (load_state_with_record fs path states _ _ _ Hfile). unfold abind.
  rewrite for_each_all_ok; [reflexivity|].
  intros item Hin. destruct (Hskip item Hin) as (Hmem & Hm & Ho & Hs).
  rewrite load_item_run. unfold mem in Hmem.
  destruct (get states item); [|discriminate].
  unfold code_target. now rewrite Hm, Ho, Hs.
Qed.

Lemma add_states_total {H} {HH : Stateful T H} tag (bundle : dict H) states :
  exists states', add_states tag bundle states = Ok states'.
Proof.
  unfold add_states.
  assert (Hgen : forall ks acc,
             (forall k, In k ks -> In k (keys bundle)) ->
             exists states',
               fold_left
                 (fun acc name =>
                    states <- acc ;;
                    h <- getitem bundle name ;;
                    Ok (setitem states (tag ++ name) (OState (state_dict h))))
                 ks (Ok acc) = Ok states').
  { induction ks as [|k ks IH]; intros acc Hin; [cbn; eauto|].
    destruct (in_keys_get bundle k (Hin k (or_introl eq_refl))) as (h & Hh).
    assert (Hget : getitem bundle k = Ok h) by (unfold getitem; now rewrite Hh).
    cbn [fold_left Py.bind]. rewrite Hget. cbn [Py.bind].
    apply IH. intros k' Hk'. apply Hin. now right. }
  apply Hgen. auto.
Qed.

(** X10: [save_state] needs the bundles it reads and nothing else: with
    modules and optimizers in place (and schedulers when they are asked for)
    it returns normally; otherwise it raises [AttributeError] and leaves the
    file system as it was. *)
Theorem save_state_needs_its_bundles
    slf path iter if_sched (fs : filesystem T) :
  if bundle_defined slf KModule && bundle_defined slf KOptim
     && (negb if_sched || bundle_defined slf KSched)
  then exists fs', save_state slf path iter if_sched fs = (Ok tt, fs')
  else save_state slf path iter if_sched fs = (Raise AttributeError, fs).
Proof.
  unfold save_state, save_state_ops, save_record, bundle_defined.
  destruct (module_lst slf) as [mods|]; cbn [attr Py.bind andb]; [|reflexivity].
  destruct (add_states_total "module_" mods [("iter", OInt iter)]) as (s1 & ->).
  cbn [Py.bind].
  destruct (optim_lst slf) as [optims|]; cbn [attr Py.bind andb]; [|reflexivity].
  destruct (add_states_total "optim_" optims s1) as (s2 & ->).
  cbn [Py.bind]. destruct if_sched; cbn [negb orb].
  - destruct (sched_lst slf) as [scheds|]; cbn [attr Py.bind]; [|reflexivity].
    destruct (add_states_total "sched_" scheds s2) as (s3 & ->).
    cbn [Py.bind]. eauto.
  - cbn [Py.bind]. eauto.
Qed.

Lemma save_record_without_schedulers (mods : dict Mod) (optims : dict Opt)
    (scheds : option (dict Sch)) iter :
  NoDup (keys mods) -> NoDup (keys optims) ->
  save_record {| module_lst := Some mods; optim_lst := Some optims;
                 sched_lst := scheds |} iter false
  = Ok ([("iter", OInt iter)] ++ saved_entries "module_" mods
        ++ saved_entries "optim_" optims).
Proof.
  intros Hm Ho. unfold save_record.
  cbn [attr module_lst optim_lst sched_lst Py.bind].
  rewrite add_states_appends; [|assumption|].
  2:{ intros n _. apply not_in_iter. discriminate. }
  cbn [Py.bind]. rewrite add_states_appends; [|assumption|].
  2:{ intros n _. apply not_in_keys_app;
        [apply not_in_iter | apply not_in_saved_entries; intros x]; discriminate. }
  now rewrite <- !app_assoc.
Qed.

(** X9: a save without schedulers works whether or not the orchestrator has
    schedulers, and its record holds no scheduler entry: a later load that
    asks for a scheduler item raises [KeyError] for that item. *)
Theorem save_without_schedulers_cannot_restore_them
    (mods : dict Mod) (optims : dict Opt) (scheds : option (dict Sch))
    path iter (fs : filesystem T) name rest if_dist slf2 :
  NoDup (keys mods) -> NoDup (keys optims) ->
  exists fs',
    save_state {| module_lst := Some mods; optim_lst := Some optims;
                  sched_lst := scheds |} path iter false fs = (Ok tt, fs')
    /\ load_state fs' path (("sched_" ++ name)%string :: rest) if_dist slf2
       = (Raise (KeyError ("sched_" ++ name)), slf2).
Proof.
  intros Hm Ho.
  pose proof (save_record_without_schedulers mods optims scheds iter Hm Ho) as Hrec.
  eexists. split.
  { unfold save_state, save_state_ops. rewrite Hrec. reflexivity. }
  cbn [torch_save fs_run fold_left fs_step].
  rewrite (load_state_with_record _ path _ _ _ _ (get_setitem_same _ _ _)).
  unfold abind. cbn [for_each]. unfold abind. rewrite load_item_run.
  assert (Hnone : get ([("iter", OInt iter)] ++ saved_entries "module_" mods
                       ++ saved_entries "optim_" optims) ("sched_" ++ name)
                  = None).
  { apply get_None_not_in. repeat apply not_in_keys_app;
      [apply not_in_iter | apply not_in_saved_entries; intros x
       | apply not_in_saved_entries; intros x]; discriminate. }
  now rewrite Hnone.
Qed.

(** X11: the record of a save with schedulers holds [iter] first and then
    one entry per module, optimizer and scheduler, in the order of the
    bundles; all its keys are different, so no component overwrites another
    one or the iteration. *)
Theorem saved_record_keys_distinct
    (mods : dict Mod) (optims : dict Opt) (scheds : dict Sch) iter :
  NoDup (keys mods) -> NoDup (keys optims) -> NoDup (keys scheds) ->
  exists states,
    save_record {| module_lst := Some mods; optim_lst := Some optims;
                   sched_lst := Some scheds |} iter true = Ok states
    /\ keys states
       = "iter" :: map (fun n => ("module_" ++ n)%string) (keys mods)
                ++ map (fun n => ("optim_" ++ n)%string) (keys optims)
                ++ map (fun n => ("sched_" ++ n)%string) (keys scheds)
    /\ NoDup (keys states)
    /\ get states "iter" = Some (OInt iter).
Proof.
  intros Hm Ho Hs. eexists. split; [now apply save_record_all|].
  assert (Hkeys : keys ([("iter", @OInt T iter)] ++ saved_entries "module_" mods
                        ++ saved_entries "optim_" optims
                        ++ saved_entries "sched_" scheds)
                  = "iter" :: map (fun n => ("module_" ++ n)%string) (keys mods)
                      ++ map (fun n => ("optim_" ++ n)%string) (keys optims)
                      ++ map (fun n => ("sched_" ++ n)%string) (keys scheds)).
  { rewrite !keys_app, !keys_saved_entries. reflexivity. }
  split; [exact Hkeys|]. split; [|reflexivity].
  rewrite Hkeys.
  assert (Hinj : forall tag l, NoDup l ->
                   NoDup (map (fun n : string => (tag ++ n)%string) l)).
  { intros tag l Hl. apply Injective_map_NoDup; auto.
    intros a b. apply append_string_inj. }
  constructor.
  - intros Hin. repeat (apply in_app_or in Hin; destruct Hin as [Hin|Hin]);
      apply in_map_iff in Hin; destruct Hin as (x & E & _); discriminate E.
  - apply NoDup_app; [now apply Hinj| |].
    + apply NoDup_app; [now apply Hinj | now apply Hinj |].
      intros a Ha Hb. apply in_map_iff in Ha. destruct Ha as (x & <- & _).
      apply in_map_iff in Hb. destruct Hb as (y & E & _). discriminate E.
    + intros a Ha Hb. apply in_map_iff in Ha. destruct Ha as (x & <- & _).
      apply in_app_or in Hb. destruct Hb as [Hb|Hb];
        apply in_map_iff in Hb; destruct Hb as (y & E & _); discriminate E.
Qed.
End LoadMore.

(** X4 at a record with a parameterless module. *)
Lemma load_state_empty_module_state_raises_witness :
  load_state [("ckp.pt", Saved [("iter", OInt 0); ("module_gen", @OState Z [])])]
    "ckp.pt" ([] ++ "module_gen" :: ["optim_gen"]) false (example_alg plain_gen)
  = (Raise IndexError, example_alg plain_gen).
Proof.
  apply (load_state_empty_module_state_raises
           [("ckp.pt", Saved [("iter", OInt 0); ("module_gen", @OState Z [])])]
           "ckp.pt" [("iter", OInt 0); ("module_gen", OState [])]
           [] "module_gen" ["optim_gen"] false
           (example_alg plain_gen) (example_alg plain_gen));
    reflexivity.
Defined.

(** X5 at a load of the optimizer alone. *)
Lemma load_state_if_dist_only_for_modules_witness :
  load_state partial_checkpoint "ckp.pt" ["optim_gen"] true (example_alg plain_gen)
  = load_state partial_checkpoint "ckp.pt" ["optim_gen"] false
      (example_alg plain_gen).
Proof.
  apply (load_state_if_dist_only_for_modules partial_checkpoint "ckp.pt"
           ["optim_gen"] (example_alg plain_gen)).
  intros item [<-|[]]. reflexivity.
Defined.

(** X6 at a load that raises after two items. *)
Lemma load_state_keeps_component_names_witness :
  option_map keys
    (module_lst (snd (load_state partial_checkpoint "ckp.pt" all_items false
                        (example_alg plain_gen))))
  = Some ["gen"]
  /\ option_map keys
       (optim_lst (snd (load_state partial_checkpoint "ckp.pt" all_items false
                          (example_alg plain_gen))))
     = Some ["gen"]
  /\ option_map keys
       (sched_lst (snd (load_state partial_checkpoint "ckp.pt" all_items false
                          (example_alg plain_gen))))
     = Some ["gen"].
Proof.
  apply (load_state_keeps_component_names partial_checkpoint "ckp.pt" all_items
           false (example_alg plain_gen)
           (fst (load_state partial_checkpoint "ckp.pt" all_items false
                   (example_alg plain_gen)))).
  apply surjective_pairing.
Defined.

(** X7 at a load that asks for [iter] itself. *)
Lemma load_state_skips_items_without_token_witness :
  load_state partial_checkpoint "ckp.pt" ["iter"] true (example_alg plain_gen)
  = (Ok (OInt 5), example_alg plain_gen).
Proof.
  apply (load_state_skips_items_without_token partial_checkpoint "ckp.pt"
           [("iter", OInt 5);
            ("module_gen", OState [("weight", 7%Z); ("bias", 8%Z)]);
            ("optim_gen", OState [("momentum", 9%Z)])]
           ["iter"] true (example_alg plain_gen)); [reflexivity|].
  intros item [<-|[]]. repeat split.
Defined.

(** X9 at the example orchestrator. *)
Lemma save_without_schedulers_cannot_restore_them_witness :
  exists fs',
    save_state (example_alg plain_gen) "ckp.pt" 5 false old_checkpoint
    = (Ok tt, fs')
    /\ load_state fs' "ckp.pt" ["sched_gen"; "module_gen"] false
         (example_alg plain_gen)
       = (Raise (KeyError "sched_gen"), example_alg plain_gen).
Proof.
  apply (save_without_schedulers_cannot_restore_them
           [("gen", plain_gen)]
           [("gen", {| optim_state := [("momentum", 3%Z)] |})]
           (Some [("gen", {| last_epoch := 4%Z |})])
           "ckp.pt" 5 old_checkpoint "gen" ["module_gen"] false
           (example_alg plain_gen)); nodup_strings.
Defined.

(** X11 at the example orchestrator. *)
Lemma saved_record_keys_distinct_witness :
  exists states,
    save_record (example_alg plain_gen) 5 true = Ok states
    /\ keys states = ["iter"; "module_gen"; "optim_gen"; "sched_gen"]
    /\ NoDup (keys states)
    /\ get states "iter" = Some (OInt 5).
Proof.
  apply (saved_record_keys_distinct
           [("gen", plain_gen)]
           [("gen", {| optim_state := [("momentum", 3%Z)] |})]
           [("gen", {| last_epoch := 4%Z |})] 5); nodup_strings.
Defined.

(* ================================================================== *)
(** * Further properties of [create_optimizer]                          *)
(* ================================================================== *)

(** Split the innermost case distinction of a run. *)
Ltac split_innermost H :=
  match type of H with
  | context [match ?x with _ => _ end] =>
      lazymatch x with
      | context [match _ with _ => _ end] => fail
      | _ => let E := fresh "E" in destruct x eqn:E
      end
  end.

Section OptimizerNames.
Context {Params Mod Opt Sch : Type}.
Variable return_optimizer : value -> Params -> value -> result Opt.
Variable params_lst : dict Params.

Local Abbreviation frame := (@frame Mod Opt Sch).

(** One round of the loop, for any base rate: it keeps the keys of the
    options, the modules and the schedulers, and it adds the optimizer of
    its item or raises without touching the optimizers. *)
Lemma build_optimizer_frame ttur k (fr fr' : frame) r os :
  optim_lst (self fr) = Some os ->
  build_optimizer return_optimizer ttur params_lst k fr = (r, fr') ->
  keys (opts_dict fr') = keys (opts_dict fr)
  /\ (module_lst (self fr') = module_lst (self fr)
      /\ sched_lst (self fr') = sched_lst (self fr))
  /\ ((r = Ok tt /\ exists o, optim_lst (self fr') = Some (setitem os k o))
      \/ (exists e, r = Raise e /\ optim_lst (self fr') = Some os)).
Proof.
  intros Hos H. unfold build_optimizer in H.
  destruct ttur as [lr|];
    unfold adjust_lr, abind, read_new_lr, entry_field, lift, modify, ret,
      getitem, truediv, mul, assign, subscript in H;
    repeat (split_innermost H; run_in H);
    inversion H; subst;
    cbn [opts_dict self set_self set_opts_dict set_new_lr set_optim_lst
         optim_lst];
    try match goal with
        | E : attr (optim_lst (self fr)) = _ |- _ =>
            rewrite Hos in E; cbn [attr] in E; inversion E; subst
        end;
    (split;
     [ first [ reflexivity
             | apply keys_setitem_present; eapply get_in_keys; eassumption ]
     | split;
       [ split; reflexivity
       | first [ right; eexists; split; [reflexivity | assumption]
               | left; split; [reflexivity|]; eexists; reflexivity ] ] ]).
Qed.

(** The loop of lines 91-105 from any frame: the options keep their keys,
    and the optimizers gain the names of the items in order, all of them
    when the loop ends normally and those before the failing item
    otherwise. *)
Lemma optimizer_loop_names ttur : forall ks (fr fr' : frame) r os,
  for_each ks (build_optimizer return_optimizer ttur params_lst) fr = (r, fr') ->
  NoDup ks ->
  optim_lst (self fr) = Some os ->
  (forall k, In k ks -> ~ In k (keys os)) ->
  keys (opts_dict fr') = keys (opts_dict fr)
  /\ (module_lst (self fr') = module_lst (self fr)
      /\ sched_lst (self fr') = sched_lst (self fr))
  /\ exists os',
       optim_lst (self fr') = Some os'
       /\ ((r = Ok tt /\ keys os' = keys os ++ ks)
           \/ (exists e pre k post,
                 r = Raise e /\ ks = pre ++ k :: post
                 /\ keys os' = keys os ++ pre)).
Proof.
  induction ks as [|k0 ks IH]; intros fr fr' r os Hrun Hnd Hos Hfresh.
  - cbn in Hrun. inversion Hrun; subst. split; [reflexivity|].
    split; [split; reflexivity|]. exists os. split; [assumption|].
    left. split; [reflexivity|]. now rewrite app_nil_r.
  - cbn [for_each] in Hrun. apply abind_inv in Hrun.
    inversion Hnd as [|? ? Hk0 Hnd']; subst.
    destruct Hrun as [([] & fr1 & Hbody & Hrest) | (e & Hbody & ->)].
    + destruct (build_optimizer_frame ttur k0 fr fr1 (Ok tt) os Hos Hbody)
        as (Hkeys & (Hm & Hs) & [(_ & o & Hos1) | (e & He & _)]);
        [|discriminate].
      assert (Hset : setitem os k0 o = os ++ [(k0, o)]).
      { apply setitem_fresh. apply Hfresh. now left. }
      destruct (IH fr1 fr' r (setitem os k0 o) Hrest Hnd' Hos1)
        as (Hkeys' & (Hm' & Hs') & os' & Hos' & Hnames).
      { intros k Hin. rewrite Hset, keys_app. intros Hin'.
        apply in_app_or in Hin'. destruct Hin' as [Hin'|[<-|[]]].
        - apply (Hfresh k); [now right | assumption].
        - contradiction. }
      split; [congruence|]. split; [split; congruence|].
      exists os'. split; [assumption|].
      assert (Hk : forall l, keys (setitem os k0 o) ++ l = keys os ++ k0 :: l).
      { intros l. rewrite Hset, keys_app, <- app_assoc. reflexivity. }
      destruct Hnames as [(-> & Hn) | (e & pre & k & post & -> & -> & Hn)];
        rewrite Hk in Hn.
      * left. split; [reflexivity | assumption].
      * right. exists e, (k0 :: pre), k, post.
        split; [reflexivity|]. split; [reflexivity | assumption].
    + destruct (build_optimizer_frame ttur k0 fr fr' (Raise e) os Hos Hbody)
        as (Hkeys & HmS & [(Habs & _) | (e' & _ & Hos')]); [discriminate|].
      split; [assumption|]. split; [assumption|].
      exists os. split; [assumption|]. right. exists e, [], k0, ks.
      split; [reflexivity|]. split; [reflexivity|]. now rewrite app_nil_r.
Qed.

(** The three ways a call of [create_optimizer] can go: there is no
    [TTUR] entry and nothing changes; the entry is taken out and cannot be
    read, and only the options change; the entry is taken out and read,
    and the loop runs on the remaining options from no optimizers. *)
Lemma create_optimizer_cases (slf : alg Mod Opt Sch) opts :
  (get opts "TTUR" = None
   /\ create_optimizer return_optimizer slf params_lst opts
      = (Raise (KeyError "TTUR"), slf, opts))
  \/ (exists e,
        create_optimizer return_optimizer slf params_lst opts
        = (Raise e, slf, remove opts "TTUR"))
  \/ (exists ttur,
        create_optimizer return_optimizer slf params_lst opts
        = let '(r, fr) :=
            for_each (keys (remove opts "TTUR"))
              (build_optimizer return_optimizer ttur params_lst)
              {| self := set_optim_lst [] slf; opts_dict := remove opts "TTUR";
                 new_lr := None |} in
          (r, self fr, opts_dict fr)).
Proof.
  unfold create_optimizer, create_optimizer_body, read_ttur.
  unfold abind, pop, lift, ret, gets, modify. cbn [opts_dict].
  destruct (get opts "TTUR") as [opts_ttur|] eqn:Hget.
  - right. destruct (subscript opts_ttur "if_ttur") as [flag|e] eqn:Hflag.
    + destruct (truthy flag).
      * destruct (subscript opts_ttur "lr") as [lr|e] eqn:Hlr.
        -- right. exists (Some lr). reflexivity.
        -- left. exists e. reflexivity.
      * right. exists None. reflexivity.
    + left. exists e. reflexivity.
  - left. split; reflexivity.
Qed.

(** Without the key nothing is removed. *)
Lemma remove_absent {V} (d : dict V) k : get d k = None -> remove d k = d.
Proof.
  induction d as [|[k0 v0] d IH]; simpl; auto.
  destruct (String.eqb k0 k); [discriminate|]. intros H. f_equal. auto.
Qed.

(** The loop of a call, started as [create_optimizer] starts it. *)
Lemma create_optimizer_loop ttur (slf : alg Mod Opt Sch) opts r fr' :
  NoDup (keys opts) ->
  for_each (keys (remove opts "TTUR"))
    (build_optimizer return_optimizer ttur params_lst)
    {| self := set_optim_lst [] slf; opts_dict := remove opts "TTUR";
       new_lr := None |} = (r, fr') ->
  keys (opts_dict fr') = keys (remove opts "TTUR")
  /\ (module_lst (self fr') = module_lst slf
      /\ sched_lst (self fr') = sched_lst slf)
  /\ exists os',
       optim_lst (self fr') = Some os'
       /\ ((r = Ok tt /\ keys os' = keys (remove opts "TTUR"))
           \/ (exists e pre k post,
                 r = Raise e /\ keys (remove opts "TTUR") = pre ++ k :: post
                 /\ keys os' = pre)).
Proof.
  intros Hnd Hloop.
  apply (optimizer_loop_names ttur _ _ _ _ [] Hloop).
  - now apply nodup_keys_remove.
  - reflexivity.
  - intros k _ [].
Qed.

(** X12: [create_optimizer] uses up the [TTUR] entry of the options it
    is given.  Whatever the outcome of a call, the caller's options are
    left with the keys they had apart from [TTUR], in the same order, and a
    second call on the options as they were left raises [KeyError] for
    [TTUR] and changes neither the orchestrator nor the options. *)
Theorem create_optimizer_consumes_ttur
    (slf slf' : alg Mod Opt Sch) opts opts' r :
  NoDup (keys opts) ->
  create_optimizer return_optimizer slf params_lst opts = (r, slf', opts') ->
  keys opts' = keys (remove opts "TTUR")
  /\ create_optimizer return_optimizer slf' params_lst opts'
     = (Raise (KeyError "TTUR"), slf', opts').
Proof.
  intros Hnd Hrun.
  assert (Hkeys : keys opts' = keys (remove opts "TTUR")).
  { destruct (create_optimizer_cases slf opts)
      as [(Hnone & H) | [(e & H) | (ttur & H)]]; rewrite H in Hrun.
    - inversion Hrun; subst. now rewrite remove_absent.
    - now inversion Hrun; subst.
    - destruct (for_each _ _ _) as [r1 fr1] eqn:Hloop in Hrun.
      inversion Hrun; subst.
      now destruct (create_optimizer_loop ttur slf opts r fr1 Hnd Hloop). }
  split; [assumption|].
  assert (Hnone : get opts' "TTUR" = None).
  { apply get_None_not_in. rewrite Hkeys. now apply not_in_keys_remove. }
  unfold create_optimizer, create_optimizer_body, read_ttur.
  unfold abind, pop. cbn [opts_dict]. now rewrite Hnone.
Qed.

(** X13: the optimizers after [create_optimizer].  The modules and the
    schedulers of the orchestrator are never touched.  When the call
    returns, the optimizers are named exactly as the options apart from
    [TTUR], in the order of the options, whatever optimizers were there
    before.  When it raises, either the optimizers are as before the call
    (the [TTUR] entry was missing or unusable), or they are named as a
    proper leading part of those options: the ones built before the item
    that failed. *)
Theorem create_optimizer_names_follow_options
    (slf slf' : alg Mod Opt Sch) opts opts' r :
  NoDup (keys opts) ->
  create_optimizer return_optimizer slf params_lst opts = (r, slf', opts') ->
  module_lst slf' = module_lst slf
  /\ sched_lst slf' = sched_lst slf
  /\ (r = Ok tt ->
      exists os', optim_lst slf' = Some os'
                  /\ keys os' = keys (remove opts "TTUR"))
  /\ (forall e, r = Raise e ->
      optim_lst slf' = optim_lst slf
      \/ exists os' k post,
           optim_lst slf' = Some os'
           /\ keys (remove opts "TTUR") = keys os' ++ k :: post).
Proof.
  intros Hnd Hrun.
  destruct (create_optimizer_cases slf opts)
    as [(Hnone & H) | [(e & H) | (ttur & H)]]; rewrite H in Hrun.
  - inversion Hrun; subst. repeat split; try discriminate. now left.
  - inversion Hrun; subst. repeat split; try discriminate. now left.
  - destruct (for_each _ _ _) as [r1 fr1] eqn:Hloop in Hrun.
    inversion Hrun; subst.
    destruct (create_optimizer_loop ttur slf opts r fr1 Hnd Hloop)
      as (_ & (Hm & Hs) & os' & Hos' & Hnames).
    split; [assumption|]. split; [assumption|]. split.
    + intros ->. exists os'. split; [assumption|].
      destruct Hnames as [(_ & Hn) | (e & pre & k & post & He & _)];
        [assumption | discriminate].
    + intros e ->. right.
      destruct Hnames as [(He & _) | (e' & pre & k & post & _ & Hks & Hn)];
        [discriminate|].
      exists os', k, post. split; [assumption|]. now rewrite Hn.
Qed.
End OptimizerNames.

(** X12 on an example: after a first call with the rule on, the options
    hold the two components and no [TTUR], and a second call raises. *)
Lemma create_optimizer_consumes_ttur_witness :
  let out := create_optimizer record_optimizer no_alg optimizer_params
               (optimizer_opts true ["gen"; "dis"]) in
  keys (snd out) = keys (remove (optimizer_opts true ["gen"; "dis"]) "TTUR")
  /\ create_optimizer record_optimizer (snd (fst out)) optimizer_params (snd out)
     = (Raise (KeyError "TTUR"), snd (fst out), snd out).
Proof.
  intros out.
  apply (create_optimizer_consumes_ttur record_optimizer optimizer_params
           no_alg (snd (fst out)) (optimizer_opts true ["gen"; "dis"])
           (snd out) (fst (fst out))).
  - nodup_strings.
  - reflexivity.
Defined.

(** X13 on an example: with the rule on, a component that is neither
    [gen] nor [dis] and comes after [gen] is built; one that comes first
    stops the call with no optimizer built. *)
Lemma create_optimizer_names_follow_options_witness :
  let out := create_optimizer record_optimizer no_alg optimizer_params
               (optimizer_opts true ["gen"; "aux"]) in
  module_lst (snd (fst out)) = None
  /\ sched_lst (snd (fst out)) = None
  /\ (fst (fst out) = Ok tt ->
      exists os', optim_lst (snd (fst out)) = Some os'
                  /\ keys os'
                     = keys (remove (optimizer_opts true ["gen"; "aux"]) "TTUR"))
  /\ (forall e, fst (fst out) = Raise e ->
      optim_lst (snd (fst out)) = None
      \/ exists os' k post,
           optim_lst (snd (fst out)) = Some os'
           /\ keys (remove (optimizer_opts true ["gen"; "aux"]) "TTUR")
              = keys os' ++ k :: post).
Proof.
  intros out.
  apply (create_optimizer_names_follow_options record_optimizer
           optimizer_params no_alg (snd (fst out))
           (optimizer_opts true ["gen"; "aux"]) (snd out) (fst (fst out))).
  - nodup_strings.
  - reflexivity.
Defined.

(* ================================================================== *)
(** * Dictionaries built in a loop                                      *)
(* ================================================================== *)

Section BuildDict.
Context {V : Type}.
Variable make : string -> result V.

(** One round of the loop. *)
Lemma build_dict_cons k ks (d : dict V) :
  build_dict make (k :: ks) d
  = match make k with
    | Ok v => build_dict make ks (setitem d k v)
    | Raise e => (Raise e, d)
    end.
Proof.
  unfold build_dict. cbn [for_each]. unfold abind at 1 2, lift, modify.
  destruct (make k); reflexivity.
Qed.

(** The loop adds one entry per key, in order, each holding what [make]
    returned for its key, and it stops at the first key [make] fails on. *)
Lemma build_dict_spec : forall ks (d d' : dict V) r,
  build_dict make ks d = (r, d') ->
  NoDup ks ->
  (forall k, In k ks -> ~ In k (keys d)) ->
  exists vs,
    d' = d ++ vs
    /\ Forall (fun kv => make (fst kv) = Ok (snd kv)) vs
    /\ ((r = Ok tt /\ keys vs = ks)
        \/ (exists e k post,
              r = Raise e /\ ks = keys vs ++ k :: post /\ make k = Raise e)).
Proof.
  induction ks as [|k ks IH]; intros d d' r Hrun Hnd Hfresh.
  - cbn in Hrun. inversion Hrun; subst. exists [].
    split; [now rewrite app_nil_r|]. split; [constructor|]. now left.
  - rewrite build_dict_cons in Hrun.
    inversion Hnd as [|? ? Hk Hnd']; subst.
    destruct (make k) as [v|e] eqn:Hmake.
    + assert (Hset : setitem d k v = d ++ [(k, v)]).
      { apply setitem_fresh. apply Hfresh. now left. }
      destruct (IH (setitem d k v) d' r Hrun Hnd')
        as (vs & -> & Hall & Hout).
      { intros k' Hin. rewrite Hset, keys_app. intros Hin'.
        apply in_app_or in Hin'. destruct Hin' as [Hin'|[<-|[]]].
        - apply (Hfresh k'); [now right | assumption].
        - contradiction. }
      exists ((k, v) :: vs). split; [now rewrite Hset, <- app_assoc|].
      split; [constructor; assumption|].
      destruct Hout as [(-> & Hkeys) | (e & k' & post & -> & Hks & Hfail)].
      * left. split; [reflexivity|]. unfold keys in *. cbn [map fst].
        now rewrite Hkeys.
      * right. exists e, k', post. split; [reflexivity|].
        split; [unfold keys in *; cbn [map fst app]; now rewrite Hks
               | assumption].
    + inversion Hrun; subst. exists [].
      split; [now rewrite app_nil_r|]. split; [constructor|].
      right. exists e, k, ks. repeat split; assumption.
Qed.

(** The loop from the empty dictionary. *)
Lemma build_dict_from_empty ks (d' : dict V) r :
  build_dict make ks [] = (r, d') ->
  NoDup ks ->
  (forall k v, get d' k = Some v -> make k = Ok v)
  /\ (r = Ok tt -> keys d' = ks)
  /\ (forall e, r = Raise e ->
      exists k post, ks = keys d' ++ k :: post /\ make k = Raise e).
Proof.
  intros Hrun Hnd.
  destruct (build_dict_spec ks [] d' r Hrun Hnd) as (vs & -> & Hall & Hout).
  { intros k _ []. }
  cbn [app]. split; [|split].
  - intros k v Hget. apply get_Some_in in Hget.
    rewrite Forall_forall in Hall. apply (Hall (k, v) Hget).
  - intros ->. destruct Hout as [(_ & H) | (e & k & post & He & _)];
      [assumption | discriminate].
  - intros e ->. destruct Hout as [(He & _) | (e' & k & post & He & Hks & Hf)];
      [discriminate|].
    injection He as <-. exists k, post. split; assumption.
Qed.
End BuildDict.

Lemma bind_ok {A B} (r : result A) (k : A -> result B) b :
  (x <- r ;; k x) = Ok b -> exists a, r = Ok a /\ k a = Ok b.
Proof. destruct r as [a|e]; cbn; intros H; [eauto | discriminate]. Qed.

(* ================================================================== *)
(** * [create_scheduler]                                                *)
(* ================================================================== *)

Section SchedulerFacts.
Context {Mod Opt Sch : Type}.
Variable return_scheduler : value -> Opt -> value -> result Sch.
Variable optims : dict Opt.
Variable opts : dict value.

(** The loop of [create_scheduler] is the loop of [build_dict] on the
    schedulers of [self]. *)
Lemma create_scheduler_loop : forall ks (d : dict Sch) (slf : alg Mod Opt Sch),
  for_each ks
    (fun sched_item =>
       sched <~ lift (scheduler_for return_scheduler optims opts sched_item) ;;
       scheds <~ (fun slf => (attr (sched_lst slf), slf)) ;;
       modify (set_sched_lst (setitem scheds sched_item sched)))
    (set_sched_lst d slf)
  = let '(r, d') := build_dict (scheduler_for return_scheduler optims opts) ks d in
    (r, set_sched_lst d' slf).
Proof.
  induction ks as [|k ks IH]; intros d slf; [reflexivity|].
  rewrite build_dict_cons. cbn [for_each]. unfold abind at 1 2, lift.
  destruct (scheduler_for return_scheduler optims opts k) as [s|e];
    [|reflexivity].
  unfold abind at 1. cbn [sched_lst set_sched_lst attr]. unfold modify at 1.
  apply (IH (setitem d k s) slf).
Qed.

Lemma create_scheduler_run (slf : alg Mod Opt Sch) :
  create_scheduler return_scheduler optims opts slf
  = let '(r, d') :=
      build_dict (scheduler_for return_scheduler optims opts) (keys opts) [] in
    (r, set_sched_lst d' slf).
Proof.
  unfold create_scheduler. unfold abind at 1, modify at 1.
  apply create_scheduler_loop.
Qed.

(** X14: the schedulers after [create_scheduler].  The modules and the
    optimizers of the orchestrator are not touched, and the schedulers it
    had are replaced.  Every scheduler held afterwards was built by
    [return_scheduler] from the type and the options of its own entry and
    from the optimizer of the same name in the dictionary passed as
    argument, whatever [self.optim_lst] holds.  When the call returns, the
    schedulers are named as the options, in their order, so every name of
    the options names an optimizer of the argument.  When it raises, the
    schedulers are those of the options before the entry that failed. *)
Theorem create_scheduler_pairs_with_argument_optimizers
    (slf slf' : alg Mod Opt Sch) r :
  NoDup (keys opts) ->
  create_scheduler return_scheduler optims opts slf = (r, slf') ->
  module_lst slf' = module_lst slf
  /\ optim_lst slf' = optim_lst slf
  /\ exists scheds,
       sched_lst slf' = Some scheds
       /\ (forall k s, get scheds k = Some s ->
             exists ty o op,
               option_field opts k "type" = Ok ty
               /\ get optims k = Some o
               /\ option_field opts k "opts" = Ok op
               /\ return_scheduler ty o op = Ok s)
       /\ (r = Ok tt ->
             keys scheds = keys opts
             /\ forall k, In k (keys opts) -> mem optims k = true)
       /\ (forall e, r = Raise e ->
             exists k post,
               keys opts = keys scheds ++ k :: post
               /\ scheduler_for return_scheduler optims opts k = Raise e).
Proof.
  intros Hnd Hrun. rewrite create_scheduler_run in Hrun.
  destruct (build_dict _ _ _) as [r1 d'] eqn:Hloop in Hrun.
  inversion Hrun; subst. cbn [module_lst optim_lst sched_lst set_sched_lst].
  destruct (build_dict_from_empty _ _ _ _ Hloop Hnd) as (Hbuilt & Hok & Hfail).
  split; [reflexivity|]. split; [reflexivity|].
  exists d'. split; [reflexivity|].
  assert (Hfrom : forall k s, get d' k = Some s ->
             exists ty o op,
               option_field opts k "type" = Ok ty
               /\ get optims k = Some o
               /\ option_field opts k "opts" = Ok op
               /\ return_scheduler ty o op = Ok s).
  { intros k s Hget. apply Hbuilt in Hget. unfold scheduler_for in Hget.
    apply bind_ok in Hget. destruct Hget as (ty & Hty & Hget).
    apply bind_ok in Hget. destruct Hget as (o & Ho & Hget).
    apply bind_ok in Hget. destruct Hget as (op & Hop & Hget).
    exists ty, o, op. repeat split; try assumption.
    unfold getitem in Ho. destruct (get optims k); [|discriminate].
    now injection Ho as ->. }
  split; [exact Hfrom|]. split; [|exact Hfail].
  intros Hr. split; [now apply Hok|].
  intros k Hin. rewrite <- (Hok Hr) in Hin.
  apply in_keys_get in Hin. destruct Hin as (s & Hs).
  destruct (Hfrom k s Hs) as (ty & o & op & _ & Ho & _).
  unfold mem. now rewrite Ho.
Qed.
End SchedulerFacts.

(* ================================================================== *)
(** * [create_loss_func]                                                *)
(* ================================================================== *)

Section LossFacts.
Variable LossFn : Type.
Variable return_loss_func : string -> value -> result LossFn.
Variable loss_cuda : LossFn -> result LossFn.

(** X15: the loss functions after [create_loss_func].  Every entry held
    afterwards has the weight of its own options and the function
    [return_loss_func] built from its name and options, moved to the GPU
    exactly when [if_use_cuda] holds.  When the call returns, the entries
    are named as the options, in their order; when it raises, they are
    those of the options before the entry that failed. *)
Theorem create_loss_func_entries opts if_use_cuda r losses :
  NoDup (keys opts) ->
  create_loss_func return_loss_func loss_cuda opts if_use_cuda
  = (r, losses) ->
  (forall k entry, get losses k = Some entry ->
     exists op fn,
       option_field opts k "opts" = Ok op
       /\ return_loss_func k op = Ok fn
       /\ (if if_use_cuda then loss_cuda fn = Ok (loss_fn entry)
           else loss_fn entry = fn)
       /\ option_field opts k "weight" = Ok (loss_weight entry))
  /\ (r = Ok tt -> keys losses = keys opts)
  /\ (forall e, r = Raise e ->
        exists k post,
          keys opts = keys losses ++ k :: post
          /\ loss_entry_for return_loss_func loss_cuda opts
               if_use_cuda k = Raise e).
Proof.
  intros Hnd Hrun. unfold create_loss_func in Hrun.
  destruct (build_dict_from_empty _ _ _ _ Hrun Hnd) as (Hbuilt & Hok & Hfail).
  split; [|split; assumption].
  intros k entry Hget. apply Hbuilt in Hget. unfold loss_entry_for in Hget.
  apply bind_ok in Hget. destruct Hget as (op & Hop & Hget).
  apply bind_ok in Hget. destruct Hget as (fn & Hfn & Hget).
  apply bind_ok in Hget. destruct Hget as (fn' & Hfn' & Hget).
  apply bind_ok in Hget. destruct Hget as (w & Hw & Hget).
  injection Hget as <-. cbn [loss_fn loss_weight].
  exists op, fn. repeat split; try assumption.
  destruct if_use_cuda; [assumption | now injection Hfn' as ->].
Qed.
End LossFacts.

(* ================================================================== *)
(** * [return_crit_func] and [create_criterion]                         *)
(* ================================================================== *)

Section CriterionFacts.
Variable Net : Type.
Variable lpips_LPIPS : value -> value -> result Net.
Variable cuda : Net -> result Net.

(** What [return_crit_func] returns is a [PSNR] for the name [PSNR] and an
    [LPIPS] for the name [LPIPS], with the direction of its class. *)
Lemma return_crit_func_ok name opts c :
  return_crit_func lpips_LPIPS cuda name opts = Ok c ->
  (name = "PSNR" /\ c = IsPSNR Net {| psnr_lsb := false |})
  \/ (name = "LPIPS" /\ exists fn, c = IsLPIPS {| lpips_fn := fn; lpips_lsb := true |}).
Proof.
  unfold return_crit_func.
  destruct (existsb (String.eqb name) crit_lst) eqn:Hin; [|discriminate].
  assert (Hcls : forall kwargs,
            crit_func_cls lpips_LPIPS cuda name kwargs = Ok c ->
            (name = "PSNR" /\ c = IsPSNR Net {| psnr_lsb := false |})
            \/ (name = "LPIPS"
                /\ exists fn, c = IsLPIPS {| lpips_fn := fn; lpips_lsb := true |})).
  { intros kwargs. unfold crit_func_cls.
    destruct (String.eqb_spec name "PSNR") as [->|_].
    - intros H. apply bind_ok in H. destruct H as (p & Hp & H).
      injection H as <-. left. split; [reflexivity|].
      unfold PSNR_init in Hp. destruct kwargs; [|discriminate].
      now injection Hp as <-.
    - destruct (String.eqb_spec name "LPIPS") as [->|_]; [|discriminate].
      intros H. apply bind_ok in H. destruct H as (l & Hl & H).
      injection H as <-. right. split; [reflexivity|].
      unfold LPIPS_init in Hl.
      destruct (forallb _ _); [|discriminate].
      apply bind_ok in Hl. destruct Hl as (fn & _ & Hl).
      apply bind_ok in Hl. destruct Hl as (fn' & _ & Hl).
      injection Hl as <-. now exists fn'. }
  destruct opts; try discriminate; apply Hcls.
Qed.

(** X16: the criteria after [create_criterion].  Every entry held
    afterwards is named [PSNR] or [LPIPS], is an instance of the class of
    its name with that class's direction ([lsb] false for [PSNR], true for
    [LPIPS]) and carries the unit of its own options.  When the call
    returns, the entries are named as the options, in their order, so the
    options name nothing outside [crit_lst] and hold at most two entries;
    when it raises, the entries are those of the options before the entry
    that failed. *)
Theorem create_criterion_entries opts r crits :
  NoDup (keys opts) ->
  create_criterion lpips_LPIPS cuda opts = (r, crits) ->
  (forall k entry, get crits k = Some entry ->
     ((k = "PSNR" /\ crit_fn entry = IsPSNR Net {| psnr_lsb := false |})
      \/ (k = "LPIPS"
          /\ exists fn,
               crit_fn entry = IsLPIPS {| lpips_fn := fn; lpips_lsb := true |}))
     /\ lsb (crit_fn entry) = String.eqb k "LPIPS"
     /\ option_field opts k "unit" = Ok (crit_unit entry))
  /\ (r = Ok tt ->
        keys crits = keys opts
        /\ incl (keys opts) crit_lst
        /\ List.length opts <= 2)
  /\ (forall e, r = Raise e ->
        exists k post,
          keys opts = keys crits ++ k :: post
          /\ crit_entry_for lpips_LPIPS cuda opts k = Raise e).
Proof.
  intros Hnd Hrun. unfold create_criterion in Hrun.
  destruct (build_dict_from_empty _ _ _ _ Hrun Hnd) as (Hbuilt & Hok & Hfail).
  assert (Hentry : forall k entry, get crits k = Some entry ->
            ((k = "PSNR" /\ crit_fn entry = IsPSNR Net {| psnr_lsb := false |})
             \/ (k = "LPIPS"
                 /\ exists fn,
                      crit_fn entry
                      = IsLPIPS {| lpips_fn := fn; lpips_lsb := true |}))
            /\ lsb (crit_fn entry) = String.eqb k "LPIPS"
            /\ option_field opts k "unit" = Ok (crit_unit entry)).
  { intros k entry Hget. apply Hbuilt in Hget. unfold crit_entry_for in Hget.
    apply bind_ok in Hget. destruct Hget as (op & Hop & Hget).
    apply bind_ok in Hget. destruct Hget as (fn & Hfn & Hget).
    apply bind_ok in Hget. destruct Hget as (u & Hu & Hget).
    injection Hget as <-. cbn [crit_fn crit_unit].
    apply return_crit_func_ok in Hfn.
    split; [exact Hfn|]. split; [|assumption].
    destruct Hfn as [(-> & ->) | (-> & fn' & ->)]; reflexivity. }
  split; [exact Hentry|]. split; [|exact Hfail].
  intros Hr. specialize (Hok Hr).
  assert (Hincl : incl (keys opts) crit_lst).
  { intros k Hin. rewrite <- Hok in Hin. apply in_keys_get in Hin.
    destruct Hin as (entry & Hget).
    destruct (Hentry k entry Hget) as ([(-> & _) | (-> & _)] & _); cbn; auto. }
  split; [assumption|]. split; [assumption|].
  replace (List.length opts) with (List.length (keys opts))
    by (unfold keys; apply length_map).
  apply (NoDup_incl_length Hnd Hincl).
Qed.

(** The registry on the name [LPIPS] with a dictionary of options. *)
Lemma return_crit_func_LPIPS kwargs :
  return_crit_func lpips_LPIPS cuda "LPIPS" (VDict kwargs)
  = (c <- LPIPS_init lpips_LPIPS cuda kwargs ;; Ok (IsLPIPS c)).
Proof. reflexivity. Qed.

(** X21: how [return_crit_func] hands options to the classes.  A
    dictionary of options is passed as keyword arguments: the empty one
    acts as [None]; [PSNR] accepts no keyword at all; [LPIPS] rejects any
    keyword other than [net], [if_spatial] and [if_cuda]; and with a false
    [if_cuda] the network is built from the given or default [net] and
    [if_spatial] and is not moved to the GPU.  Options that are neither
    [None] nor a dictionary raise for both names. *)
Theorem return_crit_func_keyword_options :
  (forall name,
      return_crit_func lpips_LPIPS cuda name (VDict [])
      = return_crit_func lpips_LPIPS cuda name VNone)
  /\ (forall kwargs,
        kwargs <> [] ->
        return_crit_func lpips_LPIPS cuda "PSNR" (VDict kwargs) = Raise TypeError)
  /\ (forall kwargs k,
        In k (keys kwargs) ->
        ~ In k ["net"; "if_spatial"; "if_cuda"] ->
        return_crit_func lpips_LPIPS cuda "LPIPS" (VDict kwargs) = Raise TypeError)
  /\ (forall kwargs flag fn,
        incl (keys kwargs) ["net"; "if_spatial"; "if_cuda"] ->
        get kwargs "if_cuda" = Some flag ->
        truthy flag = false ->
        lpips_LPIPS (kwarg kwargs "net" (VStr "alex"))
          (kwarg kwargs "if_spatial" (VBool false)) = Ok fn ->
        return_crit_func lpips_LPIPS cuda "LPIPS" (VDict kwargs)
        = Ok (IsLPIPS {| lpips_fn := fn; lpips_lsb := true |}))
  /\ (forall name opts,
        In name crit_lst ->
        opts <> VNone ->
        (forall kwargs, opts <> VDict kwargs) ->
        return_crit_func lpips_LPIPS cuda name opts = Raise TypeError).
Proof.
  split; [|split; [|split; [|split]]].
  - intros name. reflexivity.
  - intros [|kv kwargs] Hne; [congruence | reflexivity].
  - intros kwargs k Hin Hnot.
    rewrite return_crit_func_LPIPS. unfold LPIPS_init.
    destruct (forallb _ (keys kwargs)) eqn:Hall; [|reflexivity].
    exfalso. rewrite forallb_forall in Hall. apply Hall in Hin.
    apply existsb_exists in Hin. destruct Hin as (x & Hx & Heq).
    apply String.eqb_eq in Heq. subst x. contradiction.
  - intros kwargs flag fn Hincl Hflag Hfalse Hnet.
    rewrite return_crit_func_LPIPS. unfold LPIPS_init.
    assert (Hall : forallb
                     (fun k => existsb (String.eqb k) ["net"; "if_spatial"; "if_cuda"])
                     (keys kwargs) = true).
    { apply forallb_forall. intros k Hin. apply existsb_exists.
      exists k. split; [now apply Hincl | apply String.eqb_refl]. }
    rewrite Hall, Hnet. cbn [Py.bind].
    unfold kwarg at 1. rewrite Hflag, Hfalse. reflexivity.
  - intros name opts Hin Hnone Hdict. unfold return_crit_func.
    assert (Hex : existsb (String.eqb name) crit_lst = true).
    { apply existsb_exists. exists name. split; [assumption | apply String.eqb_refl]. }
    rewrite Hex. destruct opts; try reflexivity.
    + congruence.
    + exfalso. apply (Hdict d). reflexivity.
Qed.
End CriterionFacts.

(** X14 on an example: one scheduler, built from the optimizer [gen] of
    the dictionary passed as argument, on an orchestrator that holds no
    optimizers of its own. *)
Lemma create_scheduler_pairs_with_argument_optimizers_witness :
  let out := create_scheduler record_scheduler built_optims sched_opts bare_alg in
  out = (Ok tt,
         set_sched_lst
           [("gen", (VStr "Cosine", (VStr "Adam", 1, VNone),
                     VDict [("T_max", VInt 100)]))] bare_alg)
  /\ module_lst (snd out) = module_lst bare_alg
  /\ optim_lst (snd out) = optim_lst bare_alg
  /\ exists scheds,
       sched_lst (snd out) = Some scheds
       /\ (forall k s, get scheds k = Some s ->
             exists ty o op,
               option_field sched_opts k "type" = Ok ty
               /\ get built_optims k = Some o
               /\ option_field sched_opts k "opts" = Ok op
               /\ record_scheduler ty o op = Ok s)
       /\ (fst out = Ok tt ->
             keys scheds = keys sched_opts
             /\ forall k, In k (keys sched_opts) -> mem built_optims k = true)
       /\ (forall e, fst out = Raise e ->
             exists k post,
               keys sched_opts = keys scheds ++ k :: post
               /\ scheduler_for record_scheduler built_optims sched_opts k
                  = Raise e).
Proof.
  intros out. split; [reflexivity|].
  apply (create_scheduler_pairs_with_argument_optimizers record_scheduler
           built_optims sched_opts bare_alg (snd out) (fst out)).
  - nodup_strings.
  - reflexivity.
Defined.

(** X15 on an example: two losses, moved to the GPU. *)
Lemma create_loss_func_entries_witness :
  let out := create_loss_func record_loss record_loss_cuda loss_opts true in
  keys (snd out) = ["L1"; "GAN"]
  /\ (forall k entry, get (snd out) k = Some entry ->
        exists op fn,
          option_field loss_opts k "opts" = Ok op
          /\ record_loss k op = Ok fn
          /\ record_loss_cuda fn = Ok (loss_fn entry)
          /\ option_field loss_opts k "weight" = Ok (loss_weight entry))
  /\ (fst out = Ok tt -> keys (snd out) = keys loss_opts)
  /\ (forall e, fst out = Raise e ->
        exists k post,
          keys loss_opts = keys (snd out) ++ k :: post
          /\ loss_entry_for record_loss record_loss_cuda loss_opts true k
             = Raise e).
Proof.
  intros out. split; [reflexivity|].
  apply (create_loss_func_entries (string * value) record_loss record_loss_cuda
           loss_opts true (fst out) (snd out)).
  - nodup_strings.
  - reflexivity.
Defined.

(** X16 on an example: both criteria of the registry, each with its unit. *)
Lemma create_criterion_entries_witness :
  let out := create_criterion probe_LPIPS probe_cuda crit_opts in
  fst out = Ok tt
  /\ (forall k entry, get (snd out) k = Some entry ->
        ((k = "PSNR" /\ crit_fn entry = IsPSNR probe_net {| psnr_lsb := false |})
         \/ (k = "LPIPS"
             /\ exists fn,
                  crit_fn entry
                  = IsLPIPS {| lpips_fn := fn; lpips_lsb := true |}))
        /\ lsb (crit_fn entry) = String.eqb k "LPIPS"
        /\ option_field crit_opts k "unit" = Ok (crit_unit entry))
  /\ (fst out = Ok tt ->
        keys (snd out) = keys crit_opts
        /\ incl (keys crit_opts) crit_lst
        /\ List.length crit_opts <= 2)
  /\ (forall e, fst out = Raise e ->
        exists k post,
          keys crit_opts = keys (snd out) ++ k :: post
          /\ crit_entry_for probe_LPIPS probe_cuda crit_opts k = Raise e).
Proof.
  intros out. split; [reflexivity|].
  apply (create_criterion_entries probe_net probe_LPIPS probe_cuda crit_opts
           (fst out) (snd out)).
  - nodup_strings.
  - reflexivity.
Defined.

(** X21 on examples: [PSNR] with a keyword, [LPIPS] with a keyword it does
    not know, [LPIPS] kept off the GPU, and options that are a number. *)
Lemma return_crit_func_keyword_options_witness :
  return_crit_func probe_LPIPS probe_cuda "PSNR" (VDict [("net", VStr "vgg")])
  = Raise TypeError
  /\ return_crit_func probe_LPIPS probe_cuda "LPIPS"
       (VDict [("net", VStr "vgg"); ("spatial", VBool true)])
     = Raise TypeError
  /\ return_crit_func probe_LPIPS probe_cuda "LPIPS"
       (VDict [("net", VStr "vgg"); ("if_cuda", VBool false)])
     = Ok (IsLPIPS {| lpips_fn := {| probe_net_name := VStr "vgg";
                                     probe_spatial := VBool false;
                                     probe_on_cuda := false |};
                      lpips_lsb := true |})
  /\ return_crit_func probe_LPIPS probe_cuda "LPIPS" (VInt 3) = Raise TypeError.
Proof.
  destruct (return_crit_func_keyword_options probe_net probe_LPIPS probe_cuda)
    as (_ & Hpsnr & Hunknown & Hoff & Hscalar).
  split; [|split; [|split]].
  - apply Hpsnr. discriminate.
  - apply (Hunknown _ "spatial").
    + cbn. auto.
    + cbn. intuition discriminate.
  - apply (Hoff _ (VBool false)).
    + intros k Hin. cbn in Hin |- *. intuition.
    + reflexivity.
    + reflexivity.
    + reflexivity.
  - apply Hscalar.
    + cbn. auto.
    + discriminate.
    + discriminate.
Defined.

(* ================================================================== *)
(** * [set_train_mode] and [set_eval_mode]                              *)
(* ================================================================== *)

Lemma setitem_twice {V} (d : dict V) k a b :
  setitem (setitem d k a) k b = setitem d k b.
Proof.
  induction d as [|[k0 v0] d IH]; simpl.
  - now rewrite String.eqb_refl.
  - destruct (String.eqb k0 k) eqn:E; simpl; rewrite E; [reflexivity|].
    now rewrite IH.
Qed.

(** Calling a method on the modules named by [ks]: no module is added or
    dropped, each named module is replaced by what the method makes of it,
    and the others stay. *)
Lemma call_all_loop {M} (method : M -> M) : forall ks (mods : dict M),
  NoDup ks ->
  (forall k, In k ks -> In k (keys mods)) ->
  exists mods',
    fold_left
      (fun acc mod_key =>
         mods <- acc ;;
         m <- getitem mods mod_key ;;
         Ok (setitem mods mod_key (method m)))
      ks (Ok mods) = Ok mods'
    /\ keys mods' = keys mods
    /\ (forall k, In k ks -> get mods' k = option_map method (get mods k))
    /\ (forall k, ~ In k ks -> get mods' k = get mods k).
Proof.
  induction ks as [|k ks IH]; intros mods Hnd Hin.
  - exists mods. cbn. repeat split; auto. intros k [].
  - inversion Hnd as [|? ? Hk Hnd']; subst.
    destruct (in_keys_get mods k (Hin k (or_introl eq_refl))) as (m & Hm).
    assert (Hitem : getitem mods k = Ok m) by (unfold getitem; now rewrite Hm).
    cbn [fold_left Py.bind]. rewrite Hitem. cbn [Py.bind].
    assert (Hkeys : keys (setitem mods k (method m)) = keys mods).
    { apply keys_setitem_present. eapply get_in_keys; eauto. }
    destruct (IH (setitem mods k (method m)) Hnd')
      as (mods' & Hrun & Hkeys' & Hins & Houts).
    { intros k' Hk'. rewrite Hkeys. apply Hin. now right. }
    exists mods'. split; [exact Hrun|]. split; [congruence|]. split.
    + intros k' [<-|Hk'].
      * rewrite (Houts k Hk), get_setitem_same, Hm. reflexivity.
      * rewrite (Hins k' Hk'), get_setitem_other; [reflexivity|].
        intros ->. contradiction.
    + intros k' Hnot. rewrite (Houts k'); [|intros ?; apply Hnot; now right].
      apply get_setitem_other. intros ->. apply Hnot. now left.
Qed.

Section ModeFacts.
Context {Mod Opt Sch : Type} {HT : Trainable Mod}.

(** A call of a method on every module of an orchestrator that has a
    model. *)
Lemma set_mode_run (method : Mod -> Mod) (slf : alg Mod Opt Sch) mods :
  module_lst slf = Some mods ->
  NoDup (keys mods) ->
  exists mods',
    set_mode method slf = (Ok tt, set_module_lst mods' slf)
    /\ keys mods' = keys mods
    /\ forall k, get mods' k = option_map method (get mods k).
Proof.
  intros Hmods Hnd.
  destruct (call_all_loop method (keys mods) mods Hnd (fun k H => H))
    as (mods' & Hrun & Hkeys & Hins & Houts).
  exists mods'. split; [|split; [assumption|]].
  - unfold set_mode, abind, lift, modify. rewrite Hmods. cbn [attr].
    unfold call_all. now rewrite Hrun.
  - intros k. destruct (in_dec string_dec k (keys mods)) as [Hin|Hnot].
    + now apply Hins.
    + rewrite (Houts k Hnot).
      apply get_None_not_in in Hnot. now rewrite Hnot.
Qed.

(** X17: [set_train_mode] and [set_eval_mode].  On an orchestrator
    without a model both raise [AttributeError] and change nothing.  With
    a model, neither raises; each keeps the names and the order of the
    modules, replaces every module by the result of its [train()],
    respectively [eval()], and leaves the optimizers and the schedulers as
    they are; afterwards every module is in training mode, respectively
    out of it. *)
Theorem set_mode_reaches_every_module (slf : alg Mod Opt Sch) :
  (module_lst slf = None ->
   set_train_mode slf = (Raise AttributeError, slf)
   /\ set_eval_mode slf = (Raise AttributeError, slf))
  /\ (forall mods,
        module_lst slf = Some mods ->
        NoDup (keys mods) ->
        exists mods_t mods_e,
          set_train_mode slf = (Ok tt, set_module_lst mods_t slf)
          /\ set_eval_mode slf = (Ok tt, set_module_lst mods_e slf)
          /\ keys mods_t = keys mods
          /\ keys mods_e = keys mods
          /\ (forall k, get mods_t k = option_map module_train (get mods k))
          /\ (forall k, get mods_e k = option_map module_eval (get mods k))
          /\ (forall k m, get mods_t k = Some m -> training m = true)
          /\ (forall k m, get mods_e k = Some m -> training m = false)).
Proof.
  split.
  - intros Hnone. unfold set_train_mode, set_eval_mode, set_mode, abind.
    rewrite Hnone. split; reflexivity.
  - intros mods Hmods Hnd.
    destruct (set_mode_run module_train slf mods Hmods Hnd)
      as (mods_t & Ht & Hkt & Hgt).
    destruct (set_mode_run module_eval slf mods Hmods Hnd)
      as (mods_e & He & Hke & Hge).
    exists mods_t, mods_e. repeat split; try assumption.
    + intros k m Hget. rewrite Hgt in Hget.
      destruct (get mods k); [|discriminate]. injection Hget as <-.
      apply training_train.
    + intros k m Hget. rewrite Hge in Hget.
      destruct (get mods k); [|discriminate]. injection Hget as <-.
      apply training_eval.
Qed.
End ModeFacts.

(** X17 on an example: of a training and an evaluating module, both
    train after [set_train_mode] and neither after [set_eval_mode]. *)
Lemma set_mode_reaches_every_module_witness :
  set_train_mode mode_alg
  = (Ok tt,
     set_module_lst [("gen", {| is_training := true; wrappers := [] |});
                     ("dis", {| is_training := true; wrappers := [] |})]
       mode_alg)
  /\ exists mods_t mods_e,
       set_train_mode mode_alg = (Ok tt, set_module_lst mods_t mode_alg)
       /\ set_eval_mode mode_alg = (Ok tt, set_module_lst mods_e mode_alg)
       /\ keys mods_t = keys two_modules
       /\ keys mods_e = keys two_modules
       /\ (forall k, get mods_t k = option_map module_train (get two_modules k))
       /\ (forall k, get mods_e k = option_map module_eval (get two_modules k))
       /\ (forall k m, get mods_t k = Some m -> training m = true)
       /\ (forall k m, get mods_e k = Some m -> training m = false).
Proof.
  split; [reflexivity|].
  apply (proj2 (set_mode_reaches_every_module mode_alg) two_modules).
  - reflexivity.
  - nodup_strings.
Defined.

(* ================================================================== *)
(** * [create_model]                                                    *)
(* ================================================================== *)

(** A loop keeps what every round keeps. *)
Lemma for_each_preserves {S X A} (proj : S -> A) (body : X -> action S unit) :
  (forall x s s' r, body x s = (r, s') -> proj s' = proj s) ->
  forall xs s s' r, for_each xs body s = (r, s') -> proj s' = proj s.
Proof.
  intros Hbody. induction xs as [|x xs IH]; intros s s' r Hrun.
  - cbn in Hrun. now inversion Hrun.
  - cbn [for_each] in Hrun. apply abind_inv in Hrun.
    destruct Hrun as [(a & s1 & H1 & H) | (e & H1 & _)].
    + rewrite (IH _ _ _ H). eapply Hbody; eauto.
    + eapply Hbody; eauto.
Qed.

Section ModelFacts.
Context {Mod Opt Sch : Type}.
Variable model_cls : bool -> value -> result (dict Mod).
Variables to_cuda convert_sync_batchnorm DDP : Mod -> result Mod.

Local Abbreviation wrapped :=
  (wrapped_by to_cuda convert_sync_batchnorm DDP).

(** One of the three statements of the loop body. *)
Lemma update_module_run (f : Mod -> result Mod) k mods m
    (slf : alg Mod Opt Sch) :
  get mods k = Some m ->
  update_module f k (set_module_lst mods slf)
  = match f m with
    | Ok m' => (Ok tt, set_module_lst (setitem mods k m') slf)
    | Raise e => (Raise e, set_module_lst mods slf)
    end.
Proof.
  intros Hm. unfold update_module, abind, lift, modify, getitem.
  cbn [module_lst set_module_lst attr]. rewrite Hm.
  destruct (f m); reflexivity.
Qed.

(** The loop body on one module, statement by statement. *)
Lemma wrap_module_eq k mods m (slf : alg Mod Opt Sch) :
  get mods k = Some m ->
  wrap_module to_cuda convert_sync_batchnorm DDP k (set_module_lst mods slf)
  = match to_cuda m with
    | Raise e => (Raise e, set_module_lst mods slf)
    | Ok m1 =>
        match convert_sync_batchnorm m1 with
        | Raise e => (Raise e, set_module_lst (setitem mods k m1) slf)
        | Ok m2 =>
            match DDP m2 with
            | Raise e => (Raise e, set_module_lst (setitem mods k m2) slf)
            | Ok m3 => (Ok tt, set_module_lst (setitem mods k m3) slf)
            end
        end
    end.
Proof.
  intros Hm. unfold wrap_module.
  unfold abind at 1. rewrite (update_module_run to_cuda k mods m slf Hm).
  destruct (to_cuda m) as [m1|e]; [|reflexivity].
  unfold abind at 1.
  rewrite (update_module_run convert_sync_batchnorm k (setitem mods k m1) m1
             slf (get_setitem_same mods k m1)).
  destruct (convert_sync_batchnorm m1) as [m2|e]; [|reflexivity].
  rewrite setitem_twice.
  rewrite (update_module_run DDP k (setitem mods k m2) m2 slf
             (get_setitem_same mods k m2)).
  destruct (DDP m2) as [m3|e]; [|reflexivity].
  now rewrite setitem_twice.
Qed.

(** The loop body on one module: the module ends up wrapped by the three
    calls in a row, or the call that failed ends the round. *)
Lemma wrap_module_run k mods m (slf : alg Mod Opt Sch) :
  get mods k = Some m ->
  exists mods1,
    keys mods1 = keys mods
    /\ (forall k', k' <> k -> get mods1 k' = get mods k')
    /\ match wrapped m with
       | Ok m' =>
           wrap_module to_cuda convert_sync_batchnorm DDP k
             (set_module_lst mods slf)
           = (Ok tt, set_module_lst mods1 slf)
           /\ get mods1 k = Some m'
       | Raise e =>
           wrap_module to_cuda convert_sync_batchnorm DDP k
             (set_module_lst mods slf)
           = (Raise e, set_module_lst mods1 slf)
       end.
Proof.
  intros Hm.
  assert (Hin : In k (keys mods)) by (eapply get_in_keys; eauto).
  assert (Hset : forall x,
            keys (setitem mods k x) = keys mods
            /\ (forall k', k' <> k -> get (setitem mods k x) k' = get mods k')).
  { intros x. split; [now apply keys_setitem_present|].
    intros k' Hne. now apply get_setitem_other. }
  rewrite (wrap_module_eq k mods m slf Hm). unfold wrapped_by.
  destruct (to_cuda m) as [m1|e]; cbn [Py.bind];
    [|exists mods; repeat split; reflexivity].
  destruct (convert_sync_batchnorm m1) as [m2|e]; cbn [Py.bind];
    [|exists (setitem mods k m1); destruct (Hset m1); repeat split; auto].
  destruct (DDP m2) as [m3|e];
    [exists (setitem mods k m3); destruct (Hset m3)
    |exists (setitem mods k m2); destruct (Hset m2)];
    repeat split; auto.
  apply get_setitem_same.
Qed.

(** The loop body reads and writes the modules only. *)
Lemma update_module_keeps (f : Mod -> result Mod) k
    (s s' : alg Mod Opt Sch) r :
  update_module f k s = (r, s') ->
  (optim_lst s', sched_lst s') = (optim_lst s, sched_lst s).
Proof.
  unfold update_module, abind, lift, modify.
  destruct (attr (module_lst s)) as [mods|e]; [|now intros [= <- <-]].
  destruct (getitem mods k) as [m|e]; [|now intros [= <- <-]].
  destruct (f m) as [m'|e]; now intros [= <- <-].
Qed.

Lemma wrap_module_keeps k (s s' : alg Mod Opt Sch) r :
  wrap_module to_cuda convert_sync_batchnorm DDP k s = (r, s') ->
  (optim_lst s', sched_lst s') = (optim_lst s, sched_lst s).
Proof.
  unfold wrap_module. intros H.
  apply abind_inv in H. destruct H as [(a & s1 & H1 & H) | (e & H1 & _)];
    [|now apply update_module_keeps in H1].
  apply update_module_keeps in H1. rewrite <- H1.
  apply abind_inv in H. destruct H as [(b & s2 & H2 & H) | (e & H2 & _)];
    [|now apply update_module_keeps in H2].
  apply update_module_keeps in H2. rewrite <- H2.
  now apply update_module_keeps in H.
Qed.

(** The loop of lines 27-30 over the names [ks] of modules of [mods]. *)
Lemma wrap_loop : forall ks mods (slf slf' : alg Mod Opt Sch) r,
  for_each ks (wrap_module to_cuda convert_sync_batchnorm DDP)
    (set_module_lst mods slf) = (r, slf') ->
  NoDup ks ->
  (forall k, In k ks -> In k (keys mods)) ->
  exists mods',
    slf' = set_module_lst mods' slf
    /\ keys mods' = keys mods
    /\ (forall k, ~ In k ks -> get mods' k = get mods k)
    /\ ((r = Ok tt
         /\ forall k m, In k ks -> get mods k = Some m ->
              exists m', wrapped m = Ok m' /\ get mods' k = Some m')
        \/ (exists e pre k post m,
              r = Raise e
              /\ ks = pre ++ k :: post
              /\ get mods k = Some m
              /\ wrapped m = Raise e
              /\ (forall k' m0, In k' pre -> get mods k' = Some m0 ->
                    exists m', wrapped m0 = Ok m' /\ get mods' k' = Some m')
              /\ (forall k', In k' post -> get mods' k' = get mods k'))).
Proof.
  induction ks as [|k ks IH]; intros mods slf slf' r Hrun Hnd Hin.
  - cbn in Hrun. inversion Hrun; subst. exists mods.
    split; [reflexivity|]. split; [reflexivity|]. split; [auto|].
    left. split; [reflexivity|]. intros k m [].
  - inversion Hnd as [|? ? Hk Hnd']; subst.
    destruct (in_keys_get mods k (Hin k (or_introl eq_refl))) as (m & Hm).
    destruct (wrap_module_run k mods m slf Hm) as (mods1 & Hk1 & Ho1 & Hw).
    cbn [for_each] in Hrun. unfold abind at 1 in Hrun.
    destruct (wrapped m) as [m'|e] eqn:Hwm.
    + destruct Hw as (Hw & Hget1). rewrite Hw in Hrun.
      destruct (IH mods1 slf slf' r Hrun Hnd')
        as (mods' & -> & Hk' & Hout & Hres).
      { intros k' Hk'. rewrite Hk1. apply Hin. now right. }
      exists mods'. split; [reflexivity|]. split; [congruence|]. split.
      { intros k' Hnot. rewrite Hout by (intros ?; apply Hnot; now right).
        apply Ho1. intros ->. apply Hnot. now left. }
      destruct Hres as [(-> & Hall)
                       | (e & pre & k1 & post & m1 & -> & -> & Hm1 & Hwm1
                          & Hpre & Hpost)].
      * left. split; [reflexivity|]. intros k' m0 [<-|Hk'in] Hm0.
        -- exists m'. rewrite Hm in Hm0. injection Hm0 as <-.
           split; [assumption|]. now rewrite (Hout k Hk).
        -- apply (Hall k' m0 Hk'in). rewrite Ho1; [assumption|].
           intros ->. contradiction.
      * assert (Hne1 : k1 <> k).
        { intros ->. apply Hk. apply in_or_app. right. now left. }
        right. exists e, (k :: pre), k1, post, m1.
        split; [reflexivity|]. split; [reflexivity|].
        split; [now rewrite <- (Ho1 k1 Hne1)|]. split; [assumption|]. split.
        -- intros k' m0 [<-|Hk'in] Hm0.
           ++ exists m'. rewrite Hm in Hm0. injection Hm0 as <-.
              split; [assumption|]. now rewrite (Hout k Hk).
           ++ apply (Hpre k' m0 Hk'in). rewrite Ho1; [assumption|].
              intros ->. apply Hk. apply in_or_app. now left.
        -- intros k' Hk'in. rewrite (Hpost k' Hk'in). apply Ho1.
           intros ->. apply Hk. apply in_or_app. right. now right.
    + rewrite Hw in Hrun. inversion Hrun; subst.
      exists mods1. split; [reflexivity|]. split; [assumption|]. split.
      { intros k' Hnot. apply Ho1. intros ->. apply Hnot. now left. }
      right. exists e, [], k, ks, m.
      split; [reflexivity|]. split; [reflexivity|].
      split; [assumption|]. split; [assumption|]. split.
      * intros k' m0 [].
      * intros k' Hk'in. apply Ho1. intros ->. contradiction.
Qed.

(** X18: the modules after [create_model].  The optimizers and the
    schedulers are never touched.  When the constructor of the model
    raises, so does the call, and the orchestrator is unchanged.
    Otherwise the orchestrator holds modules with the names and the order
    the constructor gave.  When the call returns, every module is the one
    the constructor gave, moved to the GPU, converted to synchronised batch
    normalisation and wrapped for distributed training, in this order and
    once.  When one of these steps raises for a module, the modules before
    it are wrapped in that way and the modules after it are as the
    constructor gave them. *)
Theorem create_model_wraps_every_module
    if_train opts (slf slf' : alg Mod Opt Sch) r :
  create_model model_cls to_cuda convert_sync_batchnorm DDP if_train opts slf
  = (r, slf') ->
  optim_lst slf' = optim_lst slf
  /\ sched_lst slf' = sched_lst slf
  /\ (forall e, model_cls if_train opts = Raise e -> r = Raise e /\ slf' = slf)
  /\ (forall mods,
        model_cls if_train opts = Ok mods ->
        NoDup (keys mods) ->
        exists mods',
          module_lst slf' = Some mods'
          /\ keys mods' = keys mods
          /\ ((r = Ok tt
               /\ forall k m, get mods k = Some m ->
                    exists m', wrapped m = Ok m' /\ get mods' k = Some m')
              \/ (exists e pre k post m,
                    r = Raise e
                    /\ keys mods = pre ++ k :: post
                    /\ get mods k = Some m
                    /\ wrapped m = Raise e
                    /\ (forall k' m0, In k' pre -> get mods k' = Some m0 ->
                          exists m', wrapped m0 = Ok m'
                                     /\ get mods' k' = Some m')
                    /\ (forall k', In k' post ->
                          get mods' k' = get mods k')))).
Proof.
  intros Hrun. unfold create_model in Hrun.
  unfold abind at 1, lift in Hrun.
  destruct (model_cls if_train opts) as [mods|e] eqn:Hcls.
  - unfold abind at 1, modify at 1 in Hrun.
    assert (Hcases : NoDup (keys mods) ->
              exists mods',
                slf' = set_module_lst mods' slf
                /\ keys mods' = keys mods
                /\ ((r = Ok tt
                     /\ forall k m, get mods k = Some m ->
                          exists m', wrapped m = Ok m' /\ get mods' k = Some m')
                    \/ (exists e pre k post m,
                          r = Raise e
                          /\ keys mods = pre ++ k :: post
                          /\ get mods k = Some m
                          /\ wrapped m = Raise e
                          /\ (forall k' m0, In k' pre -> get mods k' = Some m0 ->
                                exists m', wrapped m0 = Ok m'
                                           /\ get mods' k' = Some m')
                          /\ (forall k', In k' post ->
                                get mods' k' = get mods k')))).
    { intros Hnd.
      destruct (wrap_loop (keys mods) mods slf slf' r Hrun Hnd (fun k H => H))
        as (mods' & Hs & Hk & _ & Hres).
      exists mods'. split; [assumption|]. split; [assumption|].
      destruct Hres as [(Hr & Hall) | Hfail]; [left | right; exact Hfail].
      split; [assumption|]. intros k m Hm. apply (Hall k m); [|assumption].
      eapply get_in_keys; eauto. }
    assert (Hkeep := for_each_preserves
                (fun s : alg Mod Opt Sch => (optim_lst s, sched_lst s))
                (wrap_module to_cuda convert_sync_batchnorm DDP)
                wrap_module_keeps _ _ _ _ Hrun).
    cbn [optim_lst sched_lst set_module_lst] in Hkeep.
    injection Hkeep as Ho Hs.
    split; [assumption|]. split; [assumption|].
    split; [intros e He; discriminate|].
    intros mods0 [= <-] Hnd.
    destruct (Hcases Hnd) as (mods' & -> & Hk & Hres).
    exists mods'. split; [reflexivity|]. split; assumption.
  - inversion Hrun; subst. split; [reflexivity|]. split; [reflexivity|].
    split; [intros e' He'; injection He' as <-; split; reflexivity|].
    intros mods Hm. discriminate.
Qed.
End ModelFacts.

(** X18 on an example: two modules, each wrapped by the three calls in
    their order. *)
Lemma create_model_wraps_every_module_witness :
  let out := create_model (fun _ _ => Ok two_modules) (add_wrapper "cuda")
               (add_wrapper "sync") (add_wrapper "ddp") true VNone mode_alg in
  out = (Ok tt,
         set_module_lst
           [("gen", {| is_training := true;
                       wrappers := ["cuda"; "sync"; "ddp"] |});
            ("dis", {| is_training := false;
                       wrappers := ["cuda"; "sync"; "ddp"] |})] mode_alg)
  /\ optim_lst (snd out) = optim_lst mode_alg
  /\ sched_lst (snd out) = sched_lst mode_alg
  /\ exists mods',
       module_lst (snd out) = Some mods'
       /\ keys mods' = keys two_modules
       /\ forall k m, get two_modules k = Some m ->
            exists m',
              wrapped_by (add_wrapper "cuda") (add_wrapper "sync")
                (add_wrapper "ddp") m = Ok m'
              /\ get mods' k = Some m'.
Proof.
  intros out. split; [reflexivity|].
  destruct (create_model_wraps_every_module (fun _ _ => Ok two_modules)
              (add_wrapper "cuda") (add_wrapper "sync") (add_wrapper "ddp")
              true VNone mode_alg (snd out) (fst out) eq_refl)
    as (Ho & Hs & _ & Hmods).
  split; [exact Ho|]. split; [exact Hs|].
  destruct (Hmods two_modules eq_refl) as (mods' & Hm & Hk & Hres);
    [nodup_strings|].
  exists mods'. split; [exact Hm|]. split; [exact Hk|].
  destruct Hres as [(_ & Hall) | (e & pre & k & post & m & Hr & _)];
    [exact Hall | discriminate Hr].
Defined.

(* ================================================================== *)
(** * Further properties of [LPIPS._preprocess]                         *)
(* ================================================================== *)

(** The 256 pixel values, checked one by one. *)
Lemma pixel_element_range_table :
  forallb (fun n => in_unit_range (pixel_element (Z.of_nat n))) (seq 0 256)
  = true.
Proof. vm_compute. reflexivity. Qed.

Lemma pixel_element_range p :
  (0 <= p <= 255)%Z -> in_unit_range (pixel_element p) = true.
Proof.
  intros Hp. pose proof pixel_element_range_table as Htab.
  rewrite forallb_forall in Htab.
  replace p with (Z.of_nat (Z.to_nat p)) by lia.
  apply Htab. apply in_seq. lia.
Qed.

Lemma pixel_element_order_table :
  forallb
    (fun n =>
       forallb
         (fun m =>
            if Nat.ltb n m
            then PrimFloat.ltb (pixel_element (Z.of_nat n))
                               (pixel_element (Z.of_nat m))
            else true)
         (seq 0 256))
    (seq 0 256)
  = true.
Proof. vm_compute. reflexivity. Qed.

(** An element read at any index is an element of the data or the
    default. *)
Lemma in_reverse_channels C data x :
  In x (reverse_channels C data) -> x = 0%Z \/ In x data.
Proof.
  unfold reverse_channels. intros Hin. apply in_map_iff in Hin.
  destruct Hin as (i & <- & _).
  destruct (nth_in_or_default (i / C * C + (C - 1 - i mod C)) data 0%Z);
    auto.
Qed.

Lemma in_to_bchw {A} H W C (d : A) data x :
  In x (to_bchw H W C d data) -> x = d \/ In x data.
Proof.
  unfold to_bchw. intros Hin. apply in_map_iff in Hin.
  destruct Hin as (i & <- & _).
  match goal with
  | |- nth ?j data d = d \/ _ => destruct (nth_in_or_default j data d); auto
  end.
Qed.

(** X19: the image branch of [_preprocess] hands the network numbers
    between -1 and 1.  For an array of pixel values between 0 and 255, of
    any shape, every element of the tensor it returns lies in that
    range. *)
Theorem preprocess_image_within_unit_range a t :
  Forall (fun p => (0 <= p <= 255)%Z) (im_data a) ->
  _preprocess (PixelArray a) "im" = Ok (PTensor t) ->
  Forall (fun x => in_unit_range (SF2Prim x) = true) (t_data t).
Proof.
  intros Hpix Hrun. rewrite Forall_forall in Hpix.
  unfold _preprocess in Hrun.
  change (String.eqb "im" "im") with true in Hrun. cbv iota in Hrun.
  injection Hrun as <-. cbn [t_data].
  apply Forall_forall. intros x Hx.
  apply in_map_iff in Hx. destruct Hx as (f & <- & Hf).
  apply in_to_bchw in Hf. destruct Hf as [-> | Hf]; [reflexivity|].
  apply in_map_iff in Hf. destruct Hf as (p & <- & Hp).
  apply in_reverse_channels in Hp.
  apply (pixel_element_range p).
  destruct Hp as [-> | Hp]; [lia | now apply Hpix].
Qed.

(** X22: the image branch of [_preprocess] keeps the order of pixel
    values.  The darkest value 0 becomes exactly -1, the brightest value
    255 exactly 1, and of two pixel values the larger becomes the
    strictly larger element, so that no two of the 256 values fall
    together in [float32]. *)
Theorem pixel_scaling_strictly_increasing :
  pixel_element 0 = (-1)%float
  /\ pixel_element 255 = 1%float
  /\ forall p q, (0 <= p)%Z -> (p < q)%Z -> (q <= 255)%Z ->
       PrimFloat.ltb (pixel_element p) (pixel_element q) = true.
Proof.
  split; [vm_compute; reflexivity|]. split; [vm_compute; reflexivity|].
  intros p q Hp Hpq Hq. pose proof pixel_element_order_table as Htab.
  rewrite forallb_forall in Htab.
  assert (Hrow : forallb
                   (fun m =>
                      if Nat.ltb (Z.to_nat p) m
                      then PrimFloat.ltb (pixel_element (Z.of_nat (Z.to_nat p)))
                                         (pixel_element (Z.of_nat m))
                      else true)
                   (seq 0 256) = true)
    by (apply Htab; apply in_seq; lia).
  rewrite forallb_forall in Hrow.
  assert (Hcell := Hrow (Z.to_nat q)).
  replace (Nat.ltb (Z.to_nat p) (Z.to_nat q)) with true in Hcell
    by (symmetry; apply Nat.ltb_lt; lia).
  rewrite !Z2Nat.id in Hcell by lia.
  apply Hcell. apply in_seq. lia.
Qed.

(** X20: reversing the channels twice gives the pixels back: for data
    made of whole pixels of [C] channels, [inp[:, :, ::-1]] applied twice
    is the identity, so the reordering from BGR to RGB loses nothing. *)
Theorem reverse_channels_involutive C data n :
  List.length data = n * C ->
  reverse_channels C (reverse_channels C data) = data.
Proof.
  intros Hlen. apply (nth_ext _ _ 0%Z 0%Z).
  - now rewrite !reverse_channels_length.
  - intros i Hi. rewrite !reverse_channels_length in Hi.
    assert (HC : C <> 0) by (intros ->; lia).
    pose proof (Nat.div_mod_eq i C) as Hdiv.
    pose proof (Nat.mod_upper_bound i C HC) as Hmod.
    set (q := i / C) in *. set (c := i mod C) in *.
    assert (Hq : q < n) by nia.
    replace i with (q * C + c) by lia.
    rewrite reverse_channels_nth;
      [|assumption | rewrite reverse_channels_length; lia].
    rewrite reverse_channels_nth;
      [|lia | rewrite Hlen; apply pack_lt; [assumption | lia]].
    f_equal. lia.
Qed.

(** X23: [forward] never hands [None] to the network.  [_preprocess]
    returns [None] exactly for a mode other than [im] and [tensor],
    whatever its input, and neither of the two objects [forward] prepares
    is [None]. *)
Theorem forward_never_prepares_none :
  (forall inp mode,
      _preprocess inp mode = Ok PNone <-> mode <> "im" /\ mode <> "tensor")
  /\ (forall ref im p,
        kernel_inputs ref im = Ok p -> fst p <> PNone /\ snd p <> PNone).
Proof.
  split.
  - intros inp mode. unfold _preprocess.
    destruct (String.eqb_spec mode "im") as [->|Him].
    + split; [|intros [H _]; now contradiction H].
      destruct inp as [a|t]; [discriminate|].
      destruct (Nat.ltb _ _); discriminate.
    + destruct (String.eqb_spec mode "tensor") as [->|Ht].
      * split; [|intros [_ H]; now contradiction H].
        destruct inp; discriminate.
      * split; auto.
  - intros ref im p. unfold kernel_inputs.
    destruct ref as [a|s]; cbn [dtype_is_uint8].
    + destruct (preprocess_image a) as (ta & -> & _). cbn [Py.bind].
      destruct im as [b|t].
      * destruct (preprocess_image b) as (tb & -> & _). cbn [Py.bind].
        intros [= <-]. split; discriminate.
      * cbn [_preprocess String.eqb Ascii.eqb Bool.eqb].
        match goal with
        | |- context [if ?b then _ else _] => destruct b
        end; discriminate.
    + rewrite preprocess_tensor. cbn [Py.bind].
      destruct im as [b|t]; cbn; intros [= <-]; split; discriminate.
Qed.

(** X19 on the sample image. *)
Lemma preprocess_image_within_unit_range_witness :
  exists t,
    _preprocess (PixelArray sample_image) "im" = Ok (PTensor t)
    /\ List.length (t_data t) = 6
    /\ Forall (fun x => in_unit_range (SF2Prim x) = true) (t_data t).
Proof.
  eexists. split; [reflexivity|]. split; [reflexivity|].
  apply (preprocess_image_within_unit_range sample_image).
  - repeat constructor; cbn; lia.
  - reflexivity.
Defined.

(** X22 on two neighbouring pixel values. *)
Lemma pixel_scaling_strictly_increasing_witness :
  PrimFloat.ltb (pixel_element 127) (pixel_element 128) = true.
Proof.
  apply (proj2 (proj2 pixel_scaling_strictly_increasing) 127%Z 128%Z); lia.
Defined.

(** X20 on the data of the sample image: two pixels of three channels. *)
Lemma reverse_channels_involutive_witness :
  reverse_channels 3 [0; 51; 255; 102; 153; 204]%Z
  = [255; 51; 0; 204; 153; 102]%Z
  /\ reverse_channels 3 (reverse_channels 3 [0; 51; 255; 102; 153; 204]%Z)
     = [0; 51; 255; 102; 153; 204]%Z.
Proof.
  split; [reflexivity|].
  apply (reverse_channels_involutive 3 [0; 51; 255; 102; 153; 204]%Z 2).
  reflexivity.
Defined.

(** X23 on the sample inputs: a mode that is neither [im] nor [tensor]
    gives [None], and the objects prepared for two images are tensors. *)
Lemma forward_never_prepares_none_witness :
  _preprocess (PixelArray sample_image) "array" = Ok PNone
  /\ forall p,
       kernel_inputs (PixelArray sample_image) (FloatTensor sample_tensor)
       = Ok p -> fst p <> PNone /\ snd p <> PNone.
Proof.
  destruct forward_never_prepares_none as (Hmode & Hnone).
  split.
  - apply (Hmode (PixelArray sample_image) "array"). split; discriminate.
  - intros p. apply (Hnone _ _ p).
Defined.

